(** * Lineage hierarchy engine of Taxonium (lineageUtils + LineageTools)

    A shallow embedding of the lineage utilities
    ([parseLineageName], [extractLineageRoot], [getLineageLevel],
    [isPangoLineage], [organizeLineageHierarchy],
    [generatePangoLineageColor]) and of the relationship test of the
    lineage side panel ([checkLineageRelationship]), followed by the
    properties established about them.

    Modelling conventions.
    - A JavaScript string is a [string]: a sequence of code units, here
      restricted to the code units below 256.
    - [null] and [undefined] are [None].
    - Counts are integers, modelled by [Z].  JavaScript adds them as
      binary64 numbers, which is exact while the sums stay within 2^53
      in magnitude; every property of a sum of counts carries that
      bound as a hypothesis ([countsBounded]).
    - Every other number (colour channel, hue, saturation, lightness,
      prevalence, hash) is an IEEE 754 binary64 value, modelled by the
      primitive type [float], whose operations round exactly as the
      JavaScript ones do.
    - A plain object used as a map ([lineageMap], [baseColors]) answers
      a lookup with its own property, or else with what it inherits
      from [Object.prototype]; both are modelled.
    - A call returns a value or throws; see [outcome]. *)

From Stdlib Require Import ZArith List String Ascii Bool Lia Permutation Sorted Floats.
Import ListNotations.

Set Warnings "-inexact-float,-register-all".

Local Open Scope string_scope.
Local Open Scope Z_scope.

(* ================================================================== *)
(** ** JavaScript string and array primitives *)

Module Js.

(** [s.length] *)
Definition len (s : string) : Z := Z.of_nat (String.length s).

(** First [n] code units of [s]. *)
Fixpoint take (n : nat) (s : string) : string :=
  match n, s with
  | S n', String c s' => String c (take n' s')
  | _, _ => EmptyString
  end.

(** [s] without its first [n] code units. *)
Fixpoint drop (n : nat) (s : string) : string :=
  match n, s with
  | S n', String _ s' => drop n' s'
  | _, _ => s
  end.

(** [s.substring(a, b)]: both indices are clamped to [0 .. s.length]
    and swapped when [a > b]. *)
Definition substring (a b : Z) (s : string) : string :=
  let clamp := fun i => Z.max 0 (Z.min i (len s)) in
  let lo := Z.min (clamp a) (clamp b) in
  let hi := Z.max (clamp a) (clamp b) in
  take (Z.to_nat (hi - lo)) (drop (Z.to_nat lo) s).

(** [s.substring(a)] *)
Definition substringFrom (a : Z) (s : string) : string :=
  substring a (len s) s.

(** [s.indexOf(c)] for a one-unit needle; [-1] when absent. *)
Fixpoint indexOf (c : ascii) (s : string) : Z :=
  match s with
  | EmptyString => -1
  | String a s' =>
      if Ascii.eqb a c then 0
      else let i := indexOf c s' in if i <? 0 then -1 else i + 1
  end.

(** [s.includes(c)] for a one-unit needle. *)
Definition includes (c : ascii) (s : string) : bool :=
  negb (indexOf c s <? 0).

(** [s.startsWith(p)] *)
Fixpoint startsWith (s p : string) : bool :=
  match p, s with
  | EmptyString, _ => true
  | String a p', String b s' => Ascii.eqb a b && startsWith s' p'
  | String _ _, EmptyString => false
  end.

(** [s.split(c)] for a one-unit separator: never the empty array. *)
Fixpoint split (c : ascii) (s : string) : list string :=
  match s with
  | EmptyString => [EmptyString]
  | String a s' =>
      if Ascii.eqb a c then EmptyString :: split c s'
      else match split c s' with
           | h :: t => String a h :: t
           | [] => [String a EmptyString]
           end
  end.

(** [arr.join(sep)] *)
Fixpoint join (sep : string) (l : list string) : string :=
  match l with
  | [] => EmptyString
  | [x] => x
  | x :: rest => x ++ sep ++ join sep rest
  end.

(** [arr.slice(0, n)] for [0 <= n] *)
Definition slice0 {A} (n : Z) (l : list A) : list A := firstn (Z.to_nat n) l.

(** [arr.length] *)
Definition alen {A} (l : list A) : Z := Z.of_nat (List.length l).

(** Truthiness of a string: only the empty string is falsy. *)
Definition truthy (s : string) : bool :=
  match s with EmptyString => false | _ => true end.

(** [s.charCodeAt(0)] of a one-unit string. *)
Definition charCode (c : ascii) : Z := Z.of_nat (nat_of_ascii c).

End Js.

(* ================================================================== *)
(** ** Regular expressions

    The patterns of the source are kept as data and run by one matcher
    (Brzozowski derivatives), which decides membership of the whole
    input in the language of the pattern. *)

Module Re.

Inductive regex : Type :=
| Void : regex
| Eps : regex
| Class : (ascii -> bool) -> regex
| Seq : regex -> regex -> regex
| Alt : regex -> regex -> regex
| Star : regex -> regex.

Fixpoint nullable (r : regex) : bool :=
  match r with
  | Void => false
  | Eps => true
  | Class _ => false
  | Seq a b => nullable a && nullable b
  | Alt a b => nullable a || nullable b
  | Star _ => true
  end.

Fixpoint deriv (c : ascii) (r : regex) : regex :=
  match r with
  | Void => Void
  | Eps => Void
  | Class p => if p c then Eps else Void
  | Seq a b =>
      if nullable a then Alt (Seq (deriv c a) b) (deriv c b)
      else Seq (deriv c a) b
  | Alt a b => Alt (deriv c a) (deriv c b)
  | Star a => Seq (deriv c a) (Star a)
  end.

Fixpoint run (r : regex) (s : string) : bool :=
  match s with
  | EmptyString => nullable r
  | String c s' => run (deriv c r) s'
  end.

(** One or more repetitions, [r+]. *)
Definition Plus (r : regex) : regex := Seq r (Star r).

(** Character classes of the source patterns. *)
Definition between (lo hi : ascii) (c : ascii) : bool :=
  (nat_of_ascii lo <=? nat_of_ascii c)%nat && (nat_of_ascii c <=? nat_of_ascii hi)%nat.

Definition upper : ascii -> bool := between "A" "Z".
Definition lower : ascii -> bool := between "a" "z".
Definition letter (c : ascii) : bool := upper c || lower c.
Definition digit : ascii -> bool := between "0" "9".
Definition dot (c : ascii) : bool := Ascii.eqb c ".".
Definition anyUnit (c : ascii) : bool := true.

(** [/^[A-Za-z](\.\d+)*$/] *)
Definition pangoPattern : regex :=
  Seq (Class letter) (Star (Seq (Class dot) (Plus (Class digit)))).

(** [/^[A-Za-z]+$/] *)
Definition lettersPattern : regex := Plus (Class letter).

(** [/^[A-Z]{2,}($|\.)/]: anchored at the start only.  After the
    capitals the input either ends, or continues with a dot followed by
    anything at all; the free tail is written out as [Star anyUnit]. *)
Definition multiLetterRootPattern : regex :=
  Seq (Class upper) (Seq (Class upper) (Seq (Star (Class upper))
    (Alt Eps (Seq (Class dot) (Star (Class anyUnit)))))).

(** Denotation of a pattern, for stating what [run] decides. *)
Inductive Matches : regex -> string -> Prop :=
| MEps : Matches Eps EmptyString
| MClass p c : p c = true -> Matches (Class p) (String c EmptyString)
| MSeq a b u v : Matches a u -> Matches b v -> Matches (Seq a b) (u ++ v)
| MAltL a b u : Matches a u -> Matches (Alt a b) u
| MAltR a b u : Matches b u -> Matches (Alt a b) u
| MStar0 a : Matches (Star a) EmptyString
| MStarS a u v : Matches a u -> Matches (Star a) v -> Matches (Star a) (u ++ v).

End Re.

(* ================================================================== *)
(** ** Name parser *)

Record ParsedName := mkParsed {
  parts : list string;
  parent : option string
}.

(** [parseLineageName] *)
Definition parseLineageName (lineageName : string) : ParsedName :=
  if negb (Js.truthy lineageName) then mkParsed [] None
  else if Re.run Re.multiLetterRootPattern lineageName then
    let dotIndex := Js.indexOf "." lineageName in
    if 0 <? dotIndex then
      let rootPart := Js.substring 0 dotIndex lineageName in
      let numericParts := Js.split "." (Js.substringFrom (dotIndex + 1) lineageName) in
      mkParsed (rootPart :: numericParts)
        (if 1 <? Js.alen numericParts
         then Some (rootPart ++ "." ++
                    Js.join "." (Js.slice0 (Js.alen numericParts - 1) numericParts))
         else Some rootPart)
    else mkParsed [lineageName] None
  else
    let ps := Js.split "." lineageName in
    mkParsed ps
      (if 1 <? Js.alen ps
       then Some (Js.join "." (Js.slice0 (Js.alen ps - 1) ps))
       else None).

(** [getLineageLevel] *)
Definition getLineageLevel (lineageName : string) : Z :=
  if negb (Js.truthy lineageName) then 0
  else if Re.run Re.multiLetterRootPattern lineageName then
    if Js.indexOf "." lineageName =? -1 then 0
    else Js.alen (Js.split "." lineageName) - 1
  else Js.alen (parts (parseLineageName lineageName)) - 1.

(** [isPangoLineage] *)
Definition isPangoLineage (name : string) : bool :=
  if negb (Js.truthy name) then false
  else Re.run Re.pangoPattern name.

Record LineageRoot := mkRoot {
  rootLineage : option string;
  nameParts : list string
}.

(** [extractLineageRoot] *)
Definition extractLineageRoot (lineageName : string) : LineageRoot :=
  if negb (Js.truthy lineageName) then mkRoot None []
  else if Js.startsWith lineageName "X" then
    if (1 <? Js.len lineageName) && (0 <? Js.indexOf "." lineageName) then
      let dotIndex := Js.indexOf "." lineageName in
      let root := Js.substring 0 dotIndex lineageName in
      mkRoot (Some root)
        (root :: Js.split "." (Js.substringFrom (dotIndex + 1) lineageName))
    else if 1 <? Js.len lineageName then
      mkRoot (Some lineageName) [lineageName]
    else mkRoot (Some lineageName) [lineageName]
  else if Re.run Re.multiLetterRootPattern lineageName then
    let dotIndex := Js.indexOf "." lineageName in
    if 0 <? dotIndex then
      let root := Js.substring 0 dotIndex lineageName in
      mkRoot (Some root)
        (root :: Js.split "." (Js.substringFrom (dotIndex + 1) lineageName))
    else mkRoot (Some lineageName) [lineageName]
  else
    let ps := Js.split "." lineageName in
    mkRoot (Some (hd EmptyString ps)) ps.

(** The plain branch of the parser taken on its own: split on the dot,
    parent = all segments but the last.  This is what the name parser
    is compared with. *)
Definition plainParse (lineageName : string) : ParsedName :=
  let ps := Js.split "." lineageName in
  mkParsed ps
    (if 1 <? Js.alen ps
     then Some (Js.join "." (Js.slice0 (Js.alen ps - 1) ps))
     else None).

(* ================================================================== *)
(** ** Relationship oracle *)

Inductive Relationship := RelSelf | RelChild | RelParent.

(** [checkLineageRelationship]; the result [null] is [None].  The
    first guard rejects every falsy argument, of which the empty string
    is the only string. *)
Definition checkLineageRelationship (lineageName referenceLineage : string)
  : option Relationship :=
  if negb (Js.truthy lineageName) || negb (Js.truthy referenceLineage) then None
  else if String.eqb lineageName referenceLineage then Some RelSelf
  else if Js.startsWith lineageName (referenceLineage ++ ".") then Some RelChild
  else if Js.startsWith referenceLineage (lineageName ++ ".") then Some RelParent
  else None.

(* ================================================================== *)
(** ** The lineage-like shape, stated on the name itself

    One letter followed by zero or more groups, each a dot and one or
    more decimal digits. *)

Fixpoint eachUnit (p : ascii -> bool) (s : string) : Prop :=
  match s with
  | EmptyString => True
  | String c s' => p c = true /\ eachUnit p s'
  end.

Definition DigitGroup (g : string) : Prop :=
  g <> EmptyString /\ eachUnit Re.digit g.

Fixpoint dotted (groups : list string) : string :=
  match groups with
  | [] => EmptyString
  | g :: rest => "." ++ g ++ dotted rest
  end.

Definition LineageLike (name : string) : Prop :=
  exists (c : ascii) (groups : list string),
    Re.letter c = true /\ Forall DigitGroup groups /\
    name = String c (dotted groups).

(* ================================================================== *)
(** ** Outcomes of a call

    A call returns a value or lets a [TypeError] escape.  [Stuck] is
    the model's own third outcome: the recursion budget of
    [readNode] below ran out, or a child reference named no object.
    It is shown further down never to be produced. *)

Inductive outcome (A : Type) : Type :=
| Returns : A -> outcome A
| Throws : outcome A
| Stuck : outcome A.

Arguments Returns {A} _.
Arguments Throws {A}.
Arguments Stuck {A}.

Definition bind {A B} (x : outcome A) (f : A -> outcome B) : outcome B :=
  match x with
  | Returns a => f a
  | Throws => Throws
  | Stuck => Stuck
  end.

Notation "x <- e ;; k" := (bind e (fun x => k))
  (at level 61, e at next level, right associativity).

(** [xs.map(f)] for an [f] that may throw. *)
Fixpoint mapM {A B} (f : A -> outcome B) (l : list A) : outcome (list B) :=
  match l with
  | [] => Returns []
  | x :: rest => y <- f x ;; ys <- mapM f rest ;; Returns (y :: ys)
  end.

(* ================================================================== *)
(** ** JavaScript numbers *)

Module Num.

Local Open Scope float_scope.

(** The Number value of a mathematical integer (round to nearest, ties
    to even). *)
Definition ofZ (z : Z) : float := SF2Prim (binary_normalize prec emax z 0 false).

Definition isNaN (x : float) : bool := is_nan x.

(** [Math.max(a, b)] and [Math.min(a, b)]: [NaN] wins, and [+0] is
    above [-0]. *)
Definition max (a b : float) : float :=
  if is_nan a || is_nan b then nan
  else if a <? b then b
  else if b <? a then a
  else if get_sign a then b else a.

Definition min (a b : float) : float :=
  if is_nan a || is_nan b then nan
  else if a <? b then a
  else if b <? a then b
  else if get_sign a then a else b.

Definition max3 (a b c : float) : float := max (max a b) c.
Definition min3 (a b c : float) : float := min (min a b) c.

(** [x % y]: the exact remainder of the truncating division, with the
    sign of the dividend. *)
Definition rem (x y : float) : float :=
  if is_nan x || is_nan y || is_infinity x || is_zero y then nan
  else if is_infinity y then x
  else if is_zero x then x
  else
    match Prim2SF x, Prim2SF y with
    | S754_finite sx mx ex, S754_finite _ my ey =>
        let e := Z.min ex ey in
        let X := (Zpos mx * 2 ^ (ex - e))%Z in
        let Y := (Zpos my * 2 ^ (ey - e))%Z in
        let R := (X mod Y)%Z in
        if (R =? 0)%Z then (if sx then neg_zero else zero)
        else SF2Prim (binary_normalize prec emax (cond_Zopp sx R) e false)
    | _, _ => nan
    end.

(** [Math.round(x)]: the integer nearest to [x], ties towards
    [+Infinity]. *)
Definition round (x : float) : float :=
  match Prim2SF x with
  | S754_finite s m e =>
      if (0 <=? e)%Z then x
      else
        let v := cond_Zopp s (Zpos m) in
        let n := ((2 * v + 2 ^ (- e)) / 2 ^ (1 - e))%Z in
        if (n =? 0)%Z then (if s then neg_zero else zero) else ofZ n
  | _ => x
  end.

(** [x ** 2], taken as the correctly rounded product. *)
Definition square (x : float) : float := x * x.

(** White space and line terminators below code unit 256. *)
Definition isWhite (c : ascii) : bool :=
  let n := nat_of_ascii c in
  ((9 <=? n) && (n <=? 13) || (n =? 32) || (n =? 160))%nat.

Fixpoint trimStart (s : string) : string :=
  match s with
  | String c s' => if isWhite c then trimStart s' else s
  | EmptyString => s
  end.

Definition digitValue (radix : Z) (c : ascii) : option Z :=
  let n := Z.of_nat (nat_of_ascii c) in
  let v :=
    if (48 <=? n)%Z && (n <=? 57)%Z then Some (n - 48)%Z
    else if (97 <=? n)%Z && (n <=? 122)%Z then Some (n - 87)%Z
    else if (65 <=? n)%Z && (n <=? 90)%Z then Some (n - 55)%Z
    else None in
  match v with
  | Some d => if (d <? radix)%Z then Some d else None
  | None => None
  end.

(** Value of the longest prefix of digits; [None] when it is empty. *)
Fixpoint digitsPrefix (radix : Z) (s : string) (acc : option Z) : option Z :=
  match s with
  | EmptyString => acc
  | String c s' =>
      match digitValue radix c with
      | Some d =>
          digitsPrefix radix s'
            (Some (match acc with Some a => a * radix + d | None => d end)%Z)
      | None => acc
      end
  end.

(** [parseInt(s)] without a radix argument. *)
Definition parseInt (s : string) : float :=
  let s := trimStart s in
  let '(neg, s) :=
    match s with
    | String "-" r => (true, r)
    | String "+" r => (false, r)
    | _ => (false, s)
    end in
  let '(radix, s) :=
    match s with
    | String "0" (String "x" r) => (16%Z, r)
    | String "0" (String "X" r) => (16%Z, r)
    | _ => (10%Z, s)
    end in
  match digitsPrefix radix s None with
  | None => nan
  | Some n => if neg then - ofZ n else ofZ n
  end.

End Num.

(* ================================================================== *)
(** ** Forest nodes and input records *)

(** A colour is the array [[r, g, b]] of three numbers. *)
Definition RGB : Type := (float * float * float)%type.

(** One element of the [lineages] argument. *)
Module Lineage.
Record t : Type := mk {
  value : string;
  count : Z;
  color : RGB
}.
End Lineage.

(** A node object of the returned forest.  [parent] is the back
    reference set while linking, kept as the name of the parent node;
    [totalTaxa] is [None] while the property is [undefined]. *)
Module Node.
Inductive t : Type := mk {
  name : string;
  count : Z;
  originalCount : Z;
  sampleCount : Z;
  internalCount : Z;
  color : RGB;
  children : list t;
  isExpanded : bool;
  level : Z;
  parent : option string;
  totalTaxa : option Z
}.
End Node.

(** The optional second argument of the colour function. *)
Record LineageData : Type := mkLineageData {
  hierarchyData : option (list Node.t);
  totalCount : option Z
}.

(* ================================================================== *)
(** ** Colour assigner *)

Module Color.

Local Open Scope float_scope.

Definition HSL : Type := (float * float * float)%type.

(** [rgbToHsl] *)
Definition rgbToHsl (rgb : RGB) : HSL :=
  let '(r, g, b) := rgb in
  let r := r / 255 in
  let g := g / 255 in
  let b := b / 255 in
  let max := Num.max3 r g b in
  let min := Num.min3 r g b in
  let l := (max + min) / 2 in
  if max =? min then (0, 0, l)
  else
    let d := max - min in
    let s := if 0.5 <? l then d / (2 - max - min) else d / (max + min) in
    let h :=
      if max =? r then (g - b) / d + (if g <? b then 6 else 0)
      else if max =? g then (b - r) / d + 2
      else if max =? b then (r - g) / d + 4
      else nan in
    (h / 6, s, l).

(** [hue2rgb], the helper inside [hslToRgb] *)
Definition hue2rgb (p q t : float) : float :=
  let t := if t <? 0 then t + 1 else t in
  let t := if 1 <? t then t - 1 else t in
  if t <? 1 / 6 then p + (q - p) * 6 * t
  else if t <? 1 / 2 then q
  else if t <? 2 / 3 then p + (q - p) * (2 / 3 - t) * 6
  else p.

(** [hslToRgb] *)
Definition hslToRgb (hsl : HSL) : RGB :=
  let '(h, s, l) := hsl in
  let '(r, g, b) :=
    if s =? 0 then (l, l, l)
    else
      let q := if l <? 0.5 then l * (1 + s) else l + s - l * s in
      let p := 2 * l - q in
      (hue2rgb p q (h + 1 / 3), hue2rgb p q h, hue2rgb p q (h - 1 / 3)) in
  (Num.round (r * 255), Num.round (g * 255), Num.round (b * 255)).

(** [name.split('').reduce((acc, char, i) => acc + (char.charCodeAt(0) * (i + 1) * 37), 0)],
    from index [i] on. *)
Fixpoint nameSeed (s : string) (i : Z) (acc : float) : float :=
  match s with
  | EmptyString => acc
  | String c s' =>
      nameSeed s' (i + 1)%Z
        (acc + Num.ofZ (Js.charCode c) * Num.ofZ (i + 1) * 37)
  end.

(** [secondaryPart.split('').reduce((acc, char, index) => acc + (char.charCodeAt(0) * (index + 1)), 0)],
    from index [i] on. *)
Fixpoint secondaryHash (s : string) (i : Z) (acc : float) : float :=
  match s with
  | EmptyString => acc
  | String c s' =>
      secondaryHash s' (i + 1)%Z
        (acc + Num.ofZ (Js.charCode c) * Num.ofZ (i + 1))
  end.

(** [generateColorForUnknownLineage] *)
Definition generateColorForUnknownLineage (lineageName : string) : RGB :=
  let seed := nameSeed lineageName 0%Z 0 in
  let h := Num.rem seed 360 / 360 in
  let s := 0.7 + Num.rem seed 20 / 100 in
  let l := 0.5 in
  hslToRgb (h, s, l).

(** The object literal [baseColors], in source order.  A key written
    twice keeps the value written last. *)
Definition baseColorEntries : list (string * (Z * Z * Z)) :=
  [
    ("A", (200, 40, 40)); ("B", (40, 40, 200)); ("C", (40, 160, 40));
    ("D", (180, 140, 20)); ("E", (160, 40, 160)); ("F", (40, 160, 160));
    ("G", (180, 70, 40)); ("H", (120, 40, 140)); ("I", (70, 130, 50));
    ("J", (160, 60, 90)); ("K", (40, 100, 140)); ("L", (140, 120, 40));
    ("M", (100, 40, 80)); ("N", (40, 120, 100)); ("O", (170, 70, 70));
    ("P", (70, 70, 170)); ("Q", (150, 150, 40)); ("R", (90, 40, 140));
    ("S", (40, 110, 70)); ("T", (140, 80, 40)); ("U", (80, 40, 120));
    ("V", (100, 130, 40)); ("W", (150, 60, 100)); ("Z", (60, 120, 120));
    ("AY", (240, 100, 60)); ("AU", (235, 85, 55)); ("AZ", (245, 95, 65));
    ("AT", (230, 90, 50)); ("AS", (220, 80, 45)); ("AA", (225, 85, 50));
    ("AB", (215, 75, 45)); ("AC", (210, 70, 40)); ("AD", (205, 65, 35));
    ("AE", (200, 60, 30)); ("AF", (195, 55, 25)); ("AG", (190, 50, 20));
    ("AH", (185, 45, 15)); ("AI", (180, 40, 10)); ("AJ", (175, 35, 5));
    ("AK", (170, 30, 0)); ("AL", (175, 35, 5)); ("AM", (180, 40, 10));
    ("AN", (185, 45, 15)); ("AO", (190, 50, 20)); ("AP", (195, 55, 25));
    ("AQ", (200, 60, 30)); ("AR", (205, 65, 35)); ("AV", (210, 70, 40));
    ("AW", (215, 75, 45)); ("AX", (220, 80, 50)); ("BJ", (60, 100, 210));
    ("BL", (70, 120, 220)); ("BN", (80, 140, 230)); ("CH", (60, 180, 100));
    ("CJ", (70, 170, 90)); ("CR", (50, 190, 110)); ("DL", (200, 160, 40));
    ("DR", (210, 150, 30)); ("EG", (180, 60, 180)); ("EH", (170, 50, 190));
    ("EL", (190, 70, 170)); ("FL", (60, 190, 190)); ("FM", (50, 180, 200));
    ("HK", (140, 60, 160)); ("HV", (130, 50, 170)); ("JN", (180, 80, 100));
    ("JP", (170, 70, 110)); ("KP", (60, 120, 160)); ("KL", (50, 110, 170));
    ("BA", (70, 70, 180)); ("BB", (60, 80, 190)); ("BC", (50, 90, 200));
    ("BD", (60, 100, 190)); ("BE", (70, 110, 180)); ("BF", (80, 120, 170));
    ("BG", (90, 130, 160)); ("BH", (100, 140, 150)); ("BJ", (110, 150, 140));
    ("BK", (120, 160, 130)); ("BL", (130, 170, 120)); ("BM", (140, 180, 110));
    ("BN", (150, 190, 100)); ("BP", (140, 170, 110)); ("BQ", (130, 160, 120));
    ("BR", (120, 150, 130)); ("BS", (110, 140, 140)); ("BT", (100, 130, 150));
    ("BU", (90, 120, 160)); ("BV", (80, 110, 170)); ("BW", (70, 100, 180));
    ("BY", (60, 90, 190)); ("BZ", (50, 80, 200)); ("X", (130, 60, 130));
    ("XA", (140, 60, 140)); ("XB", (150, 60, 150)); ("XC", (160, 60, 160));
    ("XD", (170, 60, 170)); ("XE", (180, 60, 180)); ("XF", (170, 60, 170));
    ("XG", (160, 60, 160)); ("XH", (150, 60, 150)); ("XJ", (140, 60, 140));
    ("XK", (130, 60, 130)); ("XL", (120, 60, 120)); ("XM", (110, 60, 110));
    ("XN", (100, 60, 100)); ("XP", (110, 60, 110)); ("XQ", (120, 60, 120));
    ("XR", (130, 60, 130)); ("XS", (140, 60, 140)); ("XBB", (140, 70, 170));
    ("XBF", (150, 80, 180)); ("XBC", (160, 90, 190))
  ]%Z.

(** Names every object inherits from [Object.prototype]. *)
Definition objectPrototypeKeys : list string :=
  [ "constructor"; "__defineGetter__"; "__defineSetter__"; "hasOwnProperty";
    "__lookupGetter__"; "__lookupSetter__"; "isPrototypeOf";
    "propertyIsEnumerable"; "toString"; "valueOf"; "__proto__";
    "toLocaleString" ]%string.

Definition isPrototypeKey (k : string) : bool :=
  existsb (String.eqb k) objectPrototypeKeys.

(** Own property [k] of [baseColors]: the last entry written for it. *)
Fixpoint lastEntry (k : string) (l : list (string * (Z * Z * Z)))
  (found : option (Z * Z * Z)) : option (Z * Z * Z) :=
  match l with
  | [] => found
  | (k', v) :: rest =>
      lastEntry k rest (if String.eqb k' k then Some v else found)
  end.

Definition numbers (c : Z * Z * Z) : RGB :=
  let '(r, g, b) := c in (Num.ofZ r, Num.ofZ g, Num.ofZ b).

Definition baseColors (k : string) : option RGB :=
  option_map numbers (lastEntry k baseColorEntries None).

(** The base colour of a root.  [baseColors[rootLineage]] on a name
    inherited from [Object.prototype] is a truthy value that cannot be
    spread, and the call throws. *)
Definition baseColorOf (rootLineage : string) : outcome RGB :=
  match baseColors rootLineage with
  | Some c => Returns c
  | None =>
      if isPrototypeKey rootLineage then Throws
      else if String.eqb rootLineage "BA" then Returns (70, 70, 180)
      else if (1 <? Js.len rootLineage)%Z then
        let mainLetter := Js.take 1 rootLineage in
        match baseColors mainLetter with
        | Some parentColor =>
            let secondaryPart := Js.substringFrom 1 rootLineage in
            let '(h, s, l) := rgbToHsl parentColor in
            let hash := secondaryHash secondaryPart 0%Z 0 in
            let h := Num.rem ((h * 360 + Num.rem hash 120 - 60) / 360) 1 in
            let h := if h <? 0 then h + 1 else h in
            let s := Num.max 0.6 (Num.min 0.9 (s + 0.2)) in
            let l := Num.max 0.35 (Num.min 0.55 l) in
            Returns (hslToRgb (h, s, l))
        | None => Returns (generateColorForUnknownLineage rootLineage)
        end
      else Returns (generateColorForUnknownLineage rootLineage)
  end.

(** [findNode], the recursive search inside the colour function:
    [findNodeAt] is one turn of its loop, on one node. *)
Fixpoint findNodeAt (targetName : string) (node : Node.t) {struct node}
  : option Node.t :=
  if String.eqb (Node.name node) targetName then Some node
  else
    (fix findNode (nodes : list Node.t) : option Node.t :=
       match nodes with
       | [] => None
       | n :: rest =>
           match findNodeAt targetName n with
           | Some found => Some found
           | None => findNode rest
           end
       end) (Node.children node).

Fixpoint findNode (nodes : list Node.t) (targetName : string) : option Node.t :=
  match nodes with
  | [] => None
  | n :: rest =>
      match findNodeAt targetName n with
      | Some found => Some found
      | None => findNode rest targetName
      end
  end.

(** [lineageData.totalCount || rootNodes.reduce((sum, node) => sum + (node.count || 0), 0)] *)
Definition prevalenceTotal (lineageData : LineageData) (rootNodes : list Node.t) : float :=
  let summed := fold_left (fun sum node => sum + Num.ofZ (Node.count node)) rootNodes 0 in
  match totalCount lineageData with
  | Some t => if (t =? 0)%Z then summed else Num.ofZ t
  | None => summed
  end.

(** [isGrayish], the safety check at the end of the colour function *)
Definition isGrayish (rgb : RGB) : bool :=
  let '(r, g, b) := rgb in
  let average := (r + g + b) / 3 in
  let variance :=
    sqrt ((Num.square (r - average) + Num.square (g - average)
           + Num.square (b - average)) / 3) in
  variance <? 25.

(** One turn of the loop over the numeric segments. *)
Definition adjustBySegment (maxLightness : float) (hsl : HSL) (part : string) : HSL :=
  let '(h, s, l) := hsl in
  let numericPart := Num.parseInt part in
  if negb (Num.isNaN numericPart) then
    let h := h + Num.rem numericPart 12 * 0.005 in
    let h := if 1 <? h then h - 1 else h in
    let lightnessAdjustment := -0.02 * Num.rem numericPart 5 / 5 in
    let l := Num.min maxLightness (Num.max 0.25 (l + lightnessAdjustment)) in
    let s := Num.min 0.9 (Num.max 0.2 (s + 0.005)) in
    (h, s, l)
  else (h, s, l).

(** The part of the colour function for a name of one segment. *)
Definition rootLevelColor (lineageName : string) (lineageData : option LineageData)
  (baseColor : RGB) : RGB :=
  let byPrevalence :=
    match lineageData with
    | Some ld =>
        match hierarchyData ld with
        | Some rootNodes =>
            match find (fun node => String.eqb (Node.name node) lineageName) rootNodes with
            | Some rootNode =>
                let totalCount := prevalenceTotal ld rootNodes in
                if 0 <? totalCount then
                  let prevalence := Num.ofZ (Node.count rootNode) / totalCount in
                  let '(h, s, l) := rgbToHsl baseColor in
                  let maxPrevalence := 0.3 in
                  let normalizedPrevalence := Num.min 1 (prevalence / maxPrevalence) in
                  let s := Num.min 1 (s + normalizedPrevalence * 0.3) in
                  let l := Num.max 0.25 (0.4 - normalizedPrevalence * 0.15) in
                  Some (hslToRgb (h, s, l))
                else None
            | None => None
            end
        | None => None
        end
    | None => None
    end in
  match byPrevalence with
  | Some c => c
  | None =>
      let '(h, s, l) := rgbToHsl baseColor in
      if s <? 0.5 then hslToRgb (h, 0.7, l) else baseColor
  end.

(** The part of the colour function for a name of several segments. *)
Definition deeperLevelColor (lineageName : string) (lineageData : option LineageData)
  (baseColor : RGB) (nameParts : list string) : RGB :=
  let '(h, s, l) := rgbToHsl baseColor in
  let depth := Num.ofZ (Js.alen nameParts - 1) in
  let baseLightness := 0.4 in
  let maxLightness := 0.75 in
  let depthFactor := 0.08 in
  let '(baseLightness, s) :=
    match lineageData with
    | Some ld =>
        match hierarchyData ld with
        | Some rootNodes =>
            match findNode rootNodes lineageName with
            | Some node =>
                let totalCount := prevalenceTotal ld rootNodes in
                if 0 <? totalCount then
                  let prevalence := Num.ofZ (Node.count node) / totalCount in
                  let maxPrevalence := 0.2 in
                  let normalizedPrevalence := Num.min 1 (prevalence / maxPrevalence) in
                  let countAdjustment := normalizedPrevalence * 0.15 in
                  (baseLightness - countAdjustment,
                   Num.min 0.9 (s + normalizedPrevalence * 0.1))
                else (baseLightness, s)
            | None => (baseLightness, s)
            end
        | None => (baseLightness, s)
        end
    | None => (baseLightness, s)
    end in
  let l := Num.min maxLightness (Num.max 0.25 (baseLightness + (depth - 1) * depthFactor)) in
  let adjusted := fold_left (adjustBySegment maxLightness) (tl nameParts) (h, s, l) in
  let adjustedColor := hslToRgb adjusted in
  if isGrayish adjustedColor then
    let seed := nameSeed lineageName 0%Z 0 in
    let h := Num.rem seed 360 / 360 in
    let s := 0.7 + Num.rem seed 20 / 100 in
    let l := 0.5 in
    hslToRgb (h, s, l)
  else adjustedColor.

(** [generatePangoLineageColor].  The argument is a string; the first
    guard also sends [null], [undefined] and non-strings to the default
    gray. *)
Definition generatePangoLineageColor (lineageName : string)
  (lineageData : option LineageData) : outcome RGB :=
  if negb (Js.truthy lineageName) then Returns (180, 180, 180)
  else if negb (Js.includes "." lineageName)
          && negb (Re.run Re.lettersPattern lineageName)
  then Returns (generateColorForUnknownLineage lineageName)
  else
    let '(mkRoot root nameParts) := extractLineageRoot lineageName in
    match root with
    | None => Throws
    | Some rootLineage =>
        baseColor <- baseColorOf rootLineage ;;
        if (Js.alen nameParts =? 1)%Z
        then Returns (rootLevelColor lineageName lineageData baseColor)
        else Returns (deeperLevelColor lineageName lineageData baseColor nameParts)
    end.

End Color.

(* ================================================================== *)
(** ** Hierarchy builder

    The node objects live in [lineageMap] while the forest is put
    together, and they refer to each other: a node is in the [children]
    array of its parent and is reached again through the map.  The model
    keeps the objects in a store keyed by name (the key under which the
    source files each object, which is also its [name]) and writes a
    reference to an object as that key. *)

Module Cell.
Record t : Type := mk {
  name : string;
  count : Z;
  originalCount : Z;
  sampleCount : Z;
  internalCount : Z;
  color : RGB;
  children : list string;
  isExpanded : bool;
  level : Z;
  parent : option string
}.
End Cell.

(** [lineageMap]: the own properties, in the order they were added. *)
Definition Store : Type := list (string * Cell.t).

Definition ownProperty (m : Store) (k : string) : option Cell.t :=
  option_map snd (find (fun kv => String.eqb (fst kv) k) m).

(** What [lineageMap[k]] evaluates to: an object of the map, a value
    inherited from [Object.prototype] (truthy, and without a [children]
    array), or [undefined]. *)
Inductive slot : Type :=
| Own : Cell.t -> slot
| Inherited : slot
| Undefined : slot.

Definition getProperty (m : Store) (k : string) : slot :=
  match ownProperty m k with
  | Some c => Own c
  | None => if Color.isPrototypeKey k then Inherited else Undefined
  end.

(** In-place update of the object filed under [k]. *)
Definition update (m : Store) (k : string) (f : Cell.t -> Cell.t) : Store :=
  map (fun kv => if String.eqb (fst kv) k then (fst kv, f (snd kv)) else kv) m.

(** [Object.values(lineageMap)]: the properties whose key is an array
    index come first, by increasing index, the others follow in the
    order they were added. *)
Fixpoint decimalValue (s : string) (acc : Z) : option Z :=
  match s with
  | EmptyString => Some acc
  | String c s' =>
      if Re.digit c
      then decimalValue s' (acc * 10 + (Js.charCode c - 48))
      else None
  end.

Definition arrayIndex (k : string) : option Z :=
  match k with
  | EmptyString => None
  | String "0" EmptyString => Some 0
  | String "0" _ => None
  | _ =>
      match decimalValue k 0 with
      | Some v => if v <=? 4294967294 then Some v else None
      | None => None
      end
  end.

Definition indexOr0 (kv : string * Cell.t) : Z :=
  match arrayIndex (fst kv) with Some i => i | None => 0 end.

Fixpoint insertByIndex (x : string * Cell.t) (l : Store) : Store :=
  match l with
  | [] => [x]
  | y :: rest =>
      if indexOr0 x <=? indexOr0 y then x :: y :: rest
      else y :: insertByIndex x rest
  end.

Definition isIndexed (kv : string * Cell.t) : bool :=
  match arrayIndex (fst kv) with Some _ => true | None => false end.

Definition objectValues (m : Store) : list Cell.t :=
  map snd (fold_right insertByIndex [] (filter isIndexed m)
           ++ filter (fun kv => negb (isIndexed kv)) m)%list.

(** [xs.forEach] with a body that threads the state and may throw. *)
Fixpoint foldM {S A} (f : S -> A -> outcome S) (l : list A) (s : S) : outcome S :=
  match l with
  | [] => Returns s
  | x :: rest => s' <- f s x ;; foldM f rest s'
  end.

(** [getAllParentLineages], the helper inside the builder *)
Fixpoint growParents (currentParent : string) (rest : list string) : list string :=
  match rest with
  | [] => []
  | p :: rest' =>
      let currentParent := currentParent ++ "." ++ p in
      currentParent :: growParents currentParent rest'
  end.

Definition getAllParentLineages (lineageName : string) : list string :=
  if negb (Js.truthy lineageName) then []
  else
    let ps :=
      if Re.run Re.multiLetterRootPattern lineageName then
        let dotIndex := Js.indexOf "." lineageName in
        if 0 <? dotIndex then
          let rootPart := Js.substring 0 dotIndex lineageName in
          let numericParts := Js.split "." (Js.substringFrom (dotIndex + 1) lineageName) in
          rootPart :: numericParts
        else [lineageName]
      else Js.split "." lineageName in
    match ps with
    | [] => []
    | first :: rest => removelast (first :: growParents first rest)
    end.

(** [nodeTypes] maps a name to its kind; [None] is the default [null]. *)
Definition NodeTypes : Type := option (string -> option string).

Definition isLeafCount (nodeTypes : NodeTypes) (value : string) : bool :=
  match nodeTypes with
  | None => true
  | Some kinds =>
      match kinds value with
      | None => true
      | Some kind => negb (Js.truthy kind) || String.eqb kind "leaf"
      end
  end.

(** First pass, inner loop: a parent that is not in the map yet is
    created with zero counts and a colour made from its name. *)
Definition ensureParent (m : Store) (parentName : string) : outcome Store :=
  match getProperty m parentName with
  | Undefined =>
      color <- Color.generatePangoLineageColor parentName None ;;
      Returns (m ++ [(parentName,
                      Cell.mk parentName 0 0 0 0 color [] false
                        (getLineageLevel parentName) None)])%list
  | _ => Returns m
  end.

(** First pass, body of the loop over [lineages]. *)
Definition addLineage (nodeTypes : NodeTypes) (m : Store) (lineage : Lineage.t)
  : outcome Store :=
  let value := Lineage.value lineage in
  if negb (Js.truthy value) then Returns m
  else
    let m :=
      match getProperty m value with
      | Undefined =>
          let leaf := isLeafCount nodeTypes value in
          (m ++ [(value,
                 Cell.mk value (Lineage.count lineage) (Lineage.count lineage)
                   (if leaf then Lineage.count lineage else 0)
                   (if leaf then 0 else Lineage.count lineage)
                   (Lineage.color lineage) [] false (getLineageLevel value) None)])%list
      | _ => m
      end in
    foldM ensureParent (getAllParentLineages value) m.

(** Second pass, body of the loop over [Object.values(lineageMap)]. *)
Definition link (st : Store * list string) (node : Cell.t)
  : outcome (Store * list string) :=
  let '(m, rootLineages) := st in
  let name := Cell.name node in
  match parent (parseLineageName name) with
  | None => Returns (m, (rootLineages ++ [name])%list)
  | Some p =>
      if negb (Js.truthy p) then Returns (m, (rootLineages ++ [name])%list)
      else
        match getProperty m p with
        | Own _ =>
            let m := update m p (fun c =>
              Cell.mk (Cell.name c) (Cell.count c) (Cell.originalCount c)
                (Cell.sampleCount c) (Cell.internalCount c) (Cell.color c)
                (Cell.children c ++ [name])%list (Cell.isExpanded c) (Cell.level c)
                (Cell.parent c)) in
            let m := update m name (fun c =>
              Cell.mk (Cell.name c) (Cell.count c) (Cell.originalCount c)
                (Cell.sampleCount c) (Cell.internalCount c) (Cell.color c)
                (Cell.children c) (Cell.isExpanded c) (Cell.level c)
                (Some p)) in
            Returns (m, rootLineages)
        | Inherited => Throws
        | Undefined => Returns (m, (rootLineages ++ [name])%list)
        end
  end.

(** The object graph below one reference, read out of the store as a
    tree.  Every object is in exactly one [children] array or in
    [rootLineages], so nothing is shared between the trees.  The
    recursion follows [children] and is given a budget. *)
Fixpoint readNode (fuel : nat) (m : Store) (ref : string) : outcome Node.t :=
  match fuel with
  | O => Stuck
  | S fuel' =>
      match ownProperty m ref with
      | None => Stuck
      | Some c =>
          kids <- mapM (readNode fuel' m) (Cell.children c) ;;
          Returns (Node.mk (Cell.name c) (Cell.count c) (Cell.originalCount c)
                     (Cell.sampleCount c) (Cell.internalCount c) (Cell.color c)
                     kids (Cell.isExpanded c) (Cell.level c) (Cell.parent c) None)
      end
  end.

(** Budget of [readNode]: one more than the longest key. *)
Definition budget (m : Store) : nat :=
  S (fold_right Nat.max 0%nat (map (fun kv => String.length (fst kv)) m)).

(** What [accumulateChildCounts] returns. *)
Record Counts : Type := mkCounts {
  totalCount' : Z;
  sampleCount' : Z;
  internalCount' : Z
}.

(** [accumulateChildCounts]: the node after the call, and the returned
    counts.  The sums are those of [Z]: they are the sums JavaScript
    forms as long as these stay within 2^53 in magnitude, and the
    properties of the totals are stated for inputs whose counts add up
    to no more than that ([countsBounded]). *)
Fixpoint accumulateChildCounts (node : Node.t) : Node.t * Counts :=
  match Node.children node with
  | [] =>
      (node, mkCounts (Node.originalCount node) (Node.sampleCount node)
               (Node.internalCount node))
  | kids =>
      let loop :=
        fix loop (kids : list Node.t) (acc : Z * Z * Z) : list Node.t * (Z * Z * Z) :=
          match kids with
          | [] => ([], acc)
          | child :: rest =>
              let '(totalChildrenCount, totalSampleCount, totalInternalCount) := acc in
              let '(child', childCounts) := accumulateChildCounts child in
              let '(rest', acc') :=
                loop rest (totalChildrenCount + totalCount' childCounts,
                           totalSampleCount + sampleCount' childCounts,
                           totalInternalCount + internalCount' childCounts) in
              (child' :: rest', acc')
          end in
      let '(kids', (totalChildrenCount, totalSampleCount, totalInternalCount)) :=
        loop kids (0, Node.sampleCount node, Node.internalCount node) in
      let count := Node.originalCount node + totalChildrenCount in
      (Node.mk (Node.name node) count (Node.originalCount node)
         totalSampleCount totalInternalCount (Node.color node) kids'
         (Node.isExpanded node) (Node.level node) (Node.parent node)
         (Some (totalSampleCount + totalInternalCount)),
       mkCounts count totalSampleCount totalInternalCount)
  end.

(** [sortByCount] *)
Definition sortByCount (a b : Node.t) : Z := Node.count b - Node.count a.

(** [arr.sort(sortByCount)]: a stable sort. *)
Fixpoint insertNode (x : Node.t) (l : list Node.t) : list Node.t :=
  match l with
  | [] => [x]
  | y :: rest =>
      if sortByCount x y <=? 0 then x :: y :: rest
      else y :: insertNode x rest
  end.

Definition sortNodes (l : list Node.t) : list Node.t := fold_right insertNode [] l.

(** [sortChildren].  The source sorts the children and then descends
    into them; descending does not touch [count], so the model descends
    first and sorts the results, which lets the recursion stay
    structural ([sort_then_descend] below). *)
Fixpoint sortChildren (node : Node.t) : Node.t :=
  Node.mk (Node.name node) (Node.count node) (Node.originalCount node)
    (Node.sampleCount node) (Node.internalCount node) (Node.color node)
    (sortNodes (map sortChildren (Node.children node)))
    (Node.isExpanded node) (Node.level node) (Node.parent node)
    (Node.totalTaxa node).

(** [organizeLineageHierarchy] *)
Definition organizeLineageHierarchy (lineages : list Lineage.t) (nodeTypes : NodeTypes)
  : outcome (list Node.t) :=
  match lineages with
  | [] => Returns []
  | _ =>
      lineageMap <- foldM (addLineage nodeTypes) lineages [] ;;
      linked <- foldM link (objectValues lineageMap) (lineageMap, []) ;;
      let '(lineageMap, rootLineages) := linked in
      rootNodes <- mapM (readNode (budget lineageMap) lineageMap) rootLineages ;;
      let rootNodes := map (fun node => fst (accumulateChildCounts node)) rootNodes in
      Returns (map sortChildren (sortNodes rootNodes))
  end.

(* ================================================================== *)
(** ** Predicates on forests *)

(** [everyNode P n]: [P] holds of [n] and of every node below it. *)
Fixpoint everyNode (P : Node.t -> Prop) (n : Node.t) : Prop :=
  P n /\
  (fix each (l : list Node.t) : Prop :=
     match l with
     | [] => True
     | k :: rest => everyNode P k /\ each rest
     end) (Node.children n).

(** Sum of the total counts of a list of nodes. *)
Definition sumCounts (l : list Node.t) : Z :=
  fold_right (fun k acc => Node.count k + acc) 0 l.

(** Total count = own count + total counts of the children. *)
Definition aggregated (n : Node.t) : Prop :=
  Node.count n = Node.originalCount n + sumCounts (Node.children n).

(** A node as the first two passes leave it: the total is still the
    own count and [totalTaxa] is still [undefined]. *)
Definition fresh (n : Node.t) : Prop :=
  Node.count n = Node.originalCount n /\ Node.totalTaxa n = None.

(** The same of the objects in the store. *)
Definition balancedCell (c : Cell.t) : Prop :=
  Cell.count c = Cell.originalCount c.

Definition balanced (m : Store) : Prop :=
  Forall (fun kv => balancedCell (snd kv)) m.

(** The loop inside [accumulateChildCounts], named so that lemmas can
    be stated about it. *)
Fixpoint accumulateChildren (kids : list Node.t) (acc : Z * Z * Z)
  : list Node.t * (Z * Z * Z) :=
  match kids with
  | [] => ([], acc)
  | child :: rest =>
      let '(totalChildrenCount, totalSampleCount, totalInternalCount) := acc in
      let '(child', childCounts) := accumulateChildCounts child in
      let '(rest', acc') :=
        accumulateChildren rest
          (totalChildrenCount + totalCount' childCounts,
           totalSampleCount + sampleCount' childCounts,
           totalInternalCount + internalCount' childCounts) in
      (child' :: rest', acc')
  end.

(** What one call of [accumulateChildCounts] establishes for the node
    it is applied to. *)
Definition accumulatedOk (node : Node.t) : Prop :=
  everyNode fresh node ->
  everyNode aggregated (fst (accumulateChildCounts node))
  /\ totalCount' (snd (accumulateChildCounts node))
     = Node.count (fst (accumulateChildCounts node)).

(** Well-formedness of the store, as the two passes keep it. *)
Definition hasKey (m : Store) (k : string) : Prop := In k (map fst m).

Definition namesAreKeys (m : Store) : Prop :=
  forall k c, In (k, c) m -> Cell.name c = k.

Definition childrenLonger (m : Store) : Prop :=
  forall k c, In (k, c) m ->
    forall ch, In ch (Cell.children c) ->
      hasKey m ch /\ (String.length k < String.length ch)%nat.

Definition linkedOk (st : Store * list string) : Prop :=
  namesAreKeys (fst st) /\ childrenLonger (fst st)
  /\ (forall r, In r (snd st) -> hasKey (fst st) r).

Definition longestKey (m : Store) : nat :=
  fold_right Nat.max 0%nat (map (fun kv => String.length (fst kv)) m).

(** The store as the first pass leaves it. *)
Definition pristine (m : Store) : Prop :=
  forall k c, In (k, c) m ->
    Cell.name c = k /\ Cell.children c = [] /\ Cell.parent c = None.

(** [lineageMap[k]] is truthy. *)
Definition present (m : Store) (k : string) : Prop :=
  getProperty m k <> Undefined.

(* ================================================================== *)
(** ** Vocabulary for comparing two runs of the builder *)

(** The object the first pass creates for an entry of the input. *)
Definition realCell (nodeTypes : NodeTypes) (e : Lineage.t) : Cell.t :=
  let value := Lineage.value e in
  let leaf := isLeafCount nodeTypes value in
  Cell.mk value (Lineage.count e) (Lineage.count e)
    (if leaf then Lineage.count e else 0)
    (if leaf then 0 else Lineage.count e)
    (Lineage.color e) [] false (getLineageLevel value) None.

(** The object the first pass creates for a missing parent. *)
Definition synthCell (parentName : string) (color : RGB) : Cell.t :=
  Cell.mk parentName 0 0 0 0 color [] false (getLineageLevel parentName) None.

(** Entries that share a name are the same entry. *)
Definition consistentNames (l : list Lineage.t) : Prop :=
  forall e e', In e l -> In e' l -> Lineage.value e = Lineage.value e' -> e = e'.

(** [a] is one of the parent names of [v]. *)
Definition isAncestorOf (a v : string) : bool :=
  existsb (String.eqb a) (getAllParentLineages v).

(** No entry names an ancestor of an entry before it: every observed
    name comes before the observed names below it. *)
Fixpoint ancestorsFirst (seen : list string) (l : list Lineage.t) : bool :=
  match l with
  | [] => true
  | e :: rest =>
      negb (existsb (isAncestorOf (Lineage.value e)) seen)
      && ancestorsFirst (seen ++ [Lineage.value e])%list rest
  end.

(** What the first pass has built once the entries [done] are in. *)
Definition cellOrigin (nodeTypes : NodeTypes) (done : list Lineage.t)
  (k : string) (c : Cell.t) : Prop :=
  (exists e, In e done /\ Js.truthy (Lineage.value e) = true
             /\ k = Lineage.value e /\ c = realCell nodeTypes e)
  \/ (exists e color, In e done /\ In k (getAllParentLineages (Lineage.value e))
             /\ Color.generatePangoLineageColor k None = Returns color
             /\ c = synthCell k color).

(** The soundness half of the invariant below together with the
    absence of duplicate keys: what the inner loop maintains. *)
Definition soundStore (nodeTypes : NodeTypes) (done : list Lineage.t) (m : Store) : Prop :=
  (forall k c, In (k, c) m ->
     Color.isPrototypeKey k = false /\ cellOrigin nodeTypes done k c)
  /\ NoDup (map fst m).

Record firstPassInv (nodeTypes : NodeTypes) (done : list Lineage.t) (m : Store) : Prop :=
  mkFirstPassInv {
    inv_sound : forall k c, In (k, c) m ->
      Color.isPrototypeKey k = false /\ cellOrigin nodeTypes done k c;
    inv_real : forall e, In e done -> Js.truthy (Lineage.value e) = true ->
      Color.isPrototypeKey (Lineage.value e) = false ->
      In (Lineage.value e, realCell nodeTypes e) m;
    inv_parents : forall e p, In e done ->
      In p (getAllParentLineages (Lineage.value e)) ->
      Color.isPrototypeKey p = false -> hasKey m p;
    inv_nodup : NoDup (map fst m)
  }.

(** The parent a node is linked under in the second pass; [None] when
    the node goes to [rootLineages]. *)
Definition linkTarget (m : Store) (n : string) : option string :=
  match parent (parseLineageName n) with
  | None => None
  | Some p =>
      if negb (Js.truthy p) then None
      else match getProperty m p with
           | Own _ => Some p
           | _ => None
           end
  end.

Definition isTarget (m : Store) (k n : string) : bool :=
  match linkTarget m n with
  | Some p => String.eqb p k
  | None => false
  end.

Definition isRoot (m : Store) (n : string) : bool :=
  match linkTarget m n with
  | None => true
  | Some _ => false
  end.

(** Two objects agree on everything the second pass leaves alone. *)
Definition sameScalars (c c' : Cell.t) : Prop :=
  Cell.name c = Cell.name c' /\ Cell.count c = Cell.count c'
  /\ Cell.originalCount c = Cell.originalCount c'
  /\ Cell.sampleCount c = Cell.sampleCount c'
  /\ Cell.internalCount c = Cell.internalCount c'
  /\ Cell.color c = Cell.color c'
  /\ Cell.isExpanded c = Cell.isExpanded c'
  /\ Cell.level c = Cell.level c'.

(** An entry of the store before and after the nodes [order] have been
    linked, the links being decided on the keys of [m0]. *)
Definition linkedCell (m0 : Store) (order : list string)
  (kc kc2 : string * Cell.t) : Prop :=
  fst kc2 = fst kc
  /\ sameScalars (snd kc) (snd kc2)
  /\ Cell.children (snd kc2)
     = (Cell.children (snd kc) ++ filter (isTarget m0 (fst kc)) order)%list
  /\ Cell.parent (snd kc2)
     = if existsb (String.eqb (fst kc)) order
       then match linkTarget m0 (fst kc) with
            | Some p => Some p
            | None => Cell.parent (snd kc)
            end
       else Cell.parent (snd kc).

(** Two linked stores agree, key by key, up to the order of the
    [children] arrays. *)
Definition linkedAlike (m m' : Store) : Prop :=
  forall k c c', ownProperty m k = Some c -> ownProperty m' k = Some c' ->
    sameScalars c c' /\ Cell.parent c = Cell.parent c'
    /\ Permutation (Cell.children c) (Cell.children c').

(** Two nodes agree on every property but [children]. *)
Definition sameFields (n n' : Node.t) : Prop :=
  Node.name n = Node.name n' /\ Node.count n = Node.count n'
  /\ Node.originalCount n = Node.originalCount n'
  /\ Node.sampleCount n = Node.sampleCount n'
  /\ Node.internalCount n = Node.internalCount n'
  /\ Node.color n = Node.color n'
  /\ Node.isExpanded n = Node.isExpanded n'
  /\ Node.level n = Node.level n'
  /\ Node.parent n = Node.parent n'
  /\ Node.totalTaxa n = Node.totalTaxa n'.

(** Two trees are the same up to the order of the children, at every
    level. *)
Inductive similar : Node.t -> Node.t -> Prop :=
| similar_intro (n n' : Node.t) (kids : list Node.t) :
    sameFields n n' ->
    Permutation kids (Node.children n) ->
    Forall2 similar kids (Node.children n') ->
    similar n n'.

Definition similarForests (f f' : list Node.t) : Prop :=
  exists x, Permutation x f /\ Forall2 similar x f'.

(** Every node of a tree, the root first. *)
Fixpoint nodesOf (n : Node.t) : list Node.t :=
  n :: (fix each (l : list Node.t) : list Node.t :=
          match l with
          | [] => []
          | k :: rest => (nodesOf k ++ each rest)%list
          end) (Node.children n).

(** Name, total, own, sample and internal counts, and colour of a node. *)
Definition NodeRecord : Type := (string * Z * Z * Z * Z * RGB)%type.

Definition recordOf (n : Node.t) : NodeRecord :=
  (Node.name n, Node.count n, Node.originalCount n, Node.sampleCount n,
   Node.internalCount n, Node.color n).

Definition forestRecords (f : list Node.t) : list NodeRecord :=
  map recordOf (flat_map nodesOf f).

(** The node after [accumulateChildCounts], and the sums the loop forms. *)
Definition accNode (n : Node.t) : Node.t := fst (accumulateChildCounts n).

Definition accSum (sel : Counts -> Z) (kids : list Node.t) : Z :=
  fold_right (fun k s => sel (snd (accumulateChildCounts k)) + s) 0 kids.

(** [totalTaxa] as the bottom-up pass leaves it: assigned on a node
    with children, still [undefined] on a node without. *)
Definition taxaAsCoded (n : Node.t) : Prop :=
  Node.totalTaxa n =
  match Node.children n with
  | [] => None
  | _ :: _ => Some (Node.sampleCount n + Node.internalCount n)
  end.

(* ================================================================== *)
(** ** Further functions of the lineage utilities *)

(** The loop at the end of [isDirectChild]: every segment of the parent
    is the segment of the child at the same index. *)
Fixpoint segmentsMatch (parentParts childParts : list string) : bool :=
  match parentParts with
  | [] => true
  | p :: parentRest =>
      match childParts with
      | c :: childRest =>
          if negb (String.eqb p c) then false
          else segmentsMatch parentRest childRest
      | [] => false
      end
  end.

(** [a === b] on two values that are a string or [null]. *)
Definition sameRoot (a b : option string) : bool :=
  match a, b with
  | Some x, Some y => String.eqb x y
  | None, None => true
  | _, _ => false
  end.

(** [isDirectChild] *)
Definition isDirectChild (childLineage parentLineage : string) : bool :=
  if negb (Js.truthy childLineage) || negb (Js.truthy parentLineage) then false
  else if Re.run Re.multiLetterRootPattern childLineage then
    let '(mkRoot childRoot childParts) := extractLineageRoot childLineage in
    let '(mkRoot parentRoot parentParts) := extractLineageRoot parentLineage in
    if negb (sameRoot childRoot parentRoot) then false
    else
      (Js.alen childParts =? Js.alen parentParts + 1)
      && String.eqb (Js.join "." (Js.slice0 (Js.alen parentParts) childParts))
                    (Js.join "." parentParts)
  else
    let childParts := parts (parseLineageName childLineage) in
    let parentParts := parts (parseLineageName parentLineage) in
    if negb (Js.alen childParts =? Js.alen parentParts + 1) then false
    else segmentsMatch parentParts childParts.

(** The joins of the non-empty prefixes of a list of segments, shortest
    first: what the loop of [getAllParentLineages] pushes. *)
Definition prefixJoins (l : list string) : list string :=
  map (fun k => Js.join "." (firstn k l)) (seq 1 (List.length l)).

(** A segment without a dot. *)
Definition dotFree (s : string) : Prop := Js.indexOf "." s = -1.

(* ================================================================== *)
(** ** Further predicates on forests *)

(** Sum of the own counts of a list of nodes. *)
Definition sumOwn (l : list Node.t) : Z :=
  fold_right (fun k acc => Node.originalCount k + acc) 0 l.

(** The names of all nodes of a forest. *)
Definition forestNames (f : list Node.t) : list string :=
  map Node.name (flat_map nodesOf f).

(** [a] is not behind [b] in an array sorted by [sortByCount]. *)
Definition byCountDesc (a b : Node.t) : Prop := Node.count b <= Node.count a.

(** What the bottom-up pass returns for a node is what it leaves in the
    node. *)
Definition returnsFields (n : Node.t) : Prop :=
  snd (accumulateChildCounts n)
  = mkCounts (Node.count (accNode n)) (Node.sampleCount (accNode n))
      (Node.internalCount (accNode n)).

(** A relation between the four counts of an object of the store, and
    of a node. *)
Definition cellCounts (P : Z -> Z -> Z -> Z -> Prop) (c : Cell.t) : Prop :=
  P (Cell.count c) (Cell.originalCount c) (Cell.sampleCount c) (Cell.internalCount c).

Definition nodeCounts (P : Z -> Z -> Z -> Z -> Prop) (n : Node.t) : Prop :=
  P (Node.count n) (Node.originalCount n) (Node.sampleCount n) (Node.internalCount n).

(** The relation holds of the counts the first pass writes. *)
Definition observedCounts (nodeTypes : NodeTypes) (P : Z -> Z -> Z -> Z -> Prop) : Prop :=
  P 0 0 0 0
  /\ forall value count,
       P count count (if isLeafCount nodeTypes value then count else 0)
         (if isLeafCount nodeTypes value then 0 else count).

Definition sumOf (f : Node.t -> Z) (l : list Node.t) : Z :=
  fold_right (fun k s => f k + s) 0 l.

(** The three totals of a node after the bottom-up pass, from those of
    its children. *)
Definition totalsFromChildren (before after : Node.t) : Prop :=
  Node.count after = Node.originalCount before + sumOf Node.count (Node.children after)
  /\ Node.sampleCount after
     = Node.sampleCount before + sumOf Node.sampleCount (Node.children after)
  /\ Node.internalCount after
     = Node.internalCount before + sumOf Node.internalCount (Node.children after).

Definition splitOk (n : Node.t) : Prop :=
  Node.sampleCount n + Node.internalCount n = Node.count n
  /\ forall t, Node.totalTaxa n = Some t -> t = Node.count n.

Definition allSamples (n : Node.t) : Prop :=
  Node.internalCount n = 0 /\ Node.sampleCount n = Node.count n.

(* ================================================================== *)
(** ** The linked store and the forest read from it *)

(** The names a node is linked under, from its root down to itself: its
    parent lineages and itself, without the empty name at the head,
    under which nothing is linked. *)
Definition linkChain (x : string) : list string :=
  match (getAllParentLineages x ++ [x])%list with
  | EmptyString :: y :: rest => y :: rest
  | c => c
  end.

(** The store after the second pass, in terms of the store [m1] it
    started from. *)
Record wellLinked (m1 m2 : Store) (roots : list string) : Prop := mkWellLinked {
  wl_keys : map fst m2 = map fst m1;
  wl_nodup : NoDup (map fst m2);
  wl_cell : forall k c, In (k, c) m2 ->
    exists c1, In (k, c1) m1 /\ sameScalars c1 c;
  wl_parent : forall k c, In (k, c) m2 -> Cell.parent c = linkTarget m1 k;
  wl_children : forall k c, In (k, c) m2 ->
    NoDup (Cell.children c)
    /\ forall x, In x (Cell.children c) <-> hasKey m2 x /\ linkTarget m1 x = Some k;
  wl_roots : NoDup roots
    /\ forall x, In x roots <-> hasKey m2 x /\ linkTarget m1 x = None
}.

(** A node shows an object of the store: the fields the later passes
    leave alone, and the names of the children up to their order. *)
Definition readsCell (c : Cell.t) (n : Node.t) : Prop :=
  Node.name n = Cell.name c
  /\ Node.originalCount n = Cell.originalCount c
  /\ Node.color n = Cell.color c
  /\ Node.isExpanded n = Cell.isExpanded c
  /\ Node.level n = Cell.level c
  /\ Node.parent n = Cell.parent c
  /\ Permutation (map Node.name (Node.children n)) (Cell.children c).

Definition readsStore (m : Store) (n : Node.t) : Prop :=
  exists c, In (Node.name n, c) m /\ readsCell c n.

(** A pass over the trees that leaves those fields alone. *)
Definition keepsShape (f : Node.t -> Node.t) : Prop :=
  forall n,
    Node.name (f n) = Node.name n
    /\ Node.originalCount (f n) = Node.originalCount n
    /\ Node.color (f n) = Node.color n
    /\ Node.isExpanded (f n) = Node.isExpanded n
    /\ Node.level (f n) = Node.level n
    /\ Node.parent (f n) = Node.parent n
    /\ Permutation (Node.children (f n)) (map f (Node.children n)).

(** A child agrees with the node it hangs under. *)
Definition childOf (n ch : Node.t) : Prop :=
  Node.parent ch = Some (Node.name n)
  /\ parent (parseLineageName (Node.name ch)) = Some (Node.name n).

Definition childrenLinked (n : Node.t) : Prop := Forall (childOf n) (Node.children n).

(** A root has no parent, and its name has none or the empty one. *)
Definition rootLike (r : Node.t) : Prop :=
  Node.parent r = None
  /\ (parent (parseLineageName (Node.name r)) = None
      \/ parent (parseLineageName (Node.name r)) = Some EmptyString).

(** [k] is the name of an entry, or one of the parent lineages of one. *)
Definition observedOrAncestor (lineages : list Lineage.t) (k : string) : Prop :=
  exists e, In e lineages /\ Js.truthy (Lineage.value e) = true
            /\ (k = Lineage.value e \/ In k (getAllParentLineages (Lineage.value e))).

(** Where a node comes from: an entry of the input, whose count and
    colour it carries, or a parent lineage of one, with no count of its
    own and the colour generated for its name. *)
Definition nodeOrigin (lineages : list Lineage.t) (n : Node.t) : Prop :=
  Node.level n = getLineageLevel (Node.name n)
  /\ Node.isExpanded n = false
  /\ ((exists e, In e lineages /\ Js.truthy (Lineage.value e) = true
                 /\ Node.name n = Lineage.value e
                 /\ Node.originalCount n = Lineage.count e
                 /\ Node.color n = Lineage.color e)
      \/ (exists e, In e lineages
                 /\ In (Node.name n) (getAllParentLineages (Lineage.value e))
                 /\ Node.originalCount n = 0
                 /\ Color.generatePangoLineageColor (Node.name n) None
                    = Returns (Node.color n))).

(* ================================================================== *)
(** ** Names that make the code throw *)

(** The first segment of a name. *)
Definition rootSegment (name : string) : string := hd EmptyString (Js.split "." name).

(** The first segment is one of the names every object inherits from
    [Object.prototype]. *)
Definition inheritedRoot (name : string) : bool := Color.isPrototypeKey (rootSegment name).

(** An entry on which the builder throws: the name has parent lineages
    and its first segment is an inherited name. *)
Definition throwsOn (e : Lineage.t) : bool :=
  inheritedRoot (Lineage.value e)
  && match getAllParentLineages (Lineage.value e) with
     | [] => false
     | _ :: _ => true
     end.

(* ================================================================== *)
(** ** Conservation of the counts *)

(** An entry the builder files: its name is not empty and not one of
    the inherited names. *)
Definition counted (e : Lineage.t) : bool :=
  Js.truthy (Lineage.value e) && negb (Color.isPrototypeKey (Lineage.value e)).

Definition sumEntries (l : list Lineage.t) : Z :=
  fold_right (fun e s => Lineage.count e + s) 0 l.

(** Sum of the own counts of the objects of a store. *)
Definition storeOwn (m : Store) : Z :=
  fold_right (fun kc s => Cell.originalCount (snd kc) + s) 0 m.

(** The own count filed under a name. *)
Definition ownCountOf (m : Store) (k : string) : Z :=
  match ownProperty m k with
  | Some c => Cell.originalCount c
  | None => 0
  end.

Definition sumZ (l : list Z) : Z := fold_right Z.add 0 l.

(** The object of an entry, with its key. *)
Definition realEntry (nodeTypes : NodeTypes) (e : Lineage.t) : string * Cell.t :=
  (Lineage.value e, realCell nodeTypes e).

(** The key is the name of a filed entry of [l]. *)
Definition isObserved (l : list Lineage.t) (kc : string * Cell.t) : bool :=
  existsb (fun e => String.eqb (Lineage.value e) (fst kc)) (filter counted l).

(* ================================================================== *)
(** ** The range in which the sums are exact

    JavaScript adds the counts as binary64 numbers.  Every integer of
    magnitude up to 2^53 is such a number, and the sum of two of them
    is computed exactly when it is again of magnitude up to 2^53.
    Every sum the builder forms is a sum of counts of different
    entries; when the magnitudes of the counts of the input add up to
    at most 2^53, every one of them is therefore exact, and is the sum
    in [Z] of the model ([organize_totals_within] below bounds the
    totals of every node). *)

Definition exactBound : Z := 9007199254740992.

Definition sumAbs (l : list Z) : Z := fold_right (fun c s => Z.abs c + s) 0 l.

Definition countsBounded (lineages : list Lineage.t) : Prop :=
  sumAbs (map Lineage.count lineages) <= exactBound.

(** The three totals of a node are in that range. *)
Definition withinExact (n : Node.t) : Prop :=
  Z.abs (Node.count n) <= exactBound
  /\ Z.abs (Node.sampleCount n) <= exactBound
  /\ Z.abs (Node.internalCount n) <= exactBound.

(* ================================================================== *)
(** ** The entries the builder files *)

(** The entries left when every entry whose name is in [seen], or is
    the name of an entry before it, is taken out. *)
Fixpoint firstFrom (seen : list string) (l : list Lineage.t) : list Lineage.t :=
  match l with
  | [] => []
  | e :: rest =>
      if existsb (String.eqb (Lineage.value e)) seen then firstFrom seen rest
      else e :: firstFrom (Lineage.value e :: seen) rest
  end.

(** The first entry of every name. *)
Definition firstEntries (l : list Lineage.t) : list Lineage.t := firstFrom [] l.

(** The entries that reach the map: of the entries with a name that is
    not empty and not inherited, the first of every name. *)
Definition filed (l : list Lineage.t) : list Lineage.t := firstEntries (filter counted l).

(** The builder after its first pass. *)
Definition finishHierarchy (first : outcome Store) : outcome (list Node.t) :=
  lineageMap <- first ;;
  linked <- foldM link (objectValues lineageMap) (lineageMap, []) ;;
  let '(lineageMap, rootLineages) := linked in
  rootNodes <- mapM (readNode (budget lineageMap) lineageMap) rootLineages ;;
  let rootNodes := map (fun node => fst (accumulateChildCounts node)) rootNodes in
  Returns (map sortChildren (sortNodes rootNodes)).

(* ================================================================== *)
(** * [getKeyStuff], which prepares the entries *)

(** A count as [getKeyStuff] holds it: a whole number, or [NaN]. *)
Inductive Tally : Type :=
| Counted : Z -> Tally
| NotANumber : Tally.

(** An entry of the returned array. *)
Module KeyItem.
Record t : Type := mk {
  value : string;
  count : Tally;
  color : RGB
}.
End KeyItem.

(** The object [counts], as the list of its own properties in the order
    they were added. *)
Definition Tallies : Type := list (string * Tally).

Definition ownTally (counts : Tallies) (k : string) : option Tally :=
  option_map snd (find (fun kv => String.eqb (fst kv) k) counts).

(** [x++] on a property that holds [x]. *)
Definition increment (t : Tally) : Tally :=
  match t with
  | Counted n => Counted (n + 1)
  | NotANumber => NotANumber
  end.

(** The body of the loop over the nodes, on the field value of a node
    as the property key it is used as.  [value in counts] also holds of
    the names inherited from [Object.prototype]: incrementing one of
    those writes [NaN], and on [__proto__] writes nothing. *)
Definition tally (counts : Tallies) (value : string) : Tallies :=
  match ownTally counts value with
  | Some _ =>
      map (fun kv => if String.eqb (fst kv) value then (fst kv, increment (snd kv)) else kv)
        counts
  | None =>
      if Color.isPrototypeKey value then
        if String.eqb value "__proto__" then counts
        else (counts ++ [(value, NotANumber)])%list
      else (counts ++ [(value, Counted 1)])%list
  end.

(** [Object.keys(counts)] with the values filed under the keys: array
    indices first, by increasing index, then the other keys in the
    order they were added. *)
Definition tallyIndex (kv : string * Tally) : Z :=
  match arrayIndex (fst kv) with Some i => i | None => 0 end.

Fixpoint insertTally (x : string * Tally) (l : Tallies) : Tallies :=
  match l with
  | [] => [x]
  | y :: rest =>
      if tallyIndex x <=? tallyIndex y then x :: y :: rest
      else y :: insertTally x rest
  end.

Definition tallyIndexed (kv : string * Tally) : bool :=
  match arrayIndex (fst kv) with Some _ => true | None => false end.

Definition ownEntries (counts : Tallies) : Tallies :=
  (fold_right insertTally [] (filter tallyIndexed counts)
   ++ filter (fun kv => negb (tallyIndexed kv)) counts)%list.

(** [getKeyStuff].  [getNodeColorField] is taken with the dataset
    fixed; [colorByField] is not used by the source either. *)
Definition getKeyStuff {N F : Type} (getNodeColorField : N -> string) (colorByField : F)
  (nodes : list N) (toRGB : string -> RGB) : list KeyItem.t :=
  let counts := fold_left (fun counts node => tally counts (getNodeColorField node)) nodes [] in
  map (fun kv => KeyItem.mk (fst kv) (snd kv) (toRGB (fst kv))) (ownEntries counts).

(** How often a field value occurs among the nodes. *)
Definition occurrences {N : Type} (getNodeColorField : N -> string) (nodes : list N)
  (value : string) : Z :=
  Z.of_nat (count_occ string_dec (map getNodeColorField nodes) value).

(** What the loop of [getKeyStuff] has built once the values [seen] are
    counted. *)
Definition talliesOf (seen : list string) (counts : Tallies) : Prop :=
  NoDup (map fst counts)
  /\ (forall k t, In (k, t) counts ->
        In k seen /\ k <> "__proto__"
        /\ t = if Color.isPrototypeKey k then NotANumber
               else Counted (Z.of_nat (count_occ string_dec seen k)))
  /\ (forall k, In k seen -> k <> "__proto__" -> In k (map fst counts)).

(** The entry as the builder reads it, when its count is a number. *)
Definition asLineage (item : KeyItem.t) : option Lineage.t :=
  match KeyItem.count item with
  | Counted n => Some (Lineage.mk (KeyItem.value item) n (KeyItem.color item))
  | NotANumber => None
  end.

(** The own count of a node built from the entries of [getKeyStuff]:
    the number of dataset nodes with its name, or nothing. *)
Definition ownCountFrom {N : Type} (getNodeColorField : N -> string) (nodes : list N)
  (n : Node.t) : Prop :=
  Node.originalCount n = occurrences getNodeColorField nodes (Node.name n)
  \/ Node.originalCount n = 0.

(* ================================================================== *)
(** * [getLineageColor] of the category list *)

(** The colour shown for a lineage: the hierarchical colour when those
    are enabled and the name is lineage-like, and otherwise the colour
    of its entry, or a gray when it has none. *)
Definition getLineageColor (useHierarchicalColors : bool) (keyStuff : list KeyItem.t)
  (lineageName : string) : outcome RGB :=
  if useHierarchicalColors && isPangoLineage lineageName
  then Color.generatePangoLineageColor lineageName None
  else
    match find (fun item => String.eqb (KeyItem.value item) lineageName) keyStuff with
    | Some item => Returns (KeyItem.color item)
    | None => Returns (150, 150, 150)%float
    end.

(** The sum of the counts that are numbers. *)
Definition tallySum (counts : Tallies) : Z :=
  fold_right (fun kv s => match snd kv with Counted n => n + s | NotANumber => s end) 0 counts.

(** The entry is shown by a node of the forest, with its count and
    colour. *)
Definition shownIn (forest : list Node.t) (e : Lineage.t) : Prop :=
  exists n, In n (flat_map nodesOf forest)
            /\ Node.name n = Lineage.value e
            /\ Node.originalCount n = Lineage.count e
            /\ Node.color n = Lineage.color e.

(* ================================================================== *)
(** * [extractLineages] of the lineage time chart

    The breadth-first walk that flattens the hierarchy.  The nodes are
    those the builder makes: they have no [id], so a node is identified
    by its name, and [children] is always an array. *)

(** An entry of [flatNodes]. *)
Module Flat.
Record t : Type := mk {
  name : string;
  depth : Z;
  path : list string
}.
End Flat.

(** An entry of the queue: [{ node, depth, path }]. *)
Module Pending.
Record t : Type := mk {
  node : Node.t;
  depth : Z;
  path : list string
}.
End Pending.

(** [allLineagesByDepth]: the arrays of names, filed under the depth. *)
Definition ByDepth : Type := list (Z * list string).

Definition lineagesAt (m : ByDepth) (d : Z) : option (list string) :=
  option_map snd (find (fun kv => fst kv =? d) m).

(** The two statements that file a name under its depth. *)
Definition fileUnder (m : ByDepth) (d : Z) (name : string) : ByDepth :=
  let m :=
    match lineagesAt m d with
    | Some _ => m
    | None => (m ++ [(d, [])])%list
    end in
  map (fun kv =>
         if fst kv =? d
         then (fst kv,
               if existsb (String.eqb name) (snd kv) then snd kv
               else (snd kv ++ [name])%list)
         else kv) m.

(** The variables the loop works on. *)
Record Walk : Type := mkWalk {
  queue : list Pending.t;
  visited : list string;
  flatNodes : list Flat.t;
  allLineagesByDepth : ByDepth
}.

(** The children that are enqueued: those with a name. *)
Definition enqueued (n : Node.t) (depth : Z) (path : list string) : list Pending.t :=
  map (fun child => Pending.mk child (depth + 1) (path ++ [Node.name n])%list)
    (filter (fun child => Js.truthy (Node.name child)) (Node.children n)).

(** One turn of the [while] loop, on the entry shifted off the queue. *)
Definition turn (e : Pending.t) (rest : list Pending.t) (w : Walk) : Walk :=
  let node := Pending.node e in
  if negb (Js.truthy (Node.name node))
  then mkWalk rest (visited w) (flatNodes w) (allLineagesByDepth w)
  else
    let nodeId := Node.name node in
    if existsb (String.eqb nodeId) (visited w)
    then mkWalk rest (visited w) (flatNodes w) (allLineagesByDepth w)
    else
      mkWalk (rest ++ enqueued node (Pending.depth e) (Pending.path e))%list
        (visited w ++ [nodeId])%list
        (flatNodes w
         ++ [Flat.mk (Node.name node) (Pending.depth e)
               (Pending.path e ++ [Node.name node])%list])%list
        (fileUnder (allLineagesByDepth w) (Pending.depth e) (Node.name node)).

(** The loop, with a budget of turns. *)
Fixpoint walk (fuel : nat) (w : Walk) : outcome Walk :=
  match queue w with
  | [] => Returns w
  | e :: rest =>
      match fuel with
      | O => Stuck
      | S fuel' => walk fuel' (turn e rest w)
      end
  end.

(** [extractLineages]: what it leaves in [flatNodes] and
    [allLineagesByDepth]. *)
Definition extractLineages (hierarchyData : list Node.t) : outcome (list Flat.t * ByDepth) :=
  w <- walk (List.length (flat_map nodesOf hierarchyData))
         (mkWalk (map (fun node => Pending.mk node 0 []) hierarchyData) [] [] []) ;;
  Returns (flatNodes w, allLineagesByDepth w).

(** [path] lists the names from a root of the forest down to the parent
    of [n]. *)
Inductive PathTo (forest : list Node.t) : list string -> Node.t -> Prop :=
| PathRoot (r : Node.t) : In r forest -> PathTo forest [] r
| PathChild (p : list string) (n ch : Node.t) :
    PathTo forest p n -> In ch (Node.children n) ->
    PathTo forest (p ++ [Node.name n])%list ch.

(** An entry of [flatNodes] describes a node of the forest. *)
Definition describes (forest : list Node.t) (e : Flat.t) : Prop :=
  exists n p,
    PathTo forest p n
    /\ Flat.name e = Node.name n
    /\ Flat.path e = (p ++ [Node.name n])%list
    /\ Flat.depth e = Z.of_nat (List.length p).

(** The number of turns the queue can still take. *)
Definition pendingSize (q : list Pending.t) : nat :=
  List.length (flat_map (fun e => nodesOf (Pending.node e)) q).

(** The names still to come from the queue. *)
Definition pendingNames (q : list Pending.t) : list string :=
  map Node.name (flat_map (fun e => nodesOf (Pending.node e)) q).

(** The names filed under a depth, none when nothing is. *)
Definition namesAt (m : ByDepth) (d : Z) : list string :=
  match lineagesAt m d with
  | Some l => l
  | None => []
  end.

(** What the loop keeps true. *)
Record walkInv (forest : list Node.t) (w : Walk) : Prop := mkWalkInv {
  wi_queue : Forall (fun e =>
               PathTo forest (Pending.path e) (Pending.node e)
               /\ Pending.depth e = Z.of_nat (List.length (Pending.path e))) (queue w);
  wi_visited : visited w = map Flat.name (flatNodes w);
  wi_nodup : NoDup (visited w);
  wi_flat : Forall (describes forest) (flatNodes w);
  wi_depth : forall d,
    namesAt (allLineagesByDepth w) d
    = map Flat.name (filter (fun e => Flat.depth e =? d) (flatNodes w))
}.

(* ================================================================== *)
(** * Properties *)

(** ** Facts about the string primitives *)

Section StringFacts.

Variable c : ascii.

Lemma split_not_nil (s : string) : Js.split c s <> [].
Proof.
  destruct s as [|a s]; simpl; [discriminate|].
  destruct (Ascii.eqb a c); [discriminate|].
  destruct (Js.split c s); discriminate.
Qed.

Lemma indexOf_range (s : string) :
  Js.indexOf c s = -1 \/ (0 <= Js.indexOf c s < Js.len s).
Proof.
  unfold Js.len. induction s as [|a s IH]; simpl String.length; [now left|].
  simpl. destruct (Ascii.eqb a c).
  - right. lia.
  - destruct IH as [IH|IH].
    + rewrite IH. now left.
    + destruct (Z.ltb_spec (Js.indexOf c s) 0); [lia|]. right. lia.
Qed.

Lemma split_no_sep (s : string) :
  Js.indexOf c s = -1 -> Js.split c s = [s].
Proof.
  induction s as [|a s IH]; simpl; [reflexivity|].
  destruct (Ascii.eqb a c); [discriminate|].
  destruct (Z.ltb_spec (Js.indexOf c s) 0) as [Hlt|Hge]; intros H.
  - destruct (indexOf_range s) as [E|E]; [|lia].
    rewrite (IH E). reflexivity.
  - lia.
Qed.

Lemma split_at_index (s : string) :
  0 <= Js.indexOf c s ->
  Js.split c s =
  Js.take (Z.to_nat (Js.indexOf c s)) s
    :: Js.split c (Js.drop (S (Z.to_nat (Js.indexOf c s))) s).
Proof.
  induction s as [|a s IH]; simpl; [lia|].
  destruct (Ascii.eqb a c) eqn:Ea.
  - intros _. simpl. destruct s; reflexivity.
  - destruct (Z.ltb_spec (Js.indexOf c s) 0) as [Hlt|Hge]; [lia|].
    intros _. rewrite (IH Hge).
    replace (Z.to_nat (Js.indexOf c s + 1)) with (S (Z.to_nat (Js.indexOf c s))) by lia.
    reflexivity.
Qed.

End StringFacts.

Lemma take_over (n : nat) (s : string) :
  (String.length s <= n)%nat -> Js.take n s = s.
Proof.
  revert n; induction s as [|a s IH]; intros [|n] H; simpl in *; try reflexivity; try lia.
  rewrite IH by lia. reflexivity.
Qed.

Lemma drop_length (n : nat) (s : string) :
  String.length (Js.drop n s) = (String.length s - n)%nat.
Proof.
  revert s; induction n as [|n IH]; intros [|a s]; simpl; try reflexivity; try lia.
  apply IH.
Qed.

Lemma substring_prefix (i : Z) (s : string) :
  0 <= i <= Js.len s -> Js.substring 0 i s = Js.take (Z.to_nat i) s.
Proof.
  intros H. unfold Js.substring.
  replace (Z.max 0 (Z.min 0 (Js.len s))) with 0 by (unfold Js.len in *; lia).
  replace (Z.max 0 (Z.min i (Js.len s))) with i by lia.
  replace (Z.min 0 i) with 0 by lia. replace (Z.max 0 i) with i by lia.
  rewrite Z.sub_0_r. reflexivity.
Qed.

Lemma substringFrom_drop (i : Z) (s : string) :
  0 <= i <= Js.len s -> Js.substringFrom i s = Js.drop (Z.to_nat i) s.
Proof.
  intros H. unfold Js.substringFrom, Js.substring.
  assert (Hl : 0 <= Js.len s) by (unfold Js.len; lia).
  replace (Z.max 0 (Z.min i (Js.len s))) with i by lia.
  replace (Z.max 0 (Z.min (Js.len s) (Js.len s))) with (Js.len s) by lia.
  replace (Z.min i (Js.len s)) with i by lia.
  replace (Z.max i (Js.len s)) with (Js.len s) by lia.
  apply take_over. rewrite drop_length. unfold Js.len. lia.
Qed.

(** The two source idioms "prefix before the first dot, then the split
    of the rest" and "split of the whole" agree. *)
Lemma root_and_rest_is_split (s : string) :
  0 < Js.indexOf "." s ->
  Js.substring 0 (Js.indexOf "." s) s
    :: Js.split "." (Js.substringFrom (Js.indexOf "." s + 1) s)
  = Js.split "." s.
Proof.
  intros H. destruct (indexOf_range "." s) as [E|E]; [lia|].
  rewrite substring_prefix by lia.
  rewrite substringFrom_drop by lia.
  replace (Z.to_nat (Js.indexOf "." s + 1)) with (S (Z.to_nat (Js.indexOf "." s))) by lia.
  symmetry. apply split_at_index. lia.
Qed.

(** ** Facts about the matcher *)

Lemma run_void_seq (r : Re.regex) (s : string) :
  Re.run (Re.Seq Re.Void r) s = false.
Proof. induction s as [|a s IH]; simpl; auto. Qed.

Lemma multiLetterRoot_first (s : string) :
  Re.run Re.multiLetterRootPattern s = true ->
  exists a s', s = String a s' /\ Re.upper a = true.
Proof.
  destruct s as [|a s]; simpl; [discriminate|].
  destruct (Re.upper a) eqn:Ea.
  - intros _. eauto.
  - now rewrite run_void_seq.
Qed.

Lemma upper_not_dot (a : ascii) : Re.upper a = true -> Ascii.eqb a "." = false.
Proof.
  intros H. destruct (Ascii.eqb_spec a "."); [subst; discriminate|reflexivity].
Qed.

Lemma multiLetterRoot_index (s : string) :
  Re.run Re.multiLetterRootPattern s = true ->
  Js.indexOf "." s <> 0.
Proof.
  intros H. destruct (multiLetterRoot_first s H) as (a & s' & -> & Ha).
  simpl. rewrite (upper_not_dot a Ha).
  destruct (Z.ltb_spec (Js.indexOf "." s') 0); [lia|].
  destruct (indexOf_range "." s'); lia.
Qed.

(** ** The name parser against the plain split *)

Lemma join_cons2 (sep x y : string) (l : list string) :
  Js.join sep (x :: y :: l) = x ++ sep ++ Js.join sep (y :: l).
Proof. reflexivity. Qed.

Lemma plain_parent_of_root_rest (root : string) (rest : list string) :
  rest <> [] ->
  (if 1 <? Js.alen (root :: rest)
   then Some (Js.join "." (Js.slice0 (Js.alen (root :: rest) - 1) (root :: rest)))
   else None)
  = (if 1 <? Js.alen rest
     then Some (root ++ "." ++ Js.join "." (Js.slice0 (Js.alen rest - 1) rest))
     else Some root).
Proof.
  intros Hne. destruct rest as [|x rest]; [contradiction|].
  unfold Js.alen, Js.slice0.
  replace (Z.to_nat (Z.of_nat (List.length (root :: x :: rest)) - 1))
    with (S (List.length rest)) by (simpl List.length; lia).
  replace (Z.to_nat (Z.of_nat (List.length (x :: rest)) - 1))
    with (List.length rest) by (simpl List.length; lia).
  destruct (Z.ltb_spec 1 (Z.of_nat (List.length (root :: x :: rest))));
    [|simpl List.length in *; lia].
  destruct rest as [|y rest].
  - reflexivity.
  - destruct (Z.ltb_spec 1 (Z.of_nat (List.length (x :: y :: rest))));
      [|simpl List.length in *; lia].
    change (firstn (S (List.length (y :: rest))) (root :: x :: y :: rest))
      with (root :: firstn (List.length (y :: rest)) (x :: y :: rest)).
    change (firstn (List.length (y :: rest)) (x :: y :: rest))
      with (x :: firstn (List.length rest) (y :: rest)).
    reflexivity.
Qed.

(** The parser against [plainParse], and the root extractor against the
    split: the two halves of C10, kept apart because later proofs need
    the first. *)
Lemma parseLineageName_plain (name : string) :
  name <> EmptyString -> parseLineageName name = plainParse name.
Proof.
  intros Hne.
  assert (Ht : Js.truthy name = true) by (destruct name; [contradiction|reflexivity]).
  unfold parseLineageName, plainParse. rewrite Ht. simpl negb. cbv iota.
  destruct (Re.run Re.multiLetterRootPattern name) eqn:Hre; [|reflexivity].
  destruct (Z.ltb_spec 0 (Js.indexOf "." name)) as [Hpos|Hnpos].
  - cbv zeta. rewrite <- (root_and_rest_is_split name Hpos).
    rewrite plain_parent_of_root_rest by apply split_not_nil.
    reflexivity.
  - pose proof (multiLetterRoot_index name Hre).
    destruct (indexOf_range "." name) as [E|E]; [|lia].
    cbv zeta. rewrite (split_no_sep "." name E). reflexivity.
Qed.

Lemma extractLineageRoot_split (name : string) :
  name <> EmptyString ->
  nameParts (extractLineageRoot name) = Js.split "." name
  /\ rootLineage (extractLineageRoot name) = Some (hd EmptyString (Js.split "." name)).
Proof.
  intros Hne.
  assert (Ht : Js.truthy name = true) by (destruct name; [contradiction|reflexivity]).
  unfold extractLineageRoot. rewrite Ht. simpl negb. cbv iota.
  destruct (Js.startsWith name "X") eqn:HX.
  - destruct ((1 <? Js.len name) && (0 <? Js.indexOf "." name)) eqn:Hc.
    + apply andb_prop in Hc. destruct Hc as [_ Hc]. apply Z.ltb_lt in Hc.
      cbv zeta. simpl nameParts. simpl rootLineage.
      rewrite <- (root_and_rest_is_split name Hc). split; reflexivity.
    + assert (E : Js.indexOf "." name = -1).
      { destruct name as [|a s]; [discriminate|].
        assert (a = "X"%char) as ->.
        { unfold Js.startsWith in HX.
          destruct (Ascii.eqb_spec "X" a); [congruence|discriminate]. }
        destruct (indexOf_range "." (String "X" s)) as [E|E]; [exact E|].
        apply andb_false_iff in Hc. destruct Hc as [Hc|Hc].
        - apply Z.ltb_ge in Hc. unfold Js.len in *. simpl String.length in *.
          destruct s; [reflexivity|simpl String.length in *; lia].
        - apply Z.ltb_ge in Hc.
          assert (E0 : Js.indexOf "." (String "X" s) = 0) by lia.
          simpl in E0. destruct (Z.ltb_spec (Js.indexOf "." s) 0); [lia|].
          destruct (indexOf_range "." s); lia. }
      rewrite (split_no_sep "." name E).
      destruct (1 <? Js.len name); split; reflexivity.
  - destruct (Re.run Re.multiLetterRootPattern name) eqn:Hre.
    + destruct (Z.ltb_spec 0 (Js.indexOf "." name)) as [Hpos|Hnpos].
      * cbv zeta. simpl nameParts. simpl rootLineage.
        rewrite <- (root_and_rest_is_split name Hpos). split; reflexivity.
      * pose proof (multiLetterRoot_index name Hre).
        destruct (indexOf_range "." name) as [E|E]; [|lia].
        rewrite (split_no_sep "." name E). split; reflexivity.
    + split; reflexivity.
Qed.

(** C10. For every non-empty name the name parser computes exactly what
    the plain branch computes: the segments are the name split on the
    dot and the parent is the join of all segments but the last; the
    segments of [extractLineageRoot] are the same split, and its root is
    the first segment.  The multi-letter and recombinant special cases
    never change the result. *)
Theorem parser_special_case_is_plain_split (name : string) :
  name <> EmptyString ->
  parseLineageName name = plainParse name
  /\ parts (parseLineageName name) = Js.split "." name
  /\ nameParts (extractLineageRoot name) = Js.split "." name
  /\ rootLineage (extractLineageRoot name) = Some (hd EmptyString (Js.split "." name)).
Proof.
  intros Hne. split; [now apply parseLineageName_plain|].
  split; [now rewrite parseLineageName_plain|].
  now apply extractLineageRoot_split.
Qed.

Lemma parser_special_case_is_plain_split_witness :
  ("XBB.1.5" <> EmptyString) /\
  parseLineageName "XBB.1.5" = plainParse "XBB.1.5".
Proof.
  split; [discriminate|].
  apply (parser_special_case_is_plain_split "XBB.1.5"). discriminate.
Defined.

(** ** The matcher decides the denotation *)

Section MatcherCorrect.

Import Re.

Lemma append_assoc' (a b c : string) : (a ++ b) ++ c = a ++ (b ++ c).
Proof. induction a; simpl; congruence. Qed.

Lemma append_length' (a b : string) :
  String.length (a ++ b) = (String.length a + String.length b)%nat.
Proof. induction a; simpl; congruence. Qed.

Lemma append_is_empty (u v : string) : u ++ v = "" -> u = "" /\ v = "".
Proof. destruct u; simpl; [auto|discriminate]. Qed.

Lemma nullable_Matches (r : regex) : nullable r = true <-> Matches r "".
Proof.
  induction r as [| |p|a IHa b IHb|a IHa b IHb|a IHa]; simpl.
  - split; [discriminate|]. intros H; inversion H.
  - split; [constructor|reflexivity].
  - split; [discriminate|]. intros H; inversion H.
  - rewrite andb_true_iff, IHa, IHb. split.
    + intros [Ha Hb]. change "" with ("" ++ ""). now constructor.
    + intros H. inversion H as [| |a' b' u v Hu Hv| | | |]; subst.
      match goal with E : _ ++ _ = "" |- _ =>
        destruct (append_is_empty _ _ E) as [-> ->] end. auto.
  - rewrite orb_true_iff, IHa, IHb. split.
    + intros [H|H]; [now apply MAltL|now apply MAltR].
    + intros H. inversion H; subst; auto.
  - split; [constructor|reflexivity].
Qed.

Lemma deriv_sound (c : ascii) (r : regex) :
  forall w, Matches (deriv c r) w -> Matches r (String c w).
Proof.
  induction r as [| |p|a IHa b IHb|a IHa b IHb|a IHa]; simpl; intros w H.
  - inversion H.
  - inversion H.
  - destruct (p c) eqn:Hp; inversion H; subst. now constructor.
  - destruct (nullable a) eqn:Hn.
    + inversion H as [| | |a' b' u Hu|a' b' u Hu| |]; subst.
      * inversion Hu as [| |a' b' u' v Hu' Hv| | | |]; subst.
        change (String c (u' ++ v)) with (String c u' ++ v).
        constructor; auto.
      * change (String c w) with ("" ++ String c w).
        constructor; [now apply nullable_Matches|auto].
    + inversion H as [| |a' b' u' v Hu' Hv| | | |]; subst.
      change (String c (u' ++ v)) with (String c u' ++ v).
      constructor; auto.
  - inversion H; subst; [apply MAltL|apply MAltR]; auto.
  - inversion H as [| |a' b' u' v Hu' Hv| | | |]; subst.
    change (String c (u' ++ v)) with (String c u' ++ v).
    constructor; auto.
Qed.

Lemma deriv_complete (r : regex) (s : string) :
  Matches r s -> forall c w, s = String c w -> Matches (deriv c r) w.
Proof.
  induction 1 as [|p c0 Hp|a b u v Hu IHu Hv IHv|a b u Hu IHu|a b u Hu IHu
                 |a|a u v Hu IHu Hv IHv]; intros c w E; simpl.
  - discriminate.
  - injection E as -> <-. rewrite Hp. constructor.
  - destruct u as [|c' u']; simpl in E.
    + subst v. apply nullable_Matches in Hu. rewrite Hu.
      apply MAltR. now apply IHv.
    + injection E as -> <-.
      destruct (nullable a); [apply MAltL|]; constructor; auto.
  - apply MAltL; auto.
  - apply MAltR; auto.
  - discriminate.
  - destruct u as [|c' u']; simpl in E.
    + now apply IHv.
    + injection E as -> <-. constructor; auto.
Qed.

Lemma run_Matches (s : string) : forall r, run r s = true <-> Matches r s.
Proof.
  induction s as [|c s IH]; intros r; simpl.
  - apply nullable_Matches.
  - rewrite IH. split.
    + apply deriv_sound.
    + intros H. now apply (deriv_complete r _ H).
Qed.

(** *** The languages of the two building blocks of the lineage pattern *)

Lemma star_class_units (p : ascii -> bool) (s : string) :
  Matches (Star (Class p)) s <-> eachUnit p s.
Proof.
  split.
  - intros H. remember (Star (Class p)) as r eqn:Er.
    induction H as [| | | | | |a u v Hu _ Hv IHv]; try discriminate.
    + exact I.
    + injection Er as ->. inversion Hu; subst. simpl. auto.
  - induction s as [|c s IH]; simpl.
    + constructor.
    + intros [Hc Hs]. change (String c s) with (String c "" ++ s).
      constructor; [now constructor|auto].
Qed.

Lemma plus_digit_group (g : string) :
  Matches (Plus (Class digit)) g <-> DigitGroup g.
Proof.
  unfold Plus, DigitGroup. split.
  - intros H. inversion H as [| |a b u v Hu Hv| | | |]; subst.
    inversion Hu; subst. apply star_class_units in Hv.
    split; [discriminate|simpl; auto].
  - intros [Hne Hd]. destruct g as [|c g]; [contradiction|].
    destruct Hd as [Hc Hg].
    change (String c g) with (String c "" ++ g).
    constructor; [now constructor|now apply star_class_units].
Qed.

Lemma groups_language (s : string) :
  Matches (Star (Seq (Class dot) (Plus (Class digit)))) s <->
  exists groups, Forall DigitGroup groups /\ s = dotted groups.
Proof.
  split.
  - intros H. remember (Star (Seq (Class dot) (Plus (Class digit)))) as r eqn:Er.
    induction H as [| | | | | |a u v Hu _ Hv IHv]; try discriminate.
    + exists []. split; [constructor|reflexivity].
    + injection Er as ->. destruct (IHv eq_refl) as (gs & Hgs & ->).
      inversion Hu as [| |a b d g Hd Hg| | | |]; subst.
      inversion Hd as [|p c Hc| | | | |]; subst.
      unfold dot in Hc. apply Ascii.eqb_eq in Hc. subst c.
      exists (g :: gs). split.
      * constructor; [now apply plus_digit_group|assumption].
      * reflexivity.
  - intros (gs & Hgs & ->). induction Hgs as [|g gs Hg _ IH]; simpl.
    + constructor.
    + change (String "." (g ++ dotted gs)) with (String "." "" ++ (g ++ dotted gs)).
      rewrite <- append_assoc'. constructor; [|exact IH].
      constructor; [constructor; reflexivity|now apply plus_digit_group].
Qed.

Lemma pango_language (name : string) :
  Matches pangoPattern name <-> LineageLike name.
Proof.
  unfold pangoPattern, LineageLike. split.
  - intros H. inversion H as [| |a b u v Hu Hv| | | |]; subst.
    inversion Hu as [|p c Hc| | | | |]; subst.
    apply groups_language in Hv. destruct Hv as (gs & Hgs & ->).
    exists c, gs. auto.
  - intros (c & gs & Hc & Hgs & ->).
    change (String c (dotted gs)) with (String c "" ++ dotted gs).
    constructor; [now constructor|].
    apply groups_language. eauto.
Qed.

End MatcherCorrect.

(** A name that starts with two letters is never lineage-like. *)
Lemma two_letters_not_LineageLike (a b : ascii) (rest : string) :
  Re.letter b = true -> ~ LineageLike (String a (String b rest)).
Proof.
  intros Hb (c & gs & _ & Hgs & E). injection E as _ E.
  destruct gs as [|g gs]; simpl in E; [discriminate|].
  injection E as -> _. discriminate.
Qed.

(** C8. [isPangoLineage name] is true exactly when [name] is one letter
    followed by zero or more groups of a dot and at least one digit; it
    is false on the empty name, on every name that starts with two
    letters, and in particular on "AY.4" and "XBB.1.5", which the name
    parser nevertheless splits into segments with a parent. *)
Theorem isPangoLineage_iff_pattern :
  (forall name, isPangoLineage name = true <-> LineageLike name)
  /\ isPangoLineage "" = false
  /\ (forall a b rest, Re.letter b = true ->
        isPangoLineage (String a (String b rest)) = false)
  /\ isPangoLineage "AY.4" = false
  /\ isPangoLineage "XBB.1.5" = false
  /\ parseLineageName "AY.4" = mkParsed ["AY"; "4"] (Some "AY")
  /\ parseLineageName "XBB.1.5" = mkParsed ["XBB"; "1"; "5"] (Some "XBB.1").
Proof.
  assert (Hiff : forall name, isPangoLineage name = true <-> LineageLike name).
  { intros name. unfold isPangoLineage. destruct name as [|c s].
    - simpl. split; [discriminate|].
      intros (c & gs & _ & _ & E). discriminate.
    - change (negb (Js.truthy (String c s))) with false. cbv iota.
      rewrite run_Matches. apply pango_language. }
  split; [exact Hiff|]. split; [reflexivity|]. split.
  - intros a b rest Hb.
    destruct (isPangoLineage (String a (String b rest))) eqn:E; [|reflexivity].
    apply Hiff in E. now apply two_letters_not_LineageLike in E.
  - repeat split; reflexivity.
Qed.

Lemma isPangoLineage_iff_pattern_witness :
  Re.letter "Y" = true /\ isPangoLineage "AY.4" = false.
Proof.
  split; [reflexivity|].
  apply (proj1 (proj2 (proj2 isPangoLineage_iff_pattern)) "A"%char "Y"%char ".4").
  reflexivity.
Defined.

(** ** Relationship oracle *)

Lemma startsWith_length (p : string) :
  forall s, Js.startsWith s p = true -> (String.length p <= String.length s)%nat.
Proof.
  induction p as [|a p IH]; intros [|b s]; simpl; intros H; try lia; try discriminate.
  apply andb_prop in H. destruct H as [_ H]. apply IH in H. lia.
Qed.

Lemma startsWith_dot_longer (a b : string) :
  Js.startsWith a (b ++ ".") = true -> (String.length b < String.length a)%nat.
Proof.
  intros H. apply startsWith_length in H.
  rewrite append_length' in H. simpl in H. lia.
Qed.

(** C7. The relationship test is inverse-symmetric: "self" and
    "unrelated" both ways round, and the first name is reported as a
    child of the second exactly when the second is reported as a parent
    of the first. *)
Theorem checkLineageRelationship_symmetry (a b : string) :
  (checkLineageRelationship a b = Some RelSelf <->
   checkLineageRelationship b a = Some RelSelf)
  /\ (checkLineageRelationship a b = Some RelChild <->
      checkLineageRelationship b a = Some RelParent)
  /\ (checkLineageRelationship a b = Some RelParent <->
      checkLineageRelationship b a = Some RelChild)
  /\ (checkLineageRelationship a b = None <->
      checkLineageRelationship b a = None).
Proof.
  unfold checkLineageRelationship.
  rewrite (String.eqb_sym b a).
  destruct (Js.truthy a), (Js.truthy b); simpl;
    try (repeat split; intros; congruence).
  destruct (String.eqb a b) eqn:Eab.
  - repeat split; intros; congruence.
  - destruct (Js.startsWith a (b ++ ".")) eqn:Hab;
    destruct (Js.startsWith b (a ++ ".")) eqn:Hba;
      try (repeat split; intros; congruence).
    apply startsWith_dot_longer in Hab.
    apply startsWith_dot_longer in Hba. lia.
Qed.

Example relate_AY_AY42 :
  checkLineageRelationship "AY" "AY.4.2" = Some RelParent
  /\ checkLineageRelationship "AY.4.2" "AY" = Some RelChild.
Proof. split; reflexivity. Qed.

(** ** Generic facts about the loops *)

Lemma Node_ind' (P : Node.t -> Prop) :
  (forall n, Forall P (Node.children n) -> P n) -> forall n, P n.
Proof.
  intros step. fix IH 1. intros n. apply step.
  destruct n as [? ? ? ? ? ? kids ? ? ? ?]. simpl.
  induction kids as [|k kids IHk]; constructor; [apply IH|exact IHk].
Qed.

Lemma everyNode_unfold (P : Node.t -> Prop) (n : Node.t) :
  everyNode P n <-> P n /\ Forall (everyNode P) (Node.children n).
Proof.
  destruct n as [? ? ? ? ? ? kids ? ? ? ?]. simpl.
  apply and_iff_compat_l.
  induction kids as [|k kids IH]; simpl.
  - split; constructor.
  - rewrite IH. split.
    + intros [? ?]. now constructor.
    + intros H. inversion H; subst. auto.
Qed.

Lemma foldM_invariant {S A} (f : S -> A -> outcome S) (I : S -> Prop) :
  (forall s a s', I s -> f s a = Returns s' -> I s') ->
  forall l s s', I s -> foldM f l s = Returns s' -> I s'.
Proof.
  intros step. induction l as [|a l IH]; simpl; intros s s' Hs E.
  - injection E as <-. exact Hs.
  - destruct (f s a) as [s1| |] eqn:Ef; simpl in E; try discriminate.
    eapply IH; [|exact E]. eapply step; eauto.
Qed.

Lemma foldM_app {S A} (f : S -> A -> outcome S) (l1 l2 : list A) (s : S) :
  foldM f (l1 ++ l2)%list s = (s' <- foldM f l1 s ;; foldM f l2 s').
Proof.
  revert s. induction l1 as [|a l1 IH]; simpl; intros s; [reflexivity|].
  destruct (f s a); simpl; auto.
Qed.

Lemma mapM_Forall2 {A B} (f : A -> outcome B) (l : list A) (ys : list B) :
  mapM f l = Returns ys -> Forall2 (fun x y => f x = Returns y) l ys.
Proof.
  revert ys. induction l as [|x l IH]; simpl; intros ys E.
  - injection E as <-. constructor.
  - destruct (f x) as [y| |] eqn:Ef; simpl in E; try discriminate.
    destruct (mapM f l) as [ys'| |]; simpl in E; try discriminate.
    injection E as <-. constructor; auto.
Qed.

(** ** Store invariant: every object starts with [count = originalCount] *)

Lemma ownProperty_In (m : Store) (k : string) (c : Cell.t) :
  ownProperty m k = Some c -> exists k', In (k', c) m /\ String.eqb k' k = true.
Proof.
  unfold ownProperty. destruct (find _ m) as [[k' c']|] eqn:E; simpl; [|discriminate].
  intros [= <-]. apply find_some in E. destruct E as [Hin Heq]. eauto.
Qed.

Lemma balanced_own (m : Store) (k : string) (c : Cell.t) :
  balanced m -> ownProperty m k = Some c -> balancedCell c.
Proof.
  intros Hb Ho. destruct (ownProperty_In m k c Ho) as (k' & Hin & _).
  unfold balanced in Hb. rewrite Forall_forall in Hb. exact (Hb _ Hin).
Qed.

Lemma balanced_snoc (m : Store) (k : string) (c : Cell.t) :
  balanced m -> balancedCell c -> balanced (m ++ [(k, c)])%list.
Proof.
  intros Hm Hc. apply Forall_app. split; [exact Hm|].
  constructor; [exact Hc|constructor].
Qed.

Lemma balanced_update (m : Store) (k : string) (f : Cell.t -> Cell.t) :
  (forall c, balancedCell c -> balancedCell (f c)) ->
  balanced m -> balanced (update m k f).
Proof.
  intros Hf Hm. unfold balanced, update. rewrite Forall_map.
  eapply Forall_impl; [|exact Hm]. intros [k' c] Hc. simpl in *.
  destruct (String.eqb k' k); simpl; auto.
Qed.

Lemma ensureParent_balanced (m : Store) (p : string) (m' : Store) :
  balanced m -> ensureParent m p = Returns m' -> balanced m'.
Proof.
  unfold ensureParent. intros Hm.
  destruct (getProperty m p); try (intros [= <-]; exact Hm).
  destruct (Color.generatePangoLineageColor p None); simpl; try discriminate.
  intros [= <-]. apply balanced_snoc; [exact Hm|reflexivity].
Qed.

Lemma addLineage_balanced (nt : NodeTypes) (m : Store) (e : Lineage.t) (m' : Store) :
  balanced m -> addLineage nt m e = Returns m' -> balanced m'.
Proof.
  unfold addLineage. intros Hm.
  destruct (negb (Js.truthy (Lineage.value e))); [intros [= <-]; exact Hm|].
  apply (foldM_invariant ensureParent balanced ensureParent_balanced).
  destruct (getProperty m (Lineage.value e)); try exact Hm.
  apply balanced_snoc; [exact Hm|reflexivity].
Qed.

Lemma link_balanced (st : Store * list string) (c : Cell.t) (st' : Store * list string) :
  balanced (fst st) -> link st c = Returns st' -> balanced (fst st').
Proof.
  destruct st as [m roots]. unfold link. simpl fst. intros Hm.
  destruct (parent (parseLineageName (Cell.name c))) as [p|];
    [|intros [= <-]; exact Hm].
  destruct (negb (Js.truthy p)); [intros [= <-]; exact Hm|].
  destruct (getProperty m p); try discriminate; intros [= <-]; simpl; try exact Hm.
  apply balanced_update; [intros c' Hc'; exact Hc'|].
  apply balanced_update; [intros c' Hc'; exact Hc'|exact Hm].
Qed.

(** ** Reading the trees out of the store *)

Lemma readNode_fresh (m : Store) :
  balanced m ->
  forall fuel ref n, readNode fuel m ref = Returns n -> everyNode fresh n.
Proof.
  intros Hm. induction fuel as [|fuel IH]; simpl; intros ref n E; [discriminate|].
  destruct (ownProperty m ref) as [c|] eqn:Ho; [|discriminate].
  destruct (mapM (readNode fuel m) (Cell.children c)) as [kids| |] eqn:Ek;
    simpl in E; try discriminate.
  injection E as <-. apply everyNode_unfold. simpl. split.
  - split; [exact (balanced_own m ref c Hm Ho)|reflexivity].
  - apply mapM_Forall2 in Ek. clear Ho.
    induction Ek as [|x y xs ys Hxy _ IHk]; constructor; eauto.
Qed.

(** ** The bottom-up pass *)

Lemma accumulateChildCounts_unfold (node : Node.t) :
  accumulateChildCounts node =
  match Node.children node with
  | [] =>
      (node, mkCounts (Node.originalCount node) (Node.sampleCount node)
               (Node.internalCount node))
  | kids =>
      let '(kids', (totalChildrenCount, totalSampleCount, totalInternalCount)) :=
        accumulateChildren kids (0, Node.sampleCount node, Node.internalCount node) in
      let count := Node.originalCount node + totalChildrenCount in
      (Node.mk (Node.name node) count (Node.originalCount node)
         totalSampleCount totalInternalCount (Node.color node) kids'
         (Node.isExpanded node) (Node.level node) (Node.parent node)
         (Some (totalSampleCount + totalInternalCount)),
       mkCounts count totalSampleCount totalInternalCount)
  end.
Proof.
  destruct node as [? ? ? ? ? ? kids ? ? ? ?]. destruct kids; reflexivity.
Qed.


Lemma accumulateChildren_ok (kids : list Node.t) :
  Forall accumulatedOk kids ->
  Forall (everyNode fresh) kids ->
  forall t s i,
    let '(kids', (t', _, _)) := accumulateChildren kids (t, s, i) in
    Forall (everyNode aggregated) kids' /\ t' = t + sumCounts kids'.
Proof.
  induction kids as [|k kids IH]; intros Hok Hfr t s i; simpl.
  - split; [constructor|lia].
  - inversion Hok as [|? ? Hk Hks]; subst. inversion Hfr as [|? ? Fk Fks]; subst.
    destruct (Hk Fk) as [Hagg Htot].
    destruct (accumulateChildCounts k) as [k' ck]. simpl in Hagg, Htot.
    specialize (IH Hks Fks (t + totalCount' ck) (s + sampleCount' ck)
                  (i + internalCount' ck)).
    destruct (accumulateChildren kids _) as [rest' [[t' s'] i']].
    destruct IH as [IH1 IH2]. split.
    + constructor; assumption.
    + simpl. lia.
Qed.

Lemma accumulateChildCounts_ok (node : Node.t) : accumulatedOk node.
Proof.
  induction node as [node IH] using Node_ind'.
  unfold accumulatedOk. intros Hfr.
  rewrite accumulateChildCounts_unfold.
  apply everyNode_unfold in Hfr. destruct Hfr as [[Hc _] Hkids].
  destruct (Node.children node) as [|k kids] eqn:Ek.
  - cbn [fst snd]. split; [|symmetry; exact Hc].
    apply everyNode_unfold. rewrite Ek. split; [|constructor].
    unfold aggregated. rewrite Ek. simpl. lia.
  - pose proof (accumulateChildren_ok (k :: kids) IH Hkids 0
                  (Node.sampleCount node) (Node.internalCount node)) as Hl.
    destruct (accumulateChildren (k :: kids) _) as [kids' [[t' s'] i']].
    destruct Hl as [Hagg Ht]. cbn [fst snd]. split; [|reflexivity].
    apply everyNode_unfold. split; [|exact Hagg].
    unfold aggregated. simpl. lia.
Qed.

Lemma accumulateChildren_closed (kids : list Node.t) :
  forall a b c,
    accumulateChildren kids (a, b, c)
    = (map accNode kids,
       (a + accSum totalCount' kids, b + accSum sampleCount' kids,
        c + accSum internalCount' kids)).
Proof.
  induction kids as [|k kids IH]; intros a b c.
  - simpl. now rewrite !Z.add_0_r.
  - cbn [accumulateChildren map]. unfold accSum. cbn [fold_right].
    fold (accSum totalCount' kids) (accSum sampleCount' kids)
         (accSum internalCount' kids).
    unfold accNode at 1.
    destruct (accumulateChildCounts k) as [k' ck]. cbn [fst snd].
    rewrite IH. f_equal. f_equal; [f_equal|]; lia.
Qed.

(** ** Sorting *)

Lemma insertNode_perm (x : Node.t) (l : list Node.t) :
  Permutation (insertNode x l) (x :: l).
Proof.
  induction l as [|y l IH]; simpl; [reflexivity|].
  destruct (sortByCount x y <=? 0); [reflexivity|].
  rewrite IH. apply perm_swap.
Qed.

Lemma sortNodes_perm (l : list Node.t) : Permutation (sortNodes l) l.
Proof.
  induction l as [|x l IH]; simpl; [reflexivity|].
  rewrite insertNode_perm. now constructor.
Qed.

Lemma sumCounts_perm (l l' : list Node.t) :
  Permutation l l' -> sumCounts l = sumCounts l'.
Proof.
  induction 1; simpl; lia.
Qed.

Lemma sortChildren_count (n : Node.t) :
  Node.count (sortChildren n) = Node.count n.
Proof. destruct n; reflexivity. Qed.

Lemma sumCounts_sortChildren (l : list Node.t) :
  sumCounts (map sortChildren l) = sumCounts l.
Proof.
  induction l as [|x l IH]; simpl; [reflexivity|].
  rewrite sortChildren_count, IH. reflexivity.
Qed.

Lemma sortChildren_children (n : Node.t) :
  Node.children (sortChildren n) = sortNodes (map sortChildren (Node.children n)).
Proof. destruct n; reflexivity. Qed.

Lemma sortChildren_aggregated (n : Node.t) :
  everyNode aggregated n -> everyNode aggregated (sortChildren n).
Proof.
  induction n as [n IH] using Node_ind'. intros H.
  apply everyNode_unfold in H. destruct H as [Hn Hkids].
  apply everyNode_unfold. split.
  - unfold aggregated in *. rewrite sortChildren_children.
    rewrite (sumCounts_perm _ _ (sortNodes_perm _)), sumCounts_sortChildren.
    destruct n; exact Hn.
  - rewrite sortChildren_children.
    eapply Permutation_Forall; [symmetry; apply sortNodes_perm|].
    rewrite Forall_map. rewrite Forall_forall in *.
    intros k Hk. apply (IH k Hk). apply (Hkids k Hk).
Qed.

(** Sorting an array and then descending into its elements, as the
    source does, is descending first and sorting the results. *)
Lemma insertNode_map (x : Node.t) (l : list Node.t) :
  insertNode (sortChildren x) (map sortChildren l)
  = map sortChildren (insertNode x l).
Proof.
  induction l as [|y l IH]; simpl; [reflexivity|].
  unfold sortByCount. rewrite !sortChildren_count.
  destruct (Node.count y - Node.count x <=? 0); simpl; [reflexivity|].
  now rewrite IH.
Qed.

Lemma sort_then_descend (l : list Node.t) :
  sortNodes (map sortChildren l) = map sortChildren (sortNodes l).
Proof.
  induction l as [|x l IH]; simpl; [reflexivity|].
  rewrite IH. apply insertNode_map.
Qed.

(** ** The aggregation invariant *)

(** C1. In every forest the builder returns for entries whose counts
    add up to at most 2^53 in magnitude (the range in which the sums of
    the code are exact), every node, synthesized ancestors included,
    has a total count equal to its own count plus the total counts of
    its children. *)
Theorem organizeLineageHierarchy_aggregation
  (lineages : list Lineage.t) (nodeTypes : NodeTypes) (forest : list Node.t) :
  countsBounded lineages ->
  organizeLineageHierarchy lineages nodeTypes = Returns forest ->
  Forall (everyNode aggregated) forest.
Proof.
  intros _. unfold organizeLineageHierarchy.
  destruct lineages as [|e0 rest]; [intros [= <-]; constructor|].
  set (ls := e0 :: rest).
  destruct (foldM (addLineage nodeTypes) ls []) as [m1| |] eqn:E1; cbn [bind];
    try discriminate.
  assert (B1 : balanced m1).
  { eapply (foldM_invariant (addLineage nodeTypes) balanced); [|constructor|exact E1].
    intros s a s'. apply addLineage_balanced. }
  destruct (foldM link (objectValues m1) (m1, [])) as [[m2 roots]| |] eqn:E2; cbn [bind];
    try discriminate.
  assert (B2 : balanced m2).
  { change m2 with (fst (m2, roots)).
    apply (foldM_invariant link (fun st => balanced (fst st)) link_balanced
             _ (m1, []) (m2, roots) B1 E2). }
  destruct (mapM (readNode (budget m2) m2) roots) as [trees| |] eqn:E3;
    cbn [bind]; try discriminate.
  intros E. injection E as <-.
  rewrite Forall_map.
  eapply Permutation_Forall; [symmetry; apply sortNodes_perm|].
  rewrite Forall_map.
  apply mapM_Forall2 in E3. clear E2.
  induction E3 as [|r t rs ts Hrt _ IH]; [constructor|].
  constructor; [|exact IH].
  apply sortChildren_aggregated.
  apply accumulateChildCounts_ok.
  exact (readNode_fresh m2 B2 _ _ _ Hrt).
Qed.

Lemma organizeLineageHierarchy_aggregation_witness :
  Forall (everyNode aggregated)
    [Node.mk "AY" 7 0 7 0 (240, 100, 60)%float
       [Node.mk "AY.4" 7 7 7 0 (1, 2, 3)%float [] false 1 (Some "AY") None]
       false 0 None (Some 7)].
Proof.
  apply (organizeLineageHierarchy_aggregation
           [Lineage.mk "AY.4" 7 (1, 2, 3)%float] None).
  - unfold countsBounded, exactBound. cbn. lia.
  - vm_compute. reflexivity.
Defined.

(** ** [totalTaxa] in every returned forest *)

Lemma accNode_taxa (n : Node.t) :
  everyNode fresh n -> everyNode taxaAsCoded (accNode n).
Proof.
  induction n as [n IH] using Node_ind'. intros Hfr.
  apply everyNode_unfold in Hfr. destruct Hfr as [[_ Htaxa] Hkids].
  unfold accNode. rewrite accumulateChildCounts_unfold.
  destruct (Node.children n) as [|k ks] eqn:Ek.
  - cbn [fst]. apply everyNode_unfold. rewrite Ek. split; [|constructor].
    unfold taxaAsCoded. now rewrite Ek.
  - rewrite accumulateChildren_closed. cbn [fst].
    apply everyNode_unfold. cbn [Node.children]. split; [reflexivity|].
    rewrite Forall_map. rewrite Forall_forall in *.
    intros x Hx. apply (IH x Hx). now apply Hkids.
Qed.

Lemma sortNodes_nil_iff (l : list Node.t) : sortNodes l = [] <-> l = [].
Proof.
  split; intros H.
  - pose proof (sortNodes_perm l) as Hp. rewrite H in Hp.
    now apply Permutation_nil in Hp.
  - now subst.
Qed.

Lemma sortChildren_taxa (n : Node.t) :
  everyNode taxaAsCoded n -> everyNode taxaAsCoded (sortChildren n).
Proof.
  induction n as [n IH] using Node_ind'. intros H.
  apply everyNode_unfold in H. destruct H as [Hn Hkids].
  apply everyNode_unfold. rewrite sortChildren_children. split.
  - unfold taxaAsCoded in *. rewrite sortChildren_children.
    destruct (sortNodes (map sortChildren (Node.children n))) as [|x xs] eqn:Es.
    + apply (proj1 (sortNodes_nil_iff _)) in Es. apply map_eq_nil in Es.
      rewrite Es in Hn. destruct n; exact Hn.
    + destruct (Node.children n) as [|k ks] eqn:Ek; [discriminate Es|].
      destruct n; exact Hn.
  - eapply Permutation_Forall; [symmetry; apply sortNodes_perm|].
    rewrite Forall_map. rewrite Forall_forall in *.
    intros k Hk. apply (IH k Hk). apply (Hkids k Hk).
Qed.

(** In every returned forest [totalTaxa] is the sum of the aggregated
    sample and internal counts on the nodes that have children, and is
    undefined on every node that has none. *)
Lemma organizeLineageHierarchy_totalTaxa
  (lineages : list Lineage.t) (nodeTypes : NodeTypes) (forest : list Node.t) :
  organizeLineageHierarchy lineages nodeTypes = Returns forest ->
  Forall (everyNode taxaAsCoded) forest.
Proof.
  unfold organizeLineageHierarchy.
  destruct lineages as [|e0 rest]; [intros [= <-]; constructor|].
  set (ls := e0 :: rest).
  destruct (foldM (addLineage nodeTypes) ls []) as [m1| |] eqn:E1; cbn [bind];
    try discriminate.
  assert (B1 : balanced m1).
  { eapply (foldM_invariant (addLineage nodeTypes) balanced); [|constructor|exact E1].
    intros s a s'. apply addLineage_balanced. }
  destruct (foldM link (objectValues m1) (m1, [])) as [[m2 roots]| |] eqn:E2; cbn [bind];
    try discriminate.
  assert (B2 : balanced m2).
  { apply (foldM_invariant link (fun st => balanced (fst st)) link_balanced
             _ (m1, []) (m2, roots) B1 E2). }
  destruct (mapM (readNode (budget m2) m2) roots) as [trees| |] eqn:E3;
    cbn [bind]; try discriminate.
  intros E. injection E as <-.
  rewrite Forall_map.
  eapply Permutation_Forall; [symmetry; apply sortNodes_perm|].
  rewrite Forall_map.
  apply mapM_Forall2 in E3. clear E2.
  induction E3 as [|r t rs ts Hrt _ IH]; [constructor|].
  constructor; [|exact IH].
  apply sortChildren_taxa. apply accNode_taxa.
  exact (readNode_fresh m2 B2 _ _ _ Hrt).
Qed.

(** C6, evaluated. A node without children leaves the builder with
    [totalTaxa] undefined: the single observation B (5) gives a forest
    whose only node has no [totalTaxa], and in the chain B, B.1, B.1.1
    the innermost node has none either while its ancestors have one. *)
Theorem leaf_totalTaxa_undefined (c : RGB) :
  organizeLineageHierarchy [Lineage.mk "B" 5 c] None
  = Returns [Node.mk "B" 5 5 5 0 c [] false 0 None None]
  /\ map Node.totalTaxa [Node.mk "B" 5 5 5 0 c [] false 0 None None] = [None].
Proof. split; vm_compute; reflexivity. Qed.

(** ** A parent name is strictly shorter than the name *)

Lemma join_split (s : string) : Js.join "." (Js.split "." s) = s.
Proof.
  induction s as [|a s IH]; simpl; [reflexivity|].
  destruct (Ascii.eqb_spec a ".") as [->|Hne].
  - destruct (Js.split "." s) as [|h t] eqn:E; [now apply split_not_nil in E|].
    change (Js.join "." ("" :: h :: t)) with ("" ++ "." ++ Js.join "." (h :: t)).
    rewrite IH. reflexivity.
  - destruct (Js.split "." s) as [|h t] eqn:E; [now apply split_not_nil in E|].
    destruct t as [|h' t].
    + simpl in *. now subst.
    + rewrite join_cons2 in *.
      change (String a h ++ "." ++ Js.join "." (h' :: t))
        with (String a (h ++ "." ++ Js.join "." (h' :: t))).
      now rewrite IH.
Qed.

Lemma join_firstn_shorter (l : list string) :
  (1 < List.length l)%nat ->
  (String.length (Js.join "." (firstn (List.length l - 1) l))
   < String.length (Js.join "." l))%nat.
Proof.
  induction l as [|x l IH]; simpl List.length; [lia|]. intros H.
  destruct l as [|y l]; [simpl in H; lia|].
  replace (S (List.length (y :: l)) - 1)%nat with (S (List.length l))
    by (simpl; lia).
  rewrite join_cons2, !append_length'.
  destruct l as [|z l].
  - simpl. lia.
  - change (firstn (S (List.length (z :: l))) (x :: y :: z :: l))
      with (x :: firstn (List.length (z :: l)) (y :: z :: l)).
    change (firstn (List.length (z :: l)) (y :: z :: l))
      with (y :: firstn (List.length l) (z :: l)).
    rewrite join_cons2, !append_length'.
    assert (IH' := IH ltac:(simpl; lia)).
    replace (List.length (y :: z :: l) - 1)%nat with (S (List.length l)) in IH'
      by (simpl; lia).
    change (firstn (S (List.length l)) (y :: z :: l))
      with (y :: firstn (List.length l) (z :: l)) in IH'.
    lia.
Qed.

Lemma parent_shorter (name p : string) :
  parent (parseLineageName name) = Some p ->
  (String.length p < String.length name)%nat.
Proof.
  destruct name as [|a s]; [discriminate|].
  rewrite (parseLineageName_plain (String a s)) by discriminate. unfold plainParse. cbn [parent]. set (ps := Js.split "." (String a s)).
  destruct (Z.ltb_spec 1 (Js.alen ps)) as [H|H]; [|discriminate].
  intros [= <-]. unfold Js.alen, Js.slice0 in *.
  replace (Z.to_nat (Z.of_nat (List.length ps) - 1)) with (List.length ps - 1)%nat by lia.
  rewrite <- (join_split (String a s)) at 1. fold ps.
  apply join_firstn_shorter. lia.
Qed.

(** ** The builder is never stuck *)

Lemma baseColorOf_not_stuck (r : string) : Color.baseColorOf r <> Stuck.
Proof.
  unfold Color.baseColorOf.
  destruct (Color.baseColors r); [discriminate|].
  destruct (Color.isPrototypeKey r); [discriminate|].
  destruct (String.eqb r "BA"); [discriminate|].
  destruct (1 <? Js.len r); [|discriminate].
  destruct (Color.baseColors (Js.take 1 r)); [|discriminate].
  destruct (Color.rgbToHsl r0) as [[h s] l]. discriminate.
Qed.

Lemma generatePangoLineageColor_not_stuck (n : string) (ld : option LineageData) :
  Color.generatePangoLineageColor n ld <> Stuck.
Proof.
  unfold Color.generatePangoLineageColor.
  destruct (negb (Js.truthy n)); [discriminate|].
  destruct (_ && _); [discriminate|].
  destruct (extractLineageRoot n) as [[root|] nps]; [|discriminate].
  pose proof (baseColorOf_not_stuck root) as H.
  destruct (Color.baseColorOf root); cbn [bind]; try congruence.
  destruct (Js.alen nps =? 1); discriminate.
Qed.

Lemma foldM_not_stuck {S A} (f : S -> A -> outcome S) :
  (forall s a, f s a <> Stuck) -> forall l s, foldM f l s <> Stuck.
Proof.
  intros Hf. induction l as [|a l IH]; simpl; intros s; [discriminate|].
  specialize (Hf s a). destruct (f s a); cbn [bind]; auto.
Qed.

Lemma ensureParent_not_stuck (m : Store) (p : string) : ensureParent m p <> Stuck.
Proof.
  unfold ensureParent. destruct (getProperty m p); try discriminate.
  pose proof (generatePangoLineageColor_not_stuck p None) as H.
  destruct (Color.generatePangoLineageColor p None); cbn [bind]; congruence.
Qed.

Lemma addLineage_not_stuck (nt : NodeTypes) (m : Store) (e : Lineage.t) :
  addLineage nt m e <> Stuck.
Proof.
  unfold addLineage. destruct (negb _); [discriminate|].
  apply foldM_not_stuck. apply ensureParent_not_stuck.
Qed.

Lemma link_not_stuck (st : Store * list string) (c : Cell.t) : link st c <> Stuck.
Proof.
  destruct st as [m roots]. unfold link.
  destruct (parent _) as [p|]; [|discriminate].
  destruct (negb _); [discriminate|].
  destruct (getProperty m p); discriminate.
Qed.

(** *** Stores *)

Lemma update_keys (m : Store) (k : string) (f : Cell.t -> Cell.t) :
  map fst (update m k f) = map fst m.
Proof.
  unfold update. rewrite map_map. apply map_ext.
  intros [k' c]. simpl. destruct (String.eqb k' k); reflexivity.
Qed.

Lemma update_In (m : Store) (k0 : string) (f : Cell.t -> Cell.t) (k : string) (c' : Cell.t) :
  In (k, c') (update m k0 f) ->
  exists c, In (k, c) m /\ (c' = c \/ (k = k0 /\ c' = f c)).
Proof.
  unfold update. rewrite in_map_iff. intros ([k1 c1] & E & Hin). simpl in E.
  destruct (String.eqb_spec k1 k0) as [->|Hne]; injection E as <- <-; eauto.
Qed.

Lemma hasKey_own (m : Store) (k : string) :
  hasKey m k -> exists c, ownProperty m k = Some c /\ In (k, c) m.
Proof.
  unfold hasKey, ownProperty. induction m as [|[k1 c1] m IH]; simpl; [contradiction|].
  destruct (String.eqb_spec k1 k) as [->|Hne].
  - intros _. exists c1. simpl. auto.
  - intros [E|H]; [contradiction|]. destruct (IH H) as (c & Ho & Hin). eauto.
Qed.

Lemma own_hasKey (m : Store) (k : string) (c : Cell.t) :
  ownProperty m k = Some c -> In (k, c) m.
Proof.
  intros H. destruct (ownProperty_In m k c H) as (k' & Hin & E).
  apply String.eqb_eq in E. now subst.
Qed.

Lemma In_hasKey (m : Store) (k : string) (c : Cell.t) :
  In (k, c) m -> hasKey m k.
Proof. intros H. unfold hasKey. change k with (fst (k, c)). now apply in_map. Qed.

Lemma key_length_le (m : Store) (k : string) :
  hasKey m k -> (String.length k <= longestKey m)%nat.
Proof.
  unfold hasKey, longestKey. induction m as [|[k1 c1] m IH]; simpl; [contradiction|].
  intros [->|H]; [lia|]. specialize (IH H). lia.
Qed.

(** *** First pass *)

Lemma pristine_snoc (m : Store) (k : string) (c : Cell.t) :
  pristine m -> Cell.name c = k -> Cell.children c = [] -> Cell.parent c = None ->
  pristine (m ++ [(k, c)])%list.
Proof.
  intros Hm H1 H2 H3 k' c' Hin. apply in_app_or in Hin.
  destruct Hin as [Hin|[E|[]]]; [now apply Hm|]. injection E as <- <-. auto.
Qed.

Lemma ensureParent_pristine (m : Store) (p : string) (m' : Store) :
  pristine m -> ensureParent m p = Returns m' -> pristine m'.
Proof.
  unfold ensureParent. intros Hm.
  destruct (getProperty m p); try (intros [= <-]; exact Hm).
  destruct (Color.generatePangoLineageColor p None); cbn [bind]; try discriminate.
  intros [= <-]. now apply pristine_snoc.
Qed.

Lemma addLineage_pristine (nt : NodeTypes) (m : Store) (e : Lineage.t) (m' : Store) :
  pristine m -> addLineage nt m e = Returns m' -> pristine m'.
Proof.
  unfold addLineage. intros Hm.
  destruct (negb (Js.truthy (Lineage.value e))); [intros [= <-]; exact Hm|].
  apply (foldM_invariant ensureParent pristine ensureParent_pristine).
  destruct (getProperty m (Lineage.value e)); try exact Hm.
  now apply pristine_snoc.
Qed.

Lemma firstPass_pristine (nt : NodeTypes) (ls : list Lineage.t) (m : Store) :
  foldM (addLineage nt) ls [] = Returns m -> pristine m.
Proof.
  apply (foldM_invariant (addLineage nt) pristine (addLineage_pristine nt)).
  intros k c [].
Qed.

(** *** Second pass *)

Lemma insertByIndex_perm (x : string * Cell.t) (l : Store) :
  Permutation (insertByIndex x l) (x :: l).
Proof.
  induction l as [|y l IH]; simpl; [reflexivity|].
  destruct (indexOr0 x <=? indexOr0 y); [reflexivity|].
  rewrite IH. apply perm_swap.
Qed.

Lemma sortByIndex_perm (l : Store) :
  Permutation (fold_right insertByIndex [] l) l.
Proof.
  induction l as [|x l IH]; simpl; [reflexivity|].
  rewrite insertByIndex_perm. now constructor.
Qed.

Lemma filter_partition_perm {A} (f : A -> bool) (l : list A) :
  Permutation (filter f l ++ filter (fun x => negb (f x)) l)%list l.
Proof.
  induction l as [|x l IH]; simpl; [reflexivity|].
  destruct (f x); simpl.
  - now constructor.
  - rewrite <- Permutation_middle. now constructor.
Qed.

Lemma objectValues_perm (m : Store) :
  Permutation (objectValues m) (map snd m).
Proof.
  unfold objectValues. apply Permutation_map.
  rewrite sortByIndex_perm. apply filter_partition_perm.
Qed.

Lemma objectValues_In (m : Store) (c : Cell.t) :
  In c (objectValues m) -> exists k, In (k, c) m.
Proof.
  intros H. apply (Permutation_in _ (objectValues_perm m)) in H.
  apply in_map_iff in H. destruct H as ([k c'] & E & Hin). simpl in E. subst. eauto.
Qed.

Lemma foldM_invariant_in {S A} (f : S -> A -> outcome S) (I : S -> Prop) (l : list A) :
  (forall s a s', In a l -> I s -> f s a = Returns s' -> I s') ->
  forall s s', I s -> foldM f l s = Returns s' -> I s'.
Proof.
  induction l as [|a l IH]; simpl; intros step s s' Hs E.
  - injection E as <-. exact Hs.
  - destruct (f s a) as [s1| |] eqn:Ef; cbn [bind] in E; try discriminate.
    eapply IH; [| |exact E].
    + intros s2 a2 s2' Hin. apply step. now right.
    + eapply step; eauto.
Qed.

Lemma link_linkedOk (st : Store * list string) (c : Cell.t) (st' : Store * list string) :
  hasKey (fst st) (Cell.name c) ->
  linkedOk st -> link st c = Returns st' ->
  linkedOk st' /\ map fst (fst st') = map fst (fst st).
Proof.
  destruct st as [m roots]. unfold linkedOk, link. cbn [fst snd].
  intros Hk (Hn & Hc & Hr).
  assert (Hroot : (namesAreKeys m /\ childrenLonger m /\
                   forall r, In r (roots ++ [Cell.name c])%list -> hasKey m r)
                  /\ map fst m = map fst m).
  { split; [|reflexivity]. split; [exact Hn|]. split; [exact Hc|].
    intros r Hin. apply in_app_or in Hin.
    destruct Hin as [Hin|[<-|[]]]; auto. }
  destruct (parent (parseLineageName (Cell.name c))) as [p|] eqn:Ep;
    [|intros [= <-]; exact Hroot].
  destruct (negb (Js.truthy p)); [intros [= <-]; exact Hroot|].
  destruct (getProperty m p); try discriminate; [|intros [= <-]; exact Hroot].
  intros [= <-]. cbn [fst snd].
  set (f1 := fun c0 : Cell.t =>
              Cell.mk (Cell.name c0) (Cell.count c0) (Cell.originalCount c0)
                (Cell.sampleCount c0) (Cell.internalCount c0) (Cell.color c0)
                (Cell.children c0 ++ [Cell.name c])%list (Cell.isExpanded c0)
                (Cell.level c0) (Cell.parent c0)).
  set (f2 := fun c0 : Cell.t =>
              Cell.mk (Cell.name c0) (Cell.count c0) (Cell.originalCount c0)
                (Cell.sampleCount c0) (Cell.internalCount c0) (Cell.color c0)
                (Cell.children c0) (Cell.isExpanded c0) (Cell.level c0)
                (Some p)).
  assert (Hkeys : forall k, hasKey m k ->
            hasKey (update (update m p f1) (Cell.name c) f2) k).
  { intros k H. unfold hasKey. now rewrite !update_keys. }
  assert (Hback : forall k c2, In (k, c2) (update (update m p f1) (Cell.name c) f2) ->
            exists c0, In (k, c0) m /\ Cell.name c2 = Cell.name c0 /\
              forall ch, In ch (Cell.children c2) ->
                In ch (Cell.children c0) \/ (k = p /\ ch = Cell.name c)).
  { intros k c2 Hin.
    apply update_In in Hin. destruct Hin as (c1 & Hin & Hc2).
    apply update_In in Hin. destruct Hin as (c0 & Hin & Hc1).
    exists c0. split; [exact Hin|].
    destruct Hc2 as [->|[_ ->]]; destruct Hc1 as [->|[-> ->]];
      (split; [reflexivity|]); intros ch Hch; cbn in Hch; auto;
      apply in_app_or in Hch; destruct Hch as [?|[<-|[]]]; auto. }
  split; [|now rewrite !update_keys].
  split; [|split].
  - intros k c2 Hin. destruct (Hback k c2 Hin) as (c0 & Hin0 & Hname & _).
    rewrite Hname. exact (Hn k c0 Hin0).
  - intros k c2 Hin ch Hch. destruct (Hback k c2 Hin) as (c0 & Hin0 & _ & Hkids).
    destruct (Hkids ch Hch) as [Hch0|[-> ->]].
    + destruct (Hc k c0 Hin0 ch Hch0) as [H1 H2]. split; [now apply Hkeys|exact H2].
    + split; [now apply Hkeys|now apply parent_shorter].
  - intros r Hin. apply Hkeys. now apply Hr.
Qed.

Lemma secondPass_linkedOk (m1 m2 : Store) (roots : list string) :
  pristine m1 ->
  foldM link (objectValues m1) (m1, []) = Returns (m2, roots) ->
  linkedOk (m2, roots).
Proof.
  intros Hp E.
  apply (foldM_invariant_in link
           (fun st => linkedOk st /\ map fst (fst st) = map fst m1)
           (objectValues m1)) with (s' := (m2, roots)) (s := (m1, [])).
  - intros st c st' Hin [Hok Hkeys] El.
    destruct (objectValues_In m1 c Hin) as (k & Hkc).
    assert (Hk : hasKey (fst st) (Cell.name c)).
    { unfold hasKey. rewrite Hkeys. rewrite (proj1 (Hp k c Hkc)).
      exact (In_hasKey m1 k c Hkc). }
    destruct (link_linkedOk st c st' Hk Hok El) as [Hok' Hkeys'].
    split; [exact Hok'|congruence].
  - split; [|reflexivity]. unfold linkedOk. cbn [fst snd].
    split; [|split].
    + intros k c Hin. exact (proj1 (Hp k c Hin)).
    + intros k c Hin ch Hch.
      destruct (Hp k c Hin) as (_ & Hnil & _). rewrite Hnil in Hch. destruct Hch.
    + intros r [].
  - exact E.
Qed.

(** *** Reading the trees never runs out of budget *)

Lemma mapM_total {A B} (f : A -> outcome B) (l : list A) :
  Forall (fun x => exists y, f x = Returns y) l -> exists ys, mapM f l = Returns ys.
Proof.
  induction 1 as [|x l [y Hy] _ [ys Hys]]; simpl; [eauto|].
  rewrite Hy. cbn [bind]. rewrite Hys. cbn [bind]. eauto.
Qed.

Lemma readNode_total (m : Store) :
  childrenLonger m ->
  forall fuel ref,
    hasKey m ref -> (longestKey m < fuel + String.length ref)%nat ->
    exists n, readNode fuel m ref = Returns n.
Proof.
  intros Hc. induction fuel as [|fuel IH]; intros ref Hk Hlen.
  - pose proof (key_length_le m ref Hk). lia.
  - simpl. destruct (hasKey_own m ref Hk) as (c & Ho & Hin). rewrite Ho.
    destruct (mapM_total (readNode fuel m) (Cell.children c)) as [kids Ek].
    { rewrite Forall_forall. intros ch Hch.
      destruct (Hc ref c Hin ch Hch) as [Hkc Hl]. apply IH; [exact Hkc|lia]. }
    rewrite Ek. cbn [bind]. eauto.
Qed.

(** The third outcome of the model is never produced: the builder
    returns a forest or throws. *)
Lemma organizeLineageHierarchy_not_stuck (lineages : list Lineage.t) (nodeTypes : NodeTypes) :
  organizeLineageHierarchy lineages nodeTypes <> Stuck.
Proof.
  unfold organizeLineageHierarchy. destruct lineages as [|e0 rest]; [discriminate|].
  set (ls := e0 :: rest).
  pose proof (foldM_not_stuck (addLineage nodeTypes) (addLineage_not_stuck nodeTypes) ls [])
    as N1.
  destruct (foldM (addLineage nodeTypes) ls []) as [m1| |] eqn:E1; cbn [bind];
    try congruence.
  pose proof (foldM_not_stuck link link_not_stuck (objectValues m1) (m1, [])) as N2.
  destruct (foldM link (objectValues m1) (m1, [])) as [[m2 roots]| |] eqn:E2; cbn [bind];
    try congruence.
  destruct (secondPass_linkedOk m1 m2 roots (firstPass_pristine _ _ _ E1) E2)
    as (_ & Hc & Hr). cbn [fst snd] in *.
  destruct (mapM_total (readNode (budget m2) m2) roots) as [trees Et].
  { rewrite Forall_forall. intros r Hin. apply readNode_total; auto.
    unfold budget. fold (longestKey m2). lia. }
  rewrite Et. cbn [bind]. discriminate.
Qed.

(** ** Entries whose name is already in the map *)

Lemma ownProperty_app (m l : Store) (k : string) (c : Cell.t) :
  ownProperty m k = Some c -> ownProperty (m ++ l)%list k = Some c.
Proof.
  unfold ownProperty. induction m as [|[k1 c1] m IH]; simpl; [discriminate|].
  destruct (String.eqb k1 k); simpl; auto.
Qed.

Lemma present_app (m l : Store) (k : string) :
  present m k -> present (m ++ l)%list k.
Proof.
  unfold present, getProperty. destruct (ownProperty m k) as [c|] eqn:E.
  - intros _. now rewrite (ownProperty_app m l k c E).
  - destruct (ownProperty (m ++ l)%list k); [discriminate|].
    destruct (Color.isPrototypeKey k); [discriminate|congruence].
Qed.

Lemma present_snoc_same (m : Store) (k : string) (c : Cell.t) :
  present (m ++ [(k, c)])%list k.
Proof.
  unfold present, getProperty.
  assert (H : exists c', ownProperty (m ++ [(k, c)])%list k = Some c').
  { destruct (hasKey_own (m ++ [(k, c)])%list k) as (c' & Ho & _); [|eauto].
    unfold hasKey. rewrite map_app. apply in_or_app. right. simpl. auto. }
  destruct H as [c' ->]. discriminate.
Qed.

Lemma ensureParent_extends (m : Store) (p : string) (m' : Store) :
  ensureParent m p = Returns m' ->
  (exists l, m' = (m ++ l)%list) /\ present m' p.
Proof.
  unfold ensureParent. destruct (getProperty m p) eqn:E.
  - intros [= <-]. split; [exists []; now rewrite app_nil_r|].
    unfold present. congruence.
  - intros [= <-]. split; [exists []; now rewrite app_nil_r|].
    unfold present. congruence.
  - destruct (Color.generatePangoLineageColor p None); cbn [bind]; try discriminate.
    intros [= <-]. split; [eauto|apply present_snoc_same].
Qed.

Lemma ensureParents_extends (ps : list string) :
  forall m m', foldM ensureParent ps m = Returns m' ->
    (exists l, m' = (m ++ l)%list) /\ (forall p, In p ps -> present m' p).
Proof.
  induction ps as [|p ps IH]; simpl; intros m m' E.
  - injection E as <-. split; [exists []; now rewrite app_nil_r|intros p []].
  - destruct (ensureParent m p) as [m1| |] eqn:E1; cbn [bind] in E; try discriminate.
    destruct (ensureParent_extends m p m1 E1) as [[l1 ->] Hp].
    destruct (IH _ _ E) as [[l2 ->] Hps].
    split; [exists (l1 ++ l2)%list; now rewrite app_assoc|].
    intros q [<-|Hq]; [now apply present_app|now apply Hps].
Qed.

Lemma addLineage_extends (nt : NodeTypes) (m : Store) (e : Lineage.t) (m' : Store) :
  addLineage nt m e = Returns m' ->
  (exists l, m' = (m ++ l)%list)
  /\ (Js.truthy (Lineage.value e) = true ->
      present m' (Lineage.value e)
      /\ forall p, In p (getAllParentLineages (Lineage.value e)) -> present m' p).
Proof.
  unfold addLineage. destruct (Js.truthy (Lineage.value e)); cbn [negb].
  - intros E. apply ensureParents_extends in E. destruct E as [[l ->] Hps].
    destruct (getProperty m (Lineage.value e)) eqn:Eg.
    + split; [eauto|]. intros _. split; [|exact Hps].
      apply present_app. unfold present. congruence.
    + split; [eauto|]. intros _. split; [|exact Hps].
      apply present_app. unfold present. congruence.
    + split; [rewrite <- app_assoc; eauto|]. intros _. split; [|exact Hps].
      apply present_app. apply present_snoc_same.
  - intros [= <-]. split; [exists []; now rewrite app_nil_r|discriminate].
Qed.

Lemma firstPass_extends (nt : NodeTypes) (ls : list Lineage.t) :
  forall m m', foldM (addLineage nt) ls m = Returns m' ->
    (exists l, m' = (m ++ l)%list)
    /\ (forall e, In e ls -> Js.truthy (Lineage.value e) = true ->
          present m' (Lineage.value e)
          /\ forall p, In p (getAllParentLineages (Lineage.value e)) -> present m' p).
Proof.
  induction ls as [|e ls IH]; simpl; intros m m' E.
  - injection E as <-. split; [exists []; now rewrite app_nil_r|intros e []].
  - destruct (addLineage nt m e) as [m1| |] eqn:E1; cbn [bind] in E; try discriminate.
    destruct (addLineage_extends nt m e m1 E1) as [[l1 ->] He].
    destruct (IH _ _ E) as [[l2 ->] Hls].
    split; [exists (l1 ++ l2)%list; now rewrite app_assoc|].
    intros e' [<-|Hin] Ht; [|now apply Hls].
    destruct (He Ht) as [H1 H2]. split; [now apply present_app|].
    intros p Hp. apply present_app. now apply H2.
Qed.

Lemma ensureParents_idle (ps : list string) (m : Store) :
  (forall p, In p ps -> present m p) -> foldM ensureParent ps m = Returns m.
Proof.
  induction ps as [|p ps IH]; simpl; intros H; [reflexivity|].
  assert (E : ensureParent m p = Returns m).
  { unfold ensureParent. pose proof (H p (or_introl eq_refl)) as Hp.
    unfold present in Hp. destruct (getProperty m p); congruence. }
  rewrite E. cbn [bind]. apply IH. intros q Hq. apply H. now right.
Qed.

Lemma addLineage_idle (nt : NodeTypes) (m : Store) (e : Lineage.t) :
  present m (Lineage.value e) ->
  (forall p, In p (getAllParentLineages (Lineage.value e)) -> present m p) ->
  addLineage nt m e = Returns m.
Proof.
  intros Hv Hps. unfold addLineage.
  destruct (negb (Js.truthy (Lineage.value e))); [reflexivity|].
  unfold present in Hv.
  destruct (getProperty m (Lineage.value e)); try congruence;
    now apply ensureParents_idle.
Qed.

(** C4, as the code has it. An entry whose name occurred earlier in the
    sequence is ignored altogether: the builder returns what it returns
    for the sequence without that entry.  The counts of entries with the
    same name are not added up. *)
Theorem later_duplicate_is_ignored
  (before after : list Lineage.t) (dup : Lineage.t) (nodeTypes : NodeTypes) :
  In (Lineage.value dup) (map Lineage.value before) ->
  organizeLineageHierarchy (before ++ dup :: after)%list nodeTypes
  = organizeLineageHierarchy (before ++ after)%list nodeTypes.
Proof.
  intros Hin. apply in_map_iff in Hin. destruct Hin as (e & Ev & He).
  assert (Hfold : foldM (addLineage nodeTypes) (before ++ dup :: after)%list []
                  = foldM (addLineage nodeTypes) (before ++ after)%list []).
  { rewrite !foldM_app.
    destruct (foldM (addLineage nodeTypes) before []) as [m| |] eqn:E;
      cbn [bind]; try reflexivity.
    simpl. replace (addLineage nodeTypes m dup) with (Returns m); [reflexivity|].
    symmetry. destruct (Js.truthy (Lineage.value dup)) eqn:Ht.
    - destruct (firstPass_extends nodeTypes before [] m E) as [_ H].
      destruct (H e He) as [H1 H2]; [congruence|].
      rewrite Ev in *. now apply addLineage_idle.
    - unfold addLineage. now rewrite Ht. }
  unfold organizeLineageHierarchy.
  destruct before as [|b0 before]; [destruct He|].
  cbn [app]. cbn [app] in Hfold. rewrite Hfold. reflexivity.
Qed.

Lemma later_duplicate_is_ignored_witness :
  organizeLineageHierarchy
    ([Lineage.mk "B" 5 (1, 2, 3)%float] ++
     Lineage.mk "B" 3 (4, 5, 6)%float :: [Lineage.mk "B.1" 2 (7, 8, 9)%float])%list None
  = organizeLineageHierarchy
      ([Lineage.mk "B" 5 (1, 2, 3)%float] ++ [Lineage.mk "B.1" 2 (7, 8, 9)%float])%list
      None.
Proof.
  apply (later_duplicate_is_ignored [Lineage.mk "B" 5 (1, 2, 3)%float]
           [Lineage.mk "B.1" 2 (7, 8, 9)%float] (Lineage.mk "B" 3 (4, 5, 6)%float) None).
  simpl. left. reflexivity.
Defined.

(** C4 as stated fails: of two entries named B with counts 5 and 3 the
    node keeps the own count 5, not 8. *)
Lemma duplicate_counts_not_summed :
  organizeLineageHierarchy
    [Lineage.mk "B" 5 (1, 2, 3)%float; Lineage.mk "B" 3 (1, 2, 3)%float] None
  = Returns [Node.mk "B" 5 5 5 0 (1, 2, 3)%float [] false 0 None None]
  /\ map Node.originalCount
       [Node.mk "B" 5 5 5 0 (1, 2, 3)%float [] false 0 None None] <> [5 + 3].
Proof. split; [vm_compute; reflexivity|discriminate]. Qed.

(** ** What the first pass builds *)

Lemma ownProperty_None (m : Store) (k : string) :
  ownProperty m k = None -> ~ hasKey m k.
Proof.
  intros E H. destruct (hasKey_own m k H) as (c & Ho & _). congruence.
Qed.

Lemma getProperty_Undefined (m : Store) (k : string) :
  getProperty m k = Undefined -> ~ hasKey m k /\ Color.isPrototypeKey k = false.
Proof.
  unfold getProperty. destruct (ownProperty m k) eqn:E; [discriminate|].
  destruct (Color.isPrototypeKey k); [discriminate|].
  intros _. split; [now apply ownProperty_None|reflexivity].
Qed.

Lemma getProperty_Own (m : Store) (k : string) (c : Cell.t) :
  getProperty m k = Own c -> In (k, c) m.
Proof.
  unfold getProperty. destruct (ownProperty m k) eqn:E.
  - intros [= <-]. now apply own_hasKey.
  - destruct (Color.isPrototypeKey k); discriminate.
Qed.

Lemma getProperty_Inherited (m : Store) (k : string) :
  getProperty m k = Inherited -> Color.isPrototypeKey k = true.
Proof.
  unfold getProperty. destruct (ownProperty m k); [discriminate|].
  destruct (Color.isPrototypeKey k); [reflexivity|discriminate].
Qed.

Lemma present_hasKey (m : Store) (k : string) :
  present m k -> Color.isPrototypeKey k = false -> hasKey m k.
Proof.
  unfold present. intros H Hp. destruct (getProperty m k) eqn:E.
  - apply getProperty_Own in E. eapply In_hasKey; eauto.
  - apply getProperty_Inherited in E. congruence.
  - congruence.
Qed.

Lemma cellOrigin_mono (nt : NodeTypes) (done done' : list Lineage.t) (k : string) (c : Cell.t) :
  (forall e, In e done -> In e done') ->
  cellOrigin nt done k c -> cellOrigin nt done' k c.
Proof.
  intros Hsub [(e & He & H)|(e & col & He & H)].
  - left. exists e. split; [now apply Hsub|exact H].
  - right. exists e, col. split; [now apply Hsub|exact H].
Qed.

Lemma getAllParentLineages_falsy (v : string) :
  Js.truthy v = false -> getAllParentLineages v = [].
Proof. intros H. unfold getAllParentLineages. now rewrite H. Qed.

Lemma NoDup_snoc {A} (l : list A) (x : A) :
  NoDup l -> ~ In x l -> NoDup (l ++ [x])%list.
Proof.
  intros Hl Hx. apply (Permutation_NoDup (Permutation_cons_append l x)).
  now constructor.
Qed.

Section FirstPass.

Variable nodeTypes : NodeTypes.

Lemma sound_snoc (done : list Lineage.t) (m : Store) (k : string) (c : Cell.t) :
  soundStore nodeTypes done m -> getProperty m k = Undefined -> cellOrigin nodeTypes done k c ->
  soundStore nodeTypes done (m ++ [(k, c)])%list.
Proof.
  intros [Hs Hn] Hu Ho. apply getProperty_Undefined in Hu. destruct Hu as [Hnk Hp].
  split.
  - intros k' c' Hin. apply in_app_or in Hin.
    destruct Hin as [Hin|[E|[]]]; [now apply Hs|]. injection E as <- <-. auto.
  - rewrite map_app. simpl. now apply NoDup_snoc.
Qed.

Lemma ensureParents_sound (done : list Lineage.t) (e : Lineage.t) :
  In e done ->
  forall ps, (forall p, In p ps -> In p (getAllParentLineages (Lineage.value e))) ->
  forall m m', soundStore nodeTypes done m -> foldM ensureParent ps m = Returns m' -> soundStore nodeTypes done m'.
Proof.
  intros He. induction ps as [|p ps IH]; simpl; intros Hps m m' Hm E.
  - now injection E as <-.
  - destruct (ensureParent m p) as [m1| |] eqn:E1; cbn [bind] in E; try discriminate.
    apply (IH (fun q Hq => Hps q (or_intror Hq)) m1 m'); [|exact E].
    unfold ensureParent in E1. destruct (getProperty m p) eqn:Eg;
      try (injection E1 as <-; exact Hm).
    destruct (Color.generatePangoLineageColor p None) as [col| |] eqn:Ec;
      cbn [bind] in E1; try discriminate.
    injection E1 as <-. apply sound_snoc; [exact Hm|exact Eg|].
    right. exists e, col. repeat split; auto.
Qed.

Lemma addLineage_inv (done : list Lineage.t) (m : Store) (e : Lineage.t) (m' : Store) :
  firstPassInv nodeTypes done m ->
  (forall e', In e' done -> Lineage.value e = Lineage.value e' -> e = e') ->
  (forall e', In e' done ->
     ~ In (Lineage.value e) (getAllParentLineages (Lineage.value e'))) ->
  addLineage nodeTypes m e = Returns m' ->
  firstPassInv nodeTypes (done ++ [e])%list m'.
Proof.
  intros [Hs Hr Hp Hn] Hcons Hanc E.
  assert (Hsub : forall x, In x done -> In x (done ++ [e])%list)
    by (intros x Hx; apply in_or_app; now left).
  assert (Hlast : In e (done ++ [e])%list)
    by (apply in_or_app; right; now left).
  destruct (addLineage_extends nodeTypes m e m' E) as [[l Hl] Hpres].
  unfold addLineage in E.
  destruct (Js.truthy (Lineage.value e)) eqn:Ht; cbn [negb] in E.
  - (* the entry has a name *)
    set (m0 := match getProperty m (Lineage.value e) with
               | Undefined => (m ++ [(Lineage.value e, realCell nodeTypes e)])%list
               | _ => m
               end).
    assert (E0 : foldM ensureParent (getAllParentLineages (Lineage.value e)) m0
                 = Returns m') by exact E.
    assert (H0 : soundStore nodeTypes (done ++ [e])%list m0
                 /\ (Color.isPrototypeKey (Lineage.value e) = false ->
                     In (Lineage.value e, realCell nodeTypes e) m0)).
    { unfold m0. destruct (getProperty m (Lineage.value e)) as [c| |] eqn:Eg.
      - split.
        + split; [|exact Hn]. intros k c' Hin. destruct (Hs k c' Hin) as [H1 H2].
          split; [exact H1|]. eapply cellOrigin_mono; eauto.
        + intros _. apply getProperty_Own in Eg.
          destruct (Hs _ _ Eg) as [_ [(e' & He' & _ & Ev & ->)|(e' & col & He' & Hin & _)]].
          * pose proof (Hcons e' He' Ev) as Hee. subst e'. exact Eg.
          * exfalso. exact (Hanc e' He' Hin).
      - split.
        + split; [|exact Hn]. intros k c' Hin. destruct (Hs k c' Hin) as [H1 H2].
          split; [exact H1|]. eapply cellOrigin_mono; eauto.
        + apply getProperty_Inherited in Eg. congruence.
      - split.
        + apply sound_snoc; [| exact Eg |].
          * split; [|exact Hn]. intros k c' Hin. destruct (Hs k c' Hin) as [H1 H2].
            split; [exact H1|]. eapply cellOrigin_mono; eauto.
          * left. exists e. auto.
        + intros _. apply in_or_app. right. now left. }
    destruct H0 as [Hs0 Hr0].
    assert (Hext0 : exists l0, m' = (m0 ++ l0)%list).
    { apply ensureParents_extends in E0. exact (proj1 E0). }
    destruct Hext0 as [l0 Hl0].
    assert (Hm0 : forall kc, In kc m -> In kc m0).
    { intros kc Hin. unfold m0. destruct (getProperty m (Lineage.value e)); auto.
      apply in_or_app. now left. }
    destruct (ensureParents_sound (done ++ [e])%list e Hlast _ (fun p Hp => Hp) m0 m' Hs0 E0)
      as [Hs' Hn'].
    destruct (Hpres eq_refl) as [_ Hpp].
    constructor.
    + exact Hs'.
    + intros x Hx Htx Hpx. apply in_app_or in Hx. destruct Hx as [Hx|[<-|[]]].
      * rewrite Hl0. apply in_or_app. left. apply Hm0. now apply Hr.
      * rewrite Hl0. apply in_or_app. left. now apply Hr0.
    + intros x p Hx Hin Hpp'. apply in_app_or in Hx. destruct Hx as [Hx|[<-|[]]].
      * unfold hasKey. rewrite Hl, map_app. apply in_or_app. left.
        exact (Hp x p Hx Hin Hpp').
      * apply present_hasKey; auto.
    + exact Hn'.
  - (* the entry has no name and is skipped *)
    injection E as <-. constructor.
    + intros k c Hin. destruct (Hs k c Hin) as [H1 H2].
      split; [exact H1|]. eapply cellOrigin_mono; eauto.
    + intros x Hx Htx Hpx. apply in_app_or in Hx. destruct Hx as [Hx|[<-|[]]].
      * now apply Hr.
      * congruence.
    + intros x p Hx Hin Hpp. apply in_app_or in Hx. destruct Hx as [Hx|[<-|[]]].
      * exact (Hp x p Hx Hin Hpp).
      * rewrite (getAllParentLineages_falsy _ Ht) in Hin. destruct Hin.
    + exact Hn.
Qed.

Lemma isAncestorOf_In (a v : string) :
  isAncestorOf a v = true <-> In a (getAllParentLineages v).
Proof.
  unfold isAncestorOf. rewrite existsb_exists. split.
  - intros (x & Hx & E). apply String.eqb_eq in E. now subst.
  - intros H. exists a. split; [exact H|apply String.eqb_refl].
Qed.

Lemma firstPass_inv (todo : list Lineage.t) :
  forall done m m',
    firstPassInv nodeTypes done m ->
    consistentNames (done ++ todo)%list ->
    ancestorsFirst (map Lineage.value done) todo = true ->
    foldM (addLineage nodeTypes) todo m = Returns m' ->
    firstPassInv nodeTypes (done ++ todo)%list m'.
Proof.
  induction todo as [|e todo IH]; simpl; intros done m m' Hinv Hc Ha E.
  - injection E as <-. now rewrite app_nil_r.
  - destruct (addLineage nodeTypes m e) as [m1| |] eqn:E1; cbn [bind] in E;
      try discriminate.
    apply andb_prop in Ha. destruct Ha as [Ha1 Ha2].
    replace (done ++ e :: todo)%list with ((done ++ [e]) ++ todo)%list in *
      by (now rewrite <- app_assoc).
    apply (IH (done ++ [e])%list m1 m'); auto.
    + apply (addLineage_inv done m e m1 Hinv); auto.
      * intros e' He' Ev. apply Hc; auto.
        -- apply in_or_app. left. apply in_or_app. right. now left.
        -- apply in_or_app. left. apply in_or_app. now left.
      * intros e' He' Hin. apply negb_true_iff in Ha1.
        assert (Hex : existsb (isAncestorOf (Lineage.value e)) (map Lineage.value done) = true).
        { apply existsb_exists. exists (Lineage.value e'). split.
          - now apply in_map.
          - now apply isAncestorOf_In. }
        congruence.
    + now rewrite map_app.
Qed.

Lemma firstPass_inv_start (ls : list Lineage.t) (m : Store) :
  consistentNames ls -> ancestorsFirst [] ls = true ->
  foldM (addLineage nodeTypes) ls [] = Returns m ->
  firstPassInv nodeTypes ls m.
Proof.
  intros Hc Ha E.
  apply (firstPass_inv ls [] [] m); auto.
  constructor.
  - intros k c [].
  - intros e [].
  - intros e p [].
  - constructor.
Qed.

End FirstPass.

(** Two runs over the same entries in different orders build the same
    objects. *)
Lemma NoDup_keys_unique (m : Store) (k : string) (c c' : Cell.t) :
  NoDup (map fst m) -> In (k, c) m -> In (k, c') m -> c = c'.
Proof.
  induction m as [|[k1 c1] m IH]; simpl; intros Hn H1 H2; [contradiction|].
  inversion Hn as [|? ? Hnotin Hn']; subst.
  destruct H1 as [E1|H1]; destruct H2 as [E2|H2].
  - congruence.
  - injection E1 as -> ->. exfalso. apply Hnotin. exact (In_hasKey m k c' H2).
  - injection E2 as -> ->. exfalso. apply Hnotin. exact (In_hasKey m k c H1).
  - now apply IH.
Qed.

Lemma firstPass_same_cells (nt : NodeTypes) (l1 l2 : list Lineage.t) (m1 m2 : Store) :
  firstPassInv nt l1 m1 -> firstPassInv nt l2 m2 ->
  (forall e, In e l1 <-> In e l2) ->
  forall k c, In (k, c) m1 -> In (k, c) m2.
Proof.
  intros [Hs1 Hr1 Hp1 Hn1] [Hs2 Hr2 Hp2 Hn2] Hiff k c Hin.
  destruct (Hs1 k c Hin) as [Hproto [(e & He & Ht & -> & ->)|(e & col & He & Hk & Hcol & ->)]].
  - apply Hr2; auto. now apply Hiff.
  - assert (Hkey : hasKey m2 k) by (apply (Hp2 e k); auto; now apply Hiff).
    destruct (hasKey_own m2 k Hkey) as (c' & _ & Hin').
    destruct (Hs2 k c' Hin') as [_ [(e' & He' & Ht' & -> & ->)|(e' & col' & He' & Hk' & Hcol' & ->)]].
    + assert (Hin1 : In (Lineage.value e', realCell nt e') m1).
      { apply Hr1; auto. now apply Hiff. }
      now rewrite (NoDup_keys_unique m1 _ _ _ Hn1 Hin Hin1).
    + assert (col = col') by congruence. now subst.
Qed.

Lemma NoDup_keys_pairs (m : Store) : NoDup (map fst m) -> NoDup m.
Proof. apply NoDup_map_inv. Qed.

Lemma firstPass_perm (nt : NodeTypes) (l1 l2 : list Lineage.t) (m1 m2 : Store) :
  firstPassInv nt l1 m1 -> firstPassInv nt l2 m2 ->
  Permutation l1 l2 -> Permutation m1 m2.
Proof.
  intros H1 H2 Hp.
  assert (Hiff : forall e, In e l1 <-> In e l2).
  { intros e. split; apply Permutation_in; [exact Hp|now symmetry]. }
  apply NoDup_Permutation.
  - apply NoDup_keys_pairs, (inv_nodup _ _ _ H1).
  - apply NoDup_keys_pairs, (inv_nodup _ _ _ H2).
  - intros [k c]. split.
    + now apply (firstPass_same_cells nt l1 l2 m1 m2).
    + apply (firstPass_same_cells nt l2 l1 m2 m1); auto.
      intros e. symmetry. apply Hiff.
Qed.

(** ** What the second pass builds *)

Lemma hasKey_getProperty (m m' : Store) (k : string) :
  (forall x, hasKey m x <-> hasKey m' x) ->
  match getProperty m k, getProperty m' k with
  | Own _, Own _ | Inherited, Inherited | Undefined, Undefined => True
  | _, _ => False
  end.
Proof.
  intros H. unfold getProperty.
  destruct (ownProperty m k) as [c|] eqn:E; destruct (ownProperty m' k) as [c'|] eqn:E'.
  - exact I.
  - apply own_hasKey, In_hasKey, H in E. now apply ownProperty_None in E'.
  - apply own_hasKey, In_hasKey, H in E'. now apply ownProperty_None in E.
  - destruct (Color.isPrototypeKey k); exact I.
Qed.

Lemma linkTarget_keys (m m' : Store) (n : string) :
  (forall x, hasKey m x <-> hasKey m' x) -> linkTarget m n = linkTarget m' n.
Proof.
  intros H. unfold linkTarget.
  destruct (parent (parseLineageName n)) as [p|]; [|reflexivity].
  destruct (negb (Js.truthy p)); [reflexivity|].
  pose proof (hasKey_getProperty m m' p H) as Hp.
  destruct (getProperty m p), (getProperty m' p); try reflexivity; contradiction.
Qed.

Lemma isTarget_keys (m m' : Store) (k n : string) :
  (forall x, hasKey m x <-> hasKey m' x) -> isTarget m k n = isTarget m' k n.
Proof. intros H. unfold isTarget. now rewrite (linkTarget_keys m m' n H). Qed.

Lemma isRoot_keys (m m' : Store) (n : string) :
  (forall x, hasKey m x <-> hasKey m' x) -> isRoot m n = isRoot m' n.
Proof. intros H. unfold isRoot. now rewrite (linkTarget_keys m m' n H). Qed.

Lemma sameScalars_refl (c : Cell.t) : sameScalars c c.
Proof. unfold sameScalars. repeat split. Qed.

Lemma sameScalars_trans (a b c : Cell.t) :
  sameScalars a b -> sameScalars b c -> sameScalars a c.
Proof.
  unfold sameScalars. intros (?&?&?&?&?&?&?&?) (?&?&?&?&?&?&?&?).
  repeat split; congruence.
Qed.

Lemma sameScalars_sym (a b : Cell.t) : sameScalars a b -> sameScalars b a.
Proof.
  unfold sameScalars. intros (?&?&?&?&?&?&?&?). repeat split; congruence.
Qed.

Lemma Forall2_map_r_same {A} (g : A -> A) (R : A -> A -> Prop) (l : list A) :
  (forall x, In x l -> R x (g x)) -> Forall2 R l (map g l).
Proof.
  induction l as [|x l IH]; simpl; intros H; constructor; auto.
Qed.

Lemma Forall2_same {A} (R : A -> A -> Prop) (l : list A) :
  (forall x, In x l -> R x x) -> Forall2 R l l.
Proof.
  induction l as [|x l IH]; simpl; intros H; constructor; auto.
Qed.

Lemma linkedCell_refl_nil (m0 : Store) (kc : string * Cell.t) : linkedCell m0 [] kc kc.
Proof.
  unfold linkedCell. simpl. rewrite app_nil_r.
  repeat split; auto using sameScalars_refl.
Qed.

(** One turn of the loop. *)
Lemma link_step (m : Store) (roots : list string) (cell : Cell.t)
  (m' : Store) (roots' : list string) :
  link (m, roots) cell = Returns (m', roots') ->
  Forall2 (linkedCell m [Cell.name cell]) m m'
  /\ roots' = (roots ++ filter (isRoot m) [Cell.name cell])%list
  /\ map fst m' = map fst m.
Proof.
  unfold link. set (n := Cell.name cell).
  assert (Hroot : linkTarget m n = None ->
            Forall2 (linkedCell m [n]) m m
            /\ (roots ++ [n])%list = (roots ++ filter (isRoot m) [n])%list
            /\ map fst m = map fst m).
  { intros Hl. split; [|split; [|reflexivity]].
    - apply Forall2_same.
      intros [k c] _. unfold linkedCell, isTarget. cbn [fst snd filter existsb].
      rewrite Hl, app_nil_r.
      repeat split; auto using sameScalars_refl.
      destruct (String.eqb_spec k n) as [->|_]; cbn [orb]; [now rewrite Hl|reflexivity].
    - simpl. unfold isRoot. now rewrite Hl. }
  unfold linkTarget in Hroot.
  destruct (parent (parseLineageName n)) as [p|] eqn:Ep;
    [|intros [= <- <-]; now apply Hroot].
  destruct (negb (Js.truthy p)) eqn:Et; [intros [= <- <-]; now apply Hroot|].
  destruct (getProperty m p) as [cp| |] eqn:Eg; try discriminate;
    [|intros [= <- <-]; now apply Hroot].
  clear Hroot. intros [= <- <-].
  assert (Hl : linkTarget m n = Some p).
  { unfold linkTarget. now rewrite Ep, Et, Eg. }
  split; [|split].
  - unfold update. rewrite map_map. apply Forall2_map_r_same.
    intros [k c] _. unfold linkedCell, isTarget. cbn [fst snd filter existsb].
    rewrite Hl. rewrite (String.eqb_sym p k).
    destruct (String.eqb k p) eqn:Ekp; cbn [fst snd];
      destruct (String.eqb_spec k n) as [->|Hkn];
      cbn [fst snd Cell.children Cell.parent orb]; try rewrite Hl;
      repeat split; auto; now rewrite app_nil_r.
  - simpl. unfold isRoot. rewrite Hl. now rewrite app_nil_r.
  - now rewrite !update_keys.
Qed.

Lemma keys_hasKey (m m' : Store) :
  map fst m' = map fst m -> forall x, hasKey m x <-> hasKey m' x.
Proof. intros E x. unfold hasKey. now rewrite E. Qed.

Lemma linkedCell_compose (m0 : Store) (o1 o2 : list string) (a b c : string * Cell.t) :
  linkedCell m0 o1 a b -> linkedCell m0 o2 b c -> linkedCell m0 (o1 ++ o2)%list a c.
Proof.
  unfold linkedCell. intros (F1 & S1 & C1 & P1) (F2 & S2 & C2 & P2).
  rewrite F1 in *. split; [exact F2|]. split; [eapply sameScalars_trans; eauto|].
  split.
  - rewrite C2, C1, filter_app, app_assoc. reflexivity.
  - rewrite P2, P1, existsb_app.
    destruct (existsb (String.eqb (fst a)) o1), (existsb (String.eqb (fst a)) o2);
      cbn [orb]; destruct (linkTarget m0 (fst a)); reflexivity.
Qed.

Lemma Forall2_compose {A} (R1 R2 R3 : A -> A -> Prop) (l1 l2 l3 : list A) :
  (forall a b c, R1 a b -> R2 b c -> R3 a c) ->
  Forall2 R1 l1 l2 -> Forall2 R2 l2 l3 -> Forall2 R3 l1 l3.
Proof.
  intros H H12. revert l3. induction H12; intros l3 H23; inversion H23; subst;
    constructor; eauto.
Qed.

Lemma secondPass_spec (cells : list Cell.t) :
  forall m roots m2 roots2,
    foldM link cells (m, roots) = Returns (m2, roots2) ->
    Forall2 (linkedCell m (map Cell.name cells)) m m2
    /\ roots2 = (roots ++ filter (isRoot m) (map Cell.name cells))%list.
Proof.
  induction cells as [|cell cells IH]; cbn [foldM map]; intros m roots m2 roots2 E.
  - injection E as <- <-. split; [|simpl; now rewrite app_nil_r].
    apply Forall2_same.
    intros kc _. apply linkedCell_refl_nil.
  - destruct (link (m, roots) cell) as [[m' roots']| |] eqn:El; cbn [bind] in E;
      try discriminate.
    destruct (link_step m roots cell m' roots' El) as (H1 & -> & Hk).
    destruct (IH _ _ _ _ E) as (H2 & ->).
    pose proof (keys_hasKey m m' Hk) as Hkeys.
    split.
    + change (Cell.name cell :: map Cell.name cells)
        with ([Cell.name cell] ++ map Cell.name cells)%list.
      apply (Forall2_compose _ _ _ m m' m2 (linkedCell_compose m _ _)); [exact H1|].
      eapply Forall2_impl; [|exact H2].
      intros a b (F & S & C & P). unfold linkedCell.
      split; [exact F|]. split; [exact S|]. split.
      * rewrite C. f_equal. apply filter_ext. intros x.
        now rewrite (isTarget_keys m m' _ x Hkeys).
      * rewrite P. now rewrite (linkTarget_keys m m' _ Hkeys).
    + rewrite <- app_assoc. f_equal.
      rewrite (filter_ext (isRoot m') (isRoot m))
        by (intros x; symmetry; now apply isRoot_keys).
      simpl. destruct (isRoot m (Cell.name cell)); reflexivity.
Qed.

(** ** Trees up to the order of children *)

Lemma Permutation_filter' {A} (f : A -> bool) (l l' : list A) :
  Permutation l l' -> Permutation (filter f l) (filter f l').
Proof.
  induction 1 as [|x l l' _ IH|x y l|l l' l'' _ IH1 _ IH2]; simpl.
  - constructor.
  - destruct (f x); [now constructor|exact IH].
  - destruct (f x), (f y); try reflexivity. apply perm_swap.
  - now transitivity (filter f l').
Qed.

Lemma existsb_perm {A} (f : A -> bool) (l l' : list A) :
  Permutation l l' -> existsb f l = existsb f l'.
Proof.
  induction 1 as [|x l l' _ IH|x y l|l l' l'' _ IH1 _ IH2]; simpl.
  - reflexivity.
  - now rewrite IH.
  - destruct (f x), (f y); reflexivity.
  - congruence.
Qed.

Lemma Forall2_zip {A B C} (P : A -> B -> Prop) (Q : A -> C -> Prop) (R : B -> C -> Prop)
  (l : list A) (ys : list B) (zs : list C) :
  (forall x y z, In x l -> P x y -> Q x z -> R y z) ->
  Forall2 P l ys -> Forall2 Q l zs -> Forall2 R ys zs.
Proof.
  intros H HP. revert zs. induction HP as [|x y l ys Hxy _ IH]; intros zs HQ;
    inversion HQ; subst; constructor.
  - eapply H; eauto. now left.
  - apply IH; auto. intros x' y' z' Hin. apply H. now right.
Qed.

Lemma Forall2_In_r {A B} (R : A -> B -> Prop) (l : list A) (l' : list B) (b : B) :
  Forall2 R l l' -> In b l' -> exists a, In a l /\ R a b.
Proof.
  induction 1 as [|x y l l' Hxy _ IH]; simpl; [contradiction|].
  intros [<-|Hin]; [eauto|]. destruct (IH Hin) as (a & Ha & HR). eauto.
Qed.

Lemma similarForests_perm_l (f g f' : list Node.t) :
  Permutation f g -> similarForests f f' -> similarForests g f'.
Proof.
  intros Hp (x & Hx & HF). exists x. split; [now transitivity f|exact HF].
Qed.

Lemma similarForests_perm_r (f f' g' : list Node.t) :
  Permutation f' g' -> similarForests f f' -> similarForests f g'.
Proof.
  intros Hp (x & Hx & HF).
  destruct (Permutation_Forall2 Hp (Forall2_flip HF)) as (x' & Hxx' & HF').
  exists x'. split; [transitivity x; [now symmetry|exact Hx]|now apply Forall2_flip].
Qed.

Lemma similarForests_map (h : Node.t -> Node.t) (f f' : list Node.t) :
  (forall a b, In a f -> similar a b -> similar (h a) (h b)) ->
  similarForests f f' -> similarForests (map h f) (map h f').
Proof.
  intros H (x & Hx & HF). exists (map h x). split; [now apply Permutation_map|].
  assert (Hin : forall a, In a x -> In a f) by (intros a; now apply Permutation_in).
  clear Hx. induction HF as [|a b x f' Hab _ IH]; simpl; constructor.
  - apply H; [apply Hin; now left|exact Hab].
  - apply IH. intros a' Ha'. apply Hin. now right.
Qed.

Lemma similar_inv (n n' : Node.t) :
  similar n n' -> sameFields n n' /\ similarForests (Node.children n) (Node.children n').
Proof.
  intros H. inversion H as [? ? kids Hf Hp HF]; subst.
  split; [exact Hf|]. exists kids. split; assumption.
Qed.

Lemma similar_make (n n' : Node.t) :
  sameFields n n' -> similarForests (Node.children n) (Node.children n') -> similar n n'.
Proof. intros Hf (x & Hx & HF). now apply (similar_intro n n' x). Qed.

(** *** Reading the trees out of two stores that agree *)

Lemma readNode_similar (m m' : Store) :
  linkedAlike m m' ->
  forall fuel fuel' k t t',
    readNode fuel m k = Returns t -> readNode fuel' m' k = Returns t' ->
    similar t t'.
Proof.
  intros Hal. induction fuel as [|fuel IH]; intros [|fuel'] k t t'; simpl;
    try discriminate.
  destruct (ownProperty m k) as [c|] eqn:Eo; [|discriminate].
  destruct (ownProperty m' k) as [c'|] eqn:Eo'; [|discriminate].
  destruct (mapM (readNode fuel m) (Cell.children c)) as [kids| |] eqn:Ek;
    cbn [bind]; try discriminate.
  destruct (mapM (readNode fuel' m') (Cell.children c')) as [kids'| |] eqn:Ek';
    cbn [bind]; try discriminate.
  intros [= <-] [= <-].
  destruct (Hal k c c' Eo Eo') as ((S1&S2&S3&S4&S5&S6&S7&S8) & Hpar & Hperm).
  apply mapM_Forall2 in Ek. apply mapM_Forall2 in Ek'.
  destruct (Permutation_Forall2 Hperm Ek) as (kidsP & HkP & HFP).
  apply (similar_intro _ _ kidsP).
  - unfold sameFields. simpl. repeat split; assumption.
  - simpl. now symmetry.
  - simpl. eapply Forall2_zip; [|exact HFP|exact Ek'].
    intros x y z _ Hy Hz. exact (IH fuel' x y z Hy Hz).
Qed.

(** *** The bottom-up pass on similar trees *)

Lemma accSum_perm (sel : Counts -> Z) (l l' : list Node.t) :
  Permutation l l' -> accSum sel l = accSum sel l'.
Proof. induction 1; simpl; lia. Qed.

Lemma accSum_Forall2 (sel : Counts -> Z) (l l' : list Node.t) :
  Forall2 (fun a b => snd (accumulateChildCounts a) = snd (accumulateChildCounts b)) l l' ->
  accSum sel l = accSum sel l'.
Proof. induction 1 as [|a b l l' Hab _ IH]; simpl; [reflexivity|]. now rewrite Hab, IH. Qed.

Lemma accumulate_similar (n : Node.t) :
  forall n', similar n n' ->
    similar (accNode n) (accNode n')
    /\ snd (accumulateChildCounts n) = snd (accumulateChildCounts n').
Proof.
  induction n as [n IH] using Node_ind'. intros n' Hs.
  inversion Hs as [? ? kids Hf Hp HF]; subst.
  destruct Hf as (F1&F2&F3&F4&F5&F6&F7&F8&F9&F10).
  unfold accNode. rewrite !accumulateChildCounts_unfold.
  assert (Hlen : List.length (Node.children n) = List.length (Node.children n')).
  { rewrite <- (Permutation_length Hp). now apply Forall2_length in HF. }
  assert (Hkids : Forall2 (fun a b => similar (accNode a) (accNode b)
                    /\ snd (accumulateChildCounts a) = snd (accumulateChildCounts b))
                    kids (Node.children n')).
  { rewrite Forall_forall in IH.
    assert (Hin : forall a, In a kids -> In a (Node.children n))
      by (intros a; now apply Permutation_in).
    clear Hp Hlen. induction HF as [|a b kids l' Hab _ IHF]; constructor.
    - apply IH; [apply Hin; now left|exact Hab].
    - apply IHF. intros a' Ha'. apply Hin. now right. }
  assert (Hsum : forall sel, accSum sel (Node.children n) = accSum sel (Node.children n')).
  { intros sel. rewrite <- (accSum_perm sel _ _ Hp). apply accSum_Forall2.
    eapply Forall2_impl; [|exact Hkids]. now intros a b [_ H]. }
  destruct (Node.children n) as [|k ks] eqn:Ec;
    destruct (Node.children n') as [|k' ks'] eqn:Ec'; try discriminate.
  - cbn [fst snd]. split; [exact Hs|]. now rewrite F3, F4, F5.
  - rewrite !accumulateChildren_closed. cbn [fst snd].
    rewrite !Hsum, F3, F4, F5. split; [|reflexivity].
    apply (similar_intro _ _ (map accNode kids)).
    + unfold sameFields. cbn. repeat split; auto.
    + cbn [Node.children]. apply (Permutation_map accNode Hp).
    + cbn [Node.children]. change (accNode k' :: map accNode ks')
        with (map accNode (k' :: ks')).
      clear -Hkids. induction Hkids as [|a b l l' [Hab _] _ IHk]; simpl;
        constructor; auto.
Qed.

(** *** Sorting similar trees *)

Lemma sortChildren_similar (n : Node.t) :
  forall n', similar n n' -> similar (sortChildren n) (sortChildren n').
Proof.
  induction n as [n IH] using Node_ind'. intros n' Hs.
  apply similar_inv in Hs. destruct Hs as [Hf Hkids].
  assert (Hf' : sameFields (sortChildren n) (sortChildren n'))
    by (destruct n, n'; exact Hf).
  apply (similar_make _ _ Hf').
  rewrite !sortChildren_children.
  apply (similarForests_perm_l (map sortChildren (Node.children n)));
    [symmetry; apply sortNodes_perm|].
  apply (similarForests_perm_r _ (map sortChildren (Node.children n')));
    [symmetry; apply sortNodes_perm|].
  apply similarForests_map; [|exact Hkids].
  rewrite Forall_forall in IH. intros a b Ha. now apply IH.
Qed.

(** *** Similar trees have the same nodes *)

Lemma nodesOf_unfold (n : Node.t) :
  nodesOf n = n :: flat_map nodesOf (Node.children n).
Proof.
  destruct n as [? ? ? ? ? ? kids ? ? ? ?]. reflexivity.
Qed.

Lemma flat_map_Forall2_perm {A B C} (f : A -> list C) (g : B -> list C)
  (l : list A) (l' : list B) :
  Forall2 (fun a b => Permutation (f a) (g b)) l l' ->
  Permutation (flat_map f l) (flat_map g l').
Proof.
  induction 1 as [|a b l l' Hab _ IH]; simpl; [constructor|].
  now apply Permutation_app.
Qed.

Lemma sameFields_record (n n' : Node.t) : sameFields n n' -> recordOf n = recordOf n'.
Proof.
  intros (F1&F2&F3&F4&F5&F6&_). unfold recordOf. now rewrite F1, F2, F3, F4, F5, F6.
Qed.

Lemma map_flat_map' {A B C} (f : B -> C) (g : A -> list B) (l : list A) :
  map f (flat_map g l) = flat_map (fun x => map f (g x)) l.
Proof.
  induction l as [|x l IH]; simpl; [reflexivity|]. now rewrite map_app, IH.
Qed.

Lemma similar_records (n : Node.t) :
  forall n', similar n n' ->
    Permutation (map recordOf (nodesOf n)) (map recordOf (nodesOf n')).
Proof.
  induction n as [n IH] using Node_ind'. intros n' Hs.
  inversion Hs as [? ? kids Hf Hp HF]; subst.
  rewrite !nodesOf_unfold. cbn [map]. rewrite (sameFields_record n n' Hf).
  constructor. rewrite !map_flat_map'.
  rewrite <- (Permutation_flat_map (fun x => map recordOf (nodesOf x)) Hp).
  apply flat_map_Forall2_perm.
  rewrite Forall_forall in IH.
  assert (Hin : forall a, In a kids -> In a (Node.children n))
    by (intros a; now apply Permutation_in).
  clear Hp Hs. induction HF as [|a b kids l' Hab _ IHF]; constructor.
  - apply IH; [apply Hin; now left|exact Hab].
  - apply IHF. intros a' Ha'. apply Hin. now right.
Qed.

Lemma similarForests_records (f f' : list Node.t) :
  similarForests f f' -> Permutation (forestRecords f) (forestRecords f').
Proof.
  intros (x & Hx & HF). unfold forestRecords. rewrite !map_flat_map'.
  rewrite <- (Permutation_flat_map (fun n => map recordOf (nodesOf n)) Hx).
  apply flat_map_Forall2_perm.
  eapply Forall2_impl; [|exact HF]. intros a b. apply similar_records.
Qed.

(** ** Two runs on the same entries in different orders *)

Lemma secondPass_alike (m1 m1' m2 m2' : Store) (roots roots' : list string) :
  pristine m1 -> pristine m1' -> NoDup (map fst m1) -> Permutation m1 m1' ->
  foldM link (objectValues m1) (m1, []) = Returns (m2, roots) ->
  foldM link (objectValues m1') (m1', []) = Returns (m2', roots') ->
  linkedAlike m2 m2' /\ Permutation roots roots'.
Proof.
  intros Hp Hp' Hn Hperm E E'.
  set (names := map Cell.name (objectValues m1)).
  set (names' := map Cell.name (objectValues m1')).
  assert (Hnames : Permutation names names').
  { unfold names, names'. apply Permutation_map.
    rewrite (objectValues_perm m1), (objectValues_perm m1').
    now apply Permutation_map. }
  assert (Hkeys : forall x, hasKey m1 x <-> hasKey m1' x).
  { intros x. unfold hasKey.
    split; apply Permutation_in; apply Permutation_map; [exact Hperm|now symmetry]. }
  destruct (secondPass_spec _ _ _ _ _ E) as [HF Hr].
  destruct (secondPass_spec _ _ _ _ _ E') as [HF' Hr'].
  fold names in HF, Hr. fold names' in HF', Hr'. simpl in Hr, Hr'.
  split.
  - intros k c c' Ho Ho'.
    apply own_hasKey in Ho. apply own_hasKey in Ho'.
    destruct (Forall2_In_r _ _ _ _ HF Ho) as ([k1 c1] & Hin1 & F1 & S1 & C1 & P1).
    destruct (Forall2_In_r _ _ _ _ HF' Ho') as ([k1' c1'] & Hin1' & F1' & S1' & C1' & P1').
    cbn [fst snd] in *. subst k1 k1'.
    assert (c1' = c1).
    { apply (NoDup_keys_unique m1 k); auto.
      apply (Permutation_in _ (Permutation_sym Hperm)). exact Hin1'. }
    subst c1'.
    destruct (Hp k c1 Hin1) as (_ & Hch & Hpar).
    split; [|split].
    + eapply sameScalars_trans; [apply sameScalars_sym; exact S1|exact S1'].
    + rewrite P1, P1', Hpar.
      rewrite (existsb_perm _ _ _ Hnames), (linkTarget_keys m1 m1' k Hkeys).
      reflexivity.
    + rewrite C1, C1', Hch. simpl.
      rewrite (filter_ext (isTarget m1' k) (isTarget m1 k))
        by (intros x; symmetry; now apply isTarget_keys).
      now apply Permutation_filter'.
  - rewrite Hr, Hr'.
    rewrite (filter_ext (isRoot m1') (isRoot m1))
      by (intros x; symmetry; now apply isRoot_keys).
    now apply Permutation_filter'.
Qed.

Lemma readForest_similar (m m' : Store) (fuel fuel' : nat)
  (roots roots' : list string) (trees trees' : list Node.t) :
  linkedAlike m m' -> Permutation roots roots' ->
  mapM (readNode fuel m) roots = Returns trees ->
  mapM (readNode fuel' m') roots' = Returns trees' ->
  similarForests trees trees'.
Proof.
  intros Hal Hp E E'. apply mapM_Forall2 in E. apply mapM_Forall2 in E'.
  destruct (Permutation_Forall2 Hp E) as (treesP & HtP & HFP).
  exists treesP. split; [now symmetry|].
  eapply Forall2_zip; [|exact HFP|exact E'].
  intros x y z _ Hy Hz. exact (readNode_similar m m' Hal _ _ _ _ _ Hy Hz).
Qed.

(** Two sequences of entries that are permutations of each other, in
    which entries of the same name are the same entry and every
    observed name comes before the observed names below it, give
    forests with the same node records. *)
Lemma organize_records_perm
  (l1 l2 : list Lineage.t) (nodeTypes : NodeTypes) (f1 f2 : list Node.t) :
  Permutation l1 l2 ->
  consistentNames l1 ->
  ancestorsFirst [] l1 = true ->
  ancestorsFirst [] l2 = true ->
  organizeLineageHierarchy l1 nodeTypes = Returns f1 ->
  organizeLineageHierarchy l2 nodeTypes = Returns f2 ->
  Permutation (forestRecords f1) (forestRecords f2).
Proof.
  intros Hperm Hc1 Ha1 Ha2.
  assert (Hc2 : consistentNames l2).
  { intros e e' He He'.
    apply Hc1; apply (Permutation_in _ (Permutation_sym Hperm)); assumption. }
  unfold organizeLineageHierarchy.
  destruct l1 as [|a1 r1]; destruct l2 as [|a2 r2].
  - intros [= <-] [= <-]. constructor.
  - now apply Permutation_nil in Hperm.
  - symmetry in Hperm. now apply Permutation_nil in Hperm.
  - set (L1 := a1 :: r1) in *. set (L2 := a2 :: r2) in *.
    destruct (foldM (addLineage nodeTypes) L1 []) as [m1| |] eqn:E1; cbn [bind];
      try discriminate.
    destruct (foldM (addLineage nodeTypes) L2 []) as [m1'| |] eqn:E1'; cbn [bind];
      try discriminate.
    destruct (foldM link (objectValues m1) (m1, [])) as [[m2 roots]| |] eqn:E2;
      cbn [bind]; try discriminate.
    destruct (foldM link (objectValues m1') (m1', [])) as [[m2' roots']| |] eqn:E2';
      cbn [bind]; try discriminate.
    destruct (mapM (readNode (budget m2) m2) roots) as [trees| |] eqn:E3;
      cbn [bind]; try discriminate.
    destruct (mapM (readNode (budget m2') m2') roots') as [trees'| |] eqn:E3';
      cbn [bind]; try discriminate.
    intros [= <-] [= <-].
    pose proof (firstPass_inv_start nodeTypes L1 m1 Hc1 Ha1 E1) as I1.
    pose proof (firstPass_inv_start nodeTypes L2 m1' Hc2 Ha2 E1') as I2.
    pose proof (firstPass_perm nodeTypes L1 L2 m1 m1' I1 I2 Hperm) as Hm.
    destruct (secondPass_alike m1 m1' m2 m2' roots roots'
                (firstPass_pristine _ _ _ E1) (firstPass_pristine _ _ _ E1')
                (inv_nodup _ _ _ I1) Hm E2 E2') as [Hal Hroots].
    pose proof (readForest_similar _ _ _ _ _ _ _ _ Hal Hroots E3 E3') as Hsim.
    apply similarForests_records.
    apply similarForests_map; [intros a b _; apply sortChildren_similar|].
    apply (similarForests_perm_l (map accNode trees));
      [symmetry; apply sortNodes_perm|].
    apply (similarForests_perm_r _ (map accNode trees'));
      [symmetry; apply sortNodes_perm|].
    apply similarForests_map; [|exact Hsim].
    intros a b _ Hab. exact (proj1 (accumulate_similar a b Hab)).
Qed.

(** C5 as stated fails, in two ways.  Of two entries named B the first
    one wins, so swapping them changes the counts of the node.  And an
    observed name that comes after one of the names below it finds the
    parent node already made for it and is dropped: B.1 before B leaves
    B with own count 0 and a generated colour. *)
Lemma order_changes_forest :
  (Permutation
     [Lineage.mk "B" 5 (1, 2, 3)%float; Lineage.mk "B" 3 (1, 2, 3)%float]
     [Lineage.mk "B" 3 (1, 2, 3)%float; Lineage.mk "B" 5 (1, 2, 3)%float]
   /\ organizeLineageHierarchy
        [Lineage.mk "B" 5 (1, 2, 3)%float; Lineage.mk "B" 3 (1, 2, 3)%float] None
      = Returns [Node.mk "B" 5 5 5 0 (1, 2, 3)%float [] false 0 None None]
   /\ organizeLineageHierarchy
        [Lineage.mk "B" 3 (1, 2, 3)%float; Lineage.mk "B" 5 (1, 2, 3)%float] None
      = Returns [Node.mk "B" 3 3 3 0 (1, 2, 3)%float [] false 0 None None]
   /\ ~ Permutation
          (forestRecords [Node.mk "B" 5 5 5 0 (1, 2, 3)%float [] false 0 None None])
          (forestRecords [Node.mk "B" 3 3 3 0 (1, 2, 3)%float [] false 0 None None]))
  /\
  (Permutation
     [Lineage.mk "B" 5 (1, 2, 3)%float; Lineage.mk "B.1" 3 (1, 2, 3)%float]
     [Lineage.mk "B.1" 3 (1, 2, 3)%float; Lineage.mk "B" 5 (1, 2, 3)%float]
   /\ organizeLineageHierarchy
        [Lineage.mk "B" 5 (1, 2, 3)%float; Lineage.mk "B.1" 3 (1, 2, 3)%float] None
      = Returns
          [Node.mk "B" 8 5 8 0 (1, 2, 3)%float
             [Node.mk "B.1" 3 3 3 0 (1, 2, 3)%float [] false 1 (Some "B") None]
             false 0 None (Some 8)]
   /\ organizeLineageHierarchy
        [Lineage.mk "B.1" 3 (1, 2, 3)%float; Lineage.mk "B" 5 (1, 2, 3)%float] None
      = Returns
          [Node.mk "B" 3 0 3 0 (40, 40, 200)%float
             [Node.mk "B.1" 3 3 3 0 (1, 2, 3)%float [] false 1 (Some "B") None]
             false 0 None (Some 3)]
   /\ ~ Permutation
          (forestRecords
             [Node.mk "B" 8 5 8 0 (1, 2, 3)%float
                [Node.mk "B.1" 3 3 3 0 (1, 2, 3)%float [] false 1 (Some "B") None]
                false 0 None (Some 8)])
          (forestRecords
             [Node.mk "B" 3 0 3 0 (40, 40, 200)%float
                [Node.mk "B.1" 3 3 3 0 (1, 2, 3)%float [] false 1 (Some "B") None]
                false 0 None (Some 3)])).
Proof.
  split.
  - split; [apply perm_swap|]. split; [vm_compute; reflexivity|].
    split; [vm_compute; reflexivity|].
    intros H. apply (Permutation_in ("B", 5, 5, 5, 0, (1, 2, 3)%float)) in H;
      [|left; reflexivity].
    destruct H as [H|[]]. discriminate H.
  - split; [apply perm_swap|]. split; [vm_compute; reflexivity|].
    split; [vm_compute; reflexivity|].
    intros H. apply (Permutation_in ("B", 8, 5, 8, 0, (1, 2, 3)%float)) in H;
      [|left; reflexivity].
    destruct H as [H|[H|[]]]; discriminate H.
Qed.

(** ** Scenarios *)

(** C2. The observations B (5), B.1 (3), B.1.1 (2), all samples, give
    one root B with own count 5 and total 10, whose only child B.1 has
    own count 3 and total 5, whose only child B.1.1 has own count 2 and
    total 2. *)
Theorem organize_chain_B (cB cB1 cB11 : RGB) :
  organizeLineageHierarchy
    [Lineage.mk "B" 5 cB; Lineage.mk "B.1" 3 cB1; Lineage.mk "B.1.1" 2 cB11] None
  = Returns
      [Node.mk "B" 10 5 10 0 cB
         [Node.mk "B.1" 5 3 5 0 cB1
            [Node.mk "B.1.1" 2 2 2 0 cB11 [] false 2 (Some "B.1") None]
            false 1 (Some "B") (Some 5)]
         false 0 None (Some 10)].
Proof. vm_compute. reflexivity. Qed.

(** C3. The single observation AY.4 (7) gives one root AY, which is
    not in the input: own count 0, total 7, coloured by the colour
    function from the name alone; its single child is AY.4 with own
    count 7 and total 7. *)
Theorem organize_synthesizes_AY (c : RGB) :
  Color.generatePangoLineageColor "AY" None = Returns (240, 100, 60)%float
  /\ organizeLineageHierarchy [Lineage.mk "AY.4" 7 c] None
     = Returns
         [Node.mk "AY" 7 0 7 0 (240, 100, 60)%float
            [Node.mk "AY.4" 7 7 7 0 c [] false 1 (Some "AY") None]
            false 0 None (Some 7)].
Proof. split; vm_compute; reflexivity. Qed.

(** C9, evaluated. With prevalence data the colour of a root is
    returned before any vibrancy check: the root BS, one observation
    among 1001, comes out as (90, 114, 114), which [isGrayish] calls
    gray. *)
Theorem prevalence_root_color_is_grayish :
  exists forest,
    organizeLineageHierarchy
      [Lineage.mk "BS" 1 (0, 0, 0)%float; Lineage.mk "B" 1000 (0, 0, 0)%float] None
    = Returns forest
    /\ Color.generatePangoLineageColor "BS"
         (Some (mkLineageData (Some forest) None))
       = Returns (90, 114, 114)%float
    /\ Color.isGrayish (90, 114, 114)%float = true.
Proof.
  eexists. split; [vm_compute; reflexivity|].
  split; vm_compute; reflexivity.
Qed.

(* ================================================================== *)
(** * Further properties *)

(** ** Splitting and joining *)

Lemma split_app_dot (a b : string) :
  Js.split "." (a ++ String "." b) = (Js.split "." a ++ Js.split "." b)%list.
Proof.
  induction a as [|x a IH]; [reflexivity|].
  change (String x a ++ String "." b) with (String x (a ++ String "." b)).
  cbn [Js.split]. rewrite IH.
  destruct (Ascii.eqb x "."); [reflexivity|].
  destruct (Js.split "." a) as [|h t] eqn:E; [now apply split_not_nil in E|].
  reflexivity.
Qed.

Lemma split_dotFree (s : string) : Forall dotFree (Js.split "." s).
Proof.
  induction s as [|a s IH]; cbn [Js.split].
  - constructor; [reflexivity|constructor].
  - destruct (Ascii.eqb a ".") eqn:Ea.
    + constructor; [reflexivity|exact IH].
    + destruct (Js.split "." s) as [|h t] eqn:E; [now apply split_not_nil in E|].
      inversion IH as [|? ? Hh Ht]; subst. constructor; [|exact Ht].
      unfold dotFree in *. cbn [Js.indexOf]. rewrite Ea, Hh. reflexivity.
Qed.

Lemma join_snoc (sep : string) (l : list string) (x : string) :
  l <> [] -> Js.join sep (l ++ [x]) = Js.join sep l ++ sep ++ x.
Proof.
  induction l as [|y l IH]; [contradiction|]. intros _.
  destruct l as [|z l]; [reflexivity|].
  change ((y :: z :: l) ++ [x])%list with (y :: ((z :: l) ++ [x]))%list.
  change (((z :: l) ++ [x]))%list with (z :: (l ++ [x]))%list at 1.
  rewrite join_cons2.
  change (z :: (l ++ [x]))%list with ((z :: l) ++ [x])%list.
  rewrite IH by discriminate. rewrite join_cons2.
  now rewrite !append_assoc'.
Qed.

Lemma join_app (sep : string) (l1 l2 : list string) :
  l1 <> [] -> l2 <> [] ->
  Js.join sep (l1 ++ l2) = Js.join sep l1 ++ sep ++ Js.join sep l2.
Proof.
  intros H1 H2. revert l1 H1.
  induction l2 as [|x l2 IH] using rev_ind; [contradiction|]. intros l1 H1.
  destruct l2 as [|y l2].
  - simpl. now apply join_snoc.
  - rewrite app_assoc, join_snoc.
    + rewrite IH by (auto; discriminate).
      rewrite (join_snoc sep (y :: l2) x) by discriminate.
      now rewrite !append_assoc'.
    + destruct l1; [contradiction|discriminate].
Qed.

Lemma split_join (l : list string) :
  l <> [] -> Forall dotFree l -> Js.split "." (Js.join "." l) = l.
Proof.
  induction l as [|x l IH]; [contradiction|]. intros _ H.
  inversion H as [|? ? Hx Hl]; subst.
  destruct l as [|y l].
  - simpl. now apply split_no_sep.
  - rewrite join_cons2.
    change (x ++ "." ++ Js.join "." (y :: l)) with (x ++ String "." (Js.join "." (y :: l))).
    rewrite split_app_dot, IH by (auto; discriminate).
    now rewrite (split_no_sep "." x Hx).
Qed.

Lemma startsWith_iff (s p : string) :
  Js.startsWith s p = true <-> exists rest, s = p ++ rest.
Proof.
  revert s. induction p as [|a p IH]; intros s.
  - destruct s; simpl; split; eauto.
  - destruct s as [|b s]; simpl.
    + split; [discriminate|]. intros [rest E]. discriminate.
    + rewrite andb_true_iff, IH. split.
      * intros [Ha [rest ->]]. apply Ascii.eqb_eq in Ha. subst. eauto.
      * intros [rest E]. injection E as -> ->. split; [apply Ascii.eqb_refl|eauto].
Qed.

Lemma firstn_removelast {A} (l : list A) :
  firstn (List.length l - 1) l = removelast l.
Proof.
  induction l as [|x l IH]; [reflexivity|].
  destruct l as [|y l]; [reflexivity|].
  replace (List.length (x :: y :: l) - 1)%nat with (S (List.length (y :: l) - 1))
    by (simpl; lia).
  cbn [firstn]. rewrite IH. reflexivity.
Qed.

Lemma removelast_last_eq {A} (l : list A) (d : A) :
  l <> [] -> l = (removelast l ++ [List.last l d])%list.
Proof. intros H. now apply app_removelast_last. Qed.

(** ** The parser: parent, segments and level *)

Lemma parse_parts (name : string) :
  name <> EmptyString -> parts (parseLineageName name) = Js.split "." name.
Proof. intros H. now rewrite parseLineageName_plain. Qed.

Lemma parse_parent (name : string) :
  name <> EmptyString ->
  parent (parseLineageName name)
  = if (1 <? List.length (Js.split "." name))%nat
    then Some (Js.join "." (removelast (Js.split "." name)))
    else None.
Proof.
  intros H. rewrite parseLineageName_plain by exact H.
  unfold plainParse. cbn [parent]. unfold Js.alen, Js.slice0.
  set (l := Js.split "." name).
  replace (Z.to_nat (Z.of_nat (List.length l) - 1)) with (List.length l - 1)%nat by lia.
  rewrite firstn_removelast.
  destruct (Z.ltb_spec 1 (Z.of_nat (List.length l)));
    destruct (Nat.ltb_spec 1 (List.length l)); try reflexivity; lia.
Qed.

Lemma parse_parent_some (name p : string) :
  parent (parseLineageName name) = Some p ->
  name <> EmptyString
  /\ (1 < List.length (Js.split "." name))%nat
  /\ p = Js.join "." (removelast (Js.split "." name)).
Proof.
  intros H. assert (Hne : name <> EmptyString) by (intros ->; discriminate).
  split; [exact Hne|]. rewrite (parse_parent name Hne) in H.
  destruct (Nat.ltb_spec 1 (List.length (Js.split "." name))); [|discriminate].
  injection H as <-. auto.
Qed.

Lemma removelast_nonempty {A} (l : list A) :
  (1 < List.length l)%nat -> removelast l <> [].
Proof.
  destruct l as [|x [|y l]]; simpl; intros H; try lia. discriminate.
Qed.

Lemma Forall_removelast {A} (P : A -> Prop) (l : list A) :
  Forall P l -> Forall P (removelast l).
Proof.
  induction 1 as [|x l Hx Hl IH]; [constructor|].
  destruct l; [constructor|]. simpl. constructor; auto.
Qed.

(** X1. When the parser gives a name a parent, the parent followed by a
    dot and the last segment is the name again; and the segments of a
    non-empty parent are the segments of the name without the last. *)
Theorem parent_round_trip (name p : string) :
  parent (parseLineageName name) = Some p ->
  name = p ++ "." ++ List.last (parts (parseLineageName name)) EmptyString
  /\ (p <> EmptyString ->
      parts (parseLineageName p) = removelast (parts (parseLineageName name))).
Proof.
  intros H. destruct (parse_parent_some name p H) as (Hne & Hlen & ->).
  rewrite (parse_parts name Hne). set (l := Js.split "." name) in *.
  assert (Hl : l <> []) by (destruct l; [simpl in Hlen; lia|discriminate]).
  split.
  - rewrite <- join_snoc by now apply removelast_nonempty.
    rewrite <- (removelast_last_eq l EmptyString Hl).
    symmetry. apply join_split.
  - intros Hp. rewrite (parse_parts _ Hp).
    apply split_join; [now apply removelast_nonempty|].
    apply Forall_removelast, split_dotFree.
Qed.

Lemma parent_round_trip_witness :
  "XBB.1.5" = "XBB.1" ++ "." ++ List.last (parts (parseLineageName "XBB.1.5")) EmptyString
  /\ ("XBB.1" <> EmptyString ->
      parts (parseLineageName "XBB.1") = removelast (parts (parseLineageName "XBB.1.5"))).
Proof. apply (parent_round_trip "XBB.1.5" "XBB.1"). reflexivity. Defined.

(** ** The chain of parents *)

Lemma growParents_prefixes (rest : list string) :
  forall pre, pre <> [] ->
    growParents (Js.join "." pre) rest
    = map (fun k => Js.join "." (firstn k (pre ++ rest)))
          (seq (S (List.length pre)) (List.length rest)).
Proof.
  induction rest as [|p rest IH]; intros pre Hpre; [reflexivity|].
  cbn [growParents List.length seq map].
  rewrite <- (join_snoc "." pre p Hpre).
  rewrite (IH (pre ++ [p])%list) by (destruct pre; discriminate).
  rewrite length_app. cbn [List.length]. rewrite Nat.add_1_r.
  rewrite <- app_assoc. cbn [app]. f_equal.
  replace (S (List.length pre)) with (List.length (pre ++ [p]) + 0)%nat
    by (rewrite length_app; simpl; lia).
  change (pre ++ p :: rest)%list with (pre ++ [p] ++ rest)%list.
  rewrite app_assoc, firstn_app_2. cbn [firstn]. now rewrite app_nil_r.
Qed.

Lemma parents_prefixJoins (first : string) (rest : list string) :
  first :: growParents first rest = prefixJoins (first :: rest).
Proof.
  unfold prefixJoins. cbn [List.length seq map firstn]. f_equal.
  exact (growParents_prefixes rest [first] ltac:(discriminate)).
Qed.

Lemma parentSegments_split (name : string) :
  Js.truthy name = true ->
  (if Re.run Re.multiLetterRootPattern name then
     if 0 <? Js.indexOf "." name then
       Js.substring 0 (Js.indexOf "." name) name
         :: Js.split "." (Js.substringFrom (Js.indexOf "." name + 1) name)
     else [name]
   else Js.split "." name) = Js.split "." name.
Proof.
  intros Ht. destruct (Re.run Re.multiLetterRootPattern name) eqn:Hre; [|reflexivity].
  destruct (Z.ltb_spec 0 (Js.indexOf "." name)) as [Hpos|Hnpos].
  - now apply root_and_rest_is_split.
  - pose proof (multiLetterRoot_index name Hre).
    destruct (indexOf_range "." name) as [E|E]; [|lia].
    now rewrite (split_no_sep "." name E).
Qed.

Lemma getAllParentLineages_prefixes (name : string) :
  getAllParentLineages name
  = if Js.truthy name then removelast (prefixJoins (Js.split "." name)) else [].
Proof.
  unfold getAllParentLineages. destruct (Js.truthy name) eqn:Ht; [|reflexivity].
  cbn [negb]. cbv zeta. rewrite (parentSegments_split name Ht).
  destruct (Js.split "." name) as [|first rest] eqn:E; [now apply split_not_nil in E|].
  now rewrite parents_prefixJoins.
Qed.

Lemma prefixJoins_snoc (l : list string) (x : string) :
  prefixJoins (l ++ [x]) = (prefixJoins l ++ [Js.join "." (l ++ [x])])%list.
Proof.
  unfold prefixJoins. rewrite length_app. cbn [List.length].
  rewrite Nat.add_1_r, seq_S, map_app. cbn [map]. f_equal.
  - apply map_ext_in. intros k Hk. apply in_seq in Hk.
    rewrite firstn_app. replace (k - List.length l)%nat with 0%nat by lia.
    cbn [firstn]. now rewrite app_nil_r.
  - f_equal. f_equal. replace (1 + List.length l)%nat with (List.length (l ++ [x]))
      by (rewrite length_app; simpl; lia).
    apply firstn_all.
Qed.

Lemma removelast_prefixJoins (l : list string) :
  removelast (prefixJoins l) = prefixJoins (removelast l).
Proof.
  destruct l as [|x l] using rev_ind; [reflexivity|].
  rewrite prefixJoins_snoc, !removelast_last. reflexivity.
Qed.

Lemma parents_chain (name : string) :
  match parent (parseLineageName name) with
  | None => getAllParentLineages name = []
  | Some p => getAllParentLineages name = (getAllParentLineages p ++ [p])%list
  end.
Proof.
  destruct (parent (parseLineageName name)) as [p|] eqn:Ep.
  - destruct (parse_parent_some name p Ep) as (Hne & Hlen & ->).
    rewrite (getAllParentLineages_prefixes name).
    assert (Ht : Js.truthy name = true) by (destruct name; [contradiction|reflexivity]).
    rewrite Ht, removelast_prefixJoins.
    set (l' := removelast (Js.split "." name)).
    assert (Hl' : l' <> []) by now apply removelast_nonempty.
    assert (Hd : Forall dotFree l') by apply Forall_removelast, split_dotFree.
    rewrite (getAllParentLineages_prefixes (Js.join "." l')).
    rewrite (removelast_last_eq l' EmptyString Hl') at 1.
    rewrite prefixJoins_snoc, <- (removelast_last_eq l' EmptyString Hl').
    f_equal. destruct (Js.truthy (Js.join "." l')) eqn:Htp.
    + rewrite (split_join l' Hl' Hd), removelast_prefixJoins. reflexivity.
    + (* the parent is the empty name: one empty segment *)
      assert (Ej : Js.join "." l' = EmptyString)
        by (destruct (Js.join "." l'); [reflexivity|discriminate]).
      pose proof (split_join l' Hl' Hd) as Es. rewrite Ej in Es. simpl in Es.
      rewrite <- Es. reflexivity.
  - destruct name as [|a s]; [reflexivity|].
    rewrite (parse_parent (String a s)) in Ep by discriminate.
    rewrite getAllParentLineages_prefixes. cbn [Js.truthy].
    destruct (Nat.ltb_spec 1 (List.length (Js.split "." (String a s)))) as [|Hle];
      [discriminate|].
    pose proof (split_not_nil "." (String a s)) as Hnn.
    destruct (Js.split "." (String a s)) as [|x [|y l]];
      [congruence|reflexivity|simpl in Hle; lia].
Qed.

(** X2. [getAllParentLineages] returns the chain of parser parents, the
    root first: nothing for a name without a parent, and otherwise the
    chain of the parent followed by the parent itself. *)
Theorem getAllParentLineages_chain (name : string) :
  match parent (parseLineageName name) with
  | None => getAllParentLineages name = []
  | Some p => getAllParentLineages name = (getAllParentLineages p ++ [p])%list
  end.
Proof. exact (parents_chain name). Qed.

(** ** Level *)

Lemma prefixJoins_length (l : list string) : List.length (prefixJoins l) = List.length l.
Proof. unfold prefixJoins. now rewrite length_map, length_seq. Qed.

Lemma removelast_length {A} (l : list A) :
  List.length (removelast l) = (List.length l - 1)%nat.
Proof.
  induction l as [|x l IH]; [reflexivity|].
  destruct l; [reflexivity|]. cbn [removelast List.length] in *. rewrite IH. lia.
Qed.

Lemma getLineageLevel_split (name : string) :
  name <> EmptyString ->
  getLineageLevel name = Z.of_nat (List.length (Js.split "." name)) - 1.
Proof.
  intros Hne. unfold getLineageLevel.
  assert (Ht : Js.truthy name = true) by (destruct name; [contradiction|reflexivity]).
  rewrite Ht. cbn [negb].
  destruct (Re.run Re.multiLetterRootPattern name) eqn:Hre.
  - destruct (Z.eqb_spec (Js.indexOf "." name) (-1)) as [E|E]; [|reflexivity].
    now rewrite (split_no_sep "." name E).
  - now rewrite (parse_parts name Hne).
Qed.

(** X3. The level of a name is the number of its parent lineages: 0
    for a name without a parent, and one more than the level of the
    parent otherwise. *)
Theorem level_counts_parents (name : string) :
  getLineageLevel name = Z.of_nat (List.length (getAllParentLineages name))
  /\ match parent (parseLineageName name) with
     | Some p => getLineageLevel name = getLineageLevel p + 1
     | None => getLineageLevel name = 0
     end.
Proof.
  assert (H : forall n, getLineageLevel n = Z.of_nat (List.length (getAllParentLineages n))).
  { intros n. destruct n as [|a s]; [reflexivity|].
    rewrite getLineageLevel_split by discriminate.
    rewrite getAllParentLineages_prefixes. cbn [Js.truthy].
    rewrite removelast_length, prefixJoins_length.
    pose proof (split_not_nil "." (String a s)).
    destruct (Js.split "." (String a s)); [congruence|]. simpl List.length. lia. }
  split; [apply H|].
  pose proof (parents_chain name) as Hc.
  destruct (parent (parseLineageName name)) as [p|].
  - rewrite (H name), (H p), Hc, length_app. simpl. lia.
  - now rewrite (H name), Hc.
Qed.

(** ** Ancestors and the prefix test *)

Lemma getAllParentLineages_seq (name : string) :
  Js.truthy name = true ->
  getAllParentLineages name
  = map (fun k => Js.join "." (firstn k (Js.split "." name)))
        (seq 1 (List.length (Js.split "." name) - 1)).
Proof.
  intros Ht. rewrite getAllParentLineages_prefixes, Ht. unfold prefixJoins.
  pose proof (split_not_nil "." name) as Hnn.
  destruct (List.length (Js.split "." name)) as [|n] eqn:En.
  - destruct (Js.split "." name); [congruence|discriminate].
  - rewrite seq_S, map_app. cbn [map]. rewrite removelast_last.
    now replace (S n - 1)%nat with n by lia.
Qed.

Lemma ancestor_iff_prefix (a b : string) :
  In b (getAllParentLineages a) <-> Js.startsWith a (b ++ ".") = true.
Proof.
  rewrite startsWith_iff. split.
  - intros Hin.
    assert (Ht : Js.truthy a = true).
    { destruct a; [|reflexivity]. destruct Hin. }
    rewrite (getAllParentLineages_seq a Ht) in Hin.
    apply in_map_iff in Hin. destruct Hin as (k & <- & Hk). apply in_seq in Hk.
    set (l := Js.split "." a) in *.
    exists (Js.join "." (skipn k l)).
    rewrite append_assoc'. rewrite <- join_app.
    + rewrite firstn_skipn. symmetry. apply join_split.
    + intros E. apply (f_equal (@List.length string)) in E.
      rewrite length_firstn in E. simpl in E. lia.
    + intros E. apply (f_equal (@List.length string)) in E.
      rewrite length_skipn in E. simpl in E. lia.
  - intros [rest ->]. rewrite append_assoc'.
    change ("." ++ rest) with (String "." rest).
    assert (Ht : Js.truthy (b ++ String "." rest) = true) by (destruct b; reflexivity).
    rewrite (getAllParentLineages_seq _ Ht), split_app_dot.
    apply in_map_iff. exists (List.length (Js.split "." b)). split.
    + rewrite firstn_app, Nat.sub_diag, firstn_all. cbn [firstn].
      rewrite app_nil_r. apply join_split.
    + apply in_seq. rewrite length_app.
      pose proof (split_not_nil "." b). pose proof (split_not_nil "." rest).
      destruct (Js.split "." b); [congruence|].
      destruct (Js.split "." rest); [congruence|]. simpl. lia.
Qed.

Lemma relationship_prefix (a b : string) :
  (checkLineageRelationship a b = Some RelChild
   <-> b <> EmptyString /\ Js.startsWith a (b ++ ".") = true)
  /\ (checkLineageRelationship a b = Some RelParent
      <-> a <> EmptyString /\ Js.startsWith b (a ++ ".") = true).
Proof.
  unfold checkLineageRelationship.
  assert (Hempty : forall s, Js.startsWith EmptyString (s ++ ".") = false)
    by (intros s; destruct s; reflexivity).
  destruct a as [|x a]; destruct b as [|y b]; cbn [Js.truthy negb orb].
  - split; (split; [discriminate|intros [H _]; congruence]).
  - rewrite Hempty.
    split; (split; [discriminate|intros [H H']; try congruence; discriminate]).
  - rewrite Hempty.
    split; (split; [discriminate|intros [H H']; try congruence; discriminate]).
  - set (A := String x a). set (B := String y b).
    assert (HA : A <> EmptyString) by discriminate.
    assert (HB : B <> EmptyString) by discriminate.
    assert (Hlen1 : Js.startsWith A (B ++ ".") = true ->
                    (String.length B < String.length A)%nat)
      by apply startsWith_dot_longer.
    assert (Hlen2 : Js.startsWith B (A ++ ".") = true ->
                    (String.length A < String.length B)%nat)
      by apply startsWith_dot_longer.
    destruct (String.eqb_spec A B) as [E|Hne].
    + split; (split; [discriminate|]).
      * intros [_ H]. apply Hlen1 in H. rewrite E in H. lia.
      * intros [_ H]. apply Hlen2 in H. rewrite E in H. lia.
    + destruct (Js.startsWith A (B ++ ".")) eqn:Hab.
      * split; split.
        -- intros _. split; [exact HB|reflexivity].
        -- reflexivity.
        -- discriminate.
        -- intros [_ Hba]. specialize (Hlen1 eq_refl). apply Hlen2 in Hba. lia.
      * destruct (Js.startsWith B (A ++ ".")) eqn:Hba.
        -- split; split.
           ++ discriminate.
           ++ intros [_ H]. discriminate.
           ++ intros _. split; [exact HA|reflexivity].
           ++ reflexivity.
        -- split; (split; [discriminate|intros [_ H]; discriminate]).
Qed.

(** X4. The relationship test agrees with the parent chains the
    hierarchy builder works with: a name is reported as a child of a
    non-empty reference exactly when the reference is one of its parent
    lineages, and as a parent exactly when it is one of the parent
    lineages of the reference. *)
Theorem relationship_is_ancestry (a b : string) :
  (checkLineageRelationship a b = Some RelChild
   <-> b <> EmptyString /\ In b (getAllParentLineages a))
  /\ (checkLineageRelationship a b = Some RelParent
      <-> a <> EmptyString /\ In a (getAllParentLineages b)).
Proof. rewrite !ancestor_iff_prefix. apply relationship_prefix. Qed.

(** X5. Being reported as a child is transitive. *)
Theorem relationship_child_transitive (a b c : string) :
  checkLineageRelationship a b = Some RelChild ->
  checkLineageRelationship b c = Some RelChild ->
  checkLineageRelationship a c = Some RelChild.
Proof.
  intros Hab Hbc.
  apply (proj1 (relationship_prefix a b)) in Hab. destruct Hab as [Hb Hab].
  apply (proj1 (relationship_prefix b c)) in Hbc. destruct Hbc as [Hc Hbc].
  apply (proj1 (relationship_prefix a c)). split; [exact Hc|].
  apply startsWith_iff in Hab. apply startsWith_iff in Hbc.
  apply startsWith_iff. destruct Hab as [r1 ->]. destruct Hbc as [r2 ->].
  exists (r2 ++ "." ++ r1). now rewrite !append_assoc'.
Qed.

Lemma relationship_child_transitive_witness :
  checkLineageRelationship "AY.4.2" "AY" = Some RelChild.
Proof.
  apply (relationship_child_transitive "AY.4.2" "AY.4" "AY"); reflexivity.
Defined.

(** ** Direct children *)

Lemma segmentsMatch_firstn (ps cs : list string) :
  segmentsMatch ps cs = true <-> firstn (List.length ps) cs = ps.
Proof.
  revert cs. induction ps as [|p ps IH]; intros cs; [simpl; tauto|].
  destruct cs as [|c cs]; cbn [segmentsMatch List.length firstn].
  - split; discriminate.
  - destruct (String.eqb_spec p c) as [->|Hne]; cbn [negb].
    + rewrite IH. split; [intros ->; reflexivity|intros [= ?]; assumption].
    + split; [discriminate|]. intros [= ? ?]. congruence.
Qed.

Lemma Forall_firstn' {A} (P : A -> Prop) (n : nat) (l : list A) :
  Forall P l -> Forall P (firstn n l).
Proof.
  intros H. rewrite Forall_forall in *. intros x Hx. apply H.
  rewrite <- (firstn_skipn n l). apply in_or_app. now left.
Qed.

Lemma isDirectChild_split (c p : string) :
  c <> EmptyString -> p <> EmptyString ->
  isDirectChild c p = true <->
  List.length (Js.split "." c) = S (List.length (Js.split "." p))
  /\ firstn (List.length (Js.split "." p)) (Js.split "." c) = Js.split "." p.
Proof.
  intros Hc Hp. unfold isDirectChild.
  assert (Htc : Js.truthy c = true) by (destruct c; [contradiction|reflexivity]).
  assert (Htp : Js.truthy p = true) by (destruct p; [contradiction|reflexivity]).
  rewrite Htc, Htp. cbn [negb orb].
  destruct (extractLineageRoot_split c Hc) as [Ec1 Ec2].
  destruct (extractLineageRoot_split p Hp) as [Ep1 Ep2].
  rewrite !(parse_parts _ Hc), !(parse_parts _ Hp).
  set (lc := Js.split "." c) in *. set (lp := Js.split "." p) in *.
  assert (Hlp : lp <> []) by apply split_not_nil.
  assert (Hlen : (Js.alen lc =? Js.alen lp + 1) = true
                 <-> List.length lc = S (List.length lp)).
  { unfold Js.alen. rewrite Z.eqb_eq. lia. }
  destruct (Re.run Re.multiLetterRootPattern c).
  - destruct (extractLineageRoot c) as [rc pc]. destruct (extractLineageRoot p) as [rp pp].
    cbn [nameParts rootLineage] in *. subst rc pc rp pp. cbn [sameRoot].
    unfold Js.slice0, Js.alen in *. rewrite Nat2Z.id.
    split.
    + destruct (String.eqb_spec (hd EmptyString lc) (hd EmptyString lp)); cbn [negb];
        [|discriminate].
      intros H. apply andb_prop in H. destruct H as [H1 H2].
      apply Hlen in H1. split; [exact H1|].
      apply String.eqb_eq in H2.
      apply (f_equal (Js.split ".")) in H2.
      rewrite (split_join lp Hlp (split_dotFree p)) in H2.
      rewrite split_join in H2; [exact H2| |].
      * intros E. apply (f_equal (@List.length string)) in E.
        rewrite length_firstn in E. cbn [List.length] in E.
        assert (List.length lp <> 0%nat) by (destruct lp; [congruence|discriminate]).
        lia.
      * apply Forall_firstn', split_dotFree.
    + intros [H1 H2].
      assert (Hhd : hd EmptyString lc = hd EmptyString lp).
      { rewrite <- H2. destruct lp; [congruence|]. destruct lc; reflexivity. }
      rewrite Hhd, String.eqb_refl. cbn [negb].
      apply andb_true_intro. split; [now apply Hlen|].
      rewrite H2. apply String.eqb_refl.
  - destruct (Js.alen lc =? Js.alen lp + 1) eqn:El; cbn [negb].
    + rewrite segmentsMatch_firstn. split; [intros H; split; [now apply Hlen|exact H]|tauto].
    + split; [discriminate|]. intros [H _]. apply Hlen in H. congruence.
Qed.

(** X6. [isDirectChild] agrees with the parser: a name is a direct
    child of a non-empty name exactly when that name is its parsed
    parent. *)
Theorem isDirectChild_is_parent (c p : string) :
  isDirectChild c p = true
  <-> p <> EmptyString /\ parent (parseLineageName c) = Some p.
Proof.
  destruct p as [|y p'].
  - split; [|intros [H _]; congruence].
    unfold isDirectChild. rewrite orb_true_r. discriminate.
  - set (p := String y p'). assert (Hp : p <> EmptyString) by discriminate.
    destruct c as [|x c'].
    + split; [discriminate|]. intros [_ H]. discriminate.
    + set (c := String x c'). assert (Hc : c <> EmptyString) by discriminate.
      rewrite (isDirectChild_split c p Hc Hp), (parse_parent c Hc).
      set (lc := Js.split "." c). set (lp := Js.split "." p).
      assert (Hlp : lp <> []) by apply split_not_nil.
      split.
      * intros [H1 H2]. split; [exact Hp|].
        destruct (Nat.ltb_spec 1 (List.length lc)) as [_|Hle].
        -- f_equal. rewrite <- firstn_removelast, H1.
           replace (S (List.length lp) - 1)%nat with (List.length lp) by lia.
           rewrite H2. apply join_split.
        -- destruct lp; [congruence|]. simpl in H1. lia.
      * intros [_ H].
        destruct (Nat.ltb_spec 1 (List.length lc)) as [Hlt|_]; [|discriminate].
        injection H as H.
        assert (Hs : lp = removelast lc).
        { unfold lp. rewrite <- H. apply split_join.
          - now apply removelast_nonempty.
          - apply Forall_removelast, split_dotFree. }
        rewrite Hs, removelast_length. split; [lia|].
        now rewrite firstn_removelast.
Qed.

(** ** The builder as a pipeline *)

Lemma organize_pipeline (lineages : list Lineage.t) (nodeTypes : NodeTypes)
  (forest : list Node.t) :
  organizeLineageHierarchy lineages nodeTypes = Returns forest ->
  exists m1 m2 roots trees,
    foldM (addLineage nodeTypes) lineages [] = Returns m1
    /\ foldM link (objectValues m1) (m1, []) = Returns (m2, roots)
    /\ mapM (readNode (budget m2) m2) roots = Returns trees
    /\ forest = map sortChildren (sortNodes (map accNode trees)).
Proof.
  unfold organizeLineageHierarchy. destruct lineages as [|e0 rest].
  - intros [= <-]. exists [], [], [], []. repeat split; reflexivity.
  - set (ls := e0 :: rest).
    destruct (foldM (addLineage nodeTypes) ls []) as [m1| |] eqn:E1; cbn [bind];
      try discriminate.
    destruct (foldM link (objectValues m1) (m1, [])) as [[m2 roots]| |] eqn:E2;
      cbn [bind]; try discriminate.
    destruct (mapM (readNode (budget m2) m2) roots) as [trees| |] eqn:E3; cbn [bind];
      try discriminate.
    intros [= <-]. exists m1, m2, roots, trees. repeat split; assumption || reflexivity.
Qed.

Lemma everyNode_impl (P Q : Node.t -> Prop) (n : Node.t) :
  (forall x, P x -> Q x) -> everyNode P n -> everyNode Q n.
Proof.
  intros H. induction n as [n IH] using Node_ind'. intros Hn.
  apply everyNode_unfold in Hn. destruct Hn as [Hp Hk].
  apply everyNode_unfold. split; [now apply H|].
  rewrite Forall_forall in *. intros k Hin. apply (IH k Hin). now apply Hk.
Qed.

Lemma everyNode_and (P Q : Node.t -> Prop) (n : Node.t) :
  everyNode P n -> everyNode Q n -> everyNode (fun x => P x /\ Q x) n.
Proof.
  induction n as [n IH] using Node_ind'. intros Hp Hq.
  apply everyNode_unfold in Hp. apply everyNode_unfold in Hq.
  destruct Hp as [Hp Hpk]. destruct Hq as [Hq Hqk].
  apply everyNode_unfold. split; [auto|].
  rewrite Forall_forall in *. intros k Hin. apply (IH k Hin); auto.
Qed.

(** A property that reading establishes on every node, that the
    bottom-up pass turns into [Q] and that sorting keeps, holds on every
    node of the returned forest. *)
Lemma forest_property (P Q : Node.t -> Prop) (trees : list Node.t) :
  (forall t, everyNode P t -> everyNode Q (accNode t)) ->
  (forall t, everyNode Q t -> everyNode Q (sortChildren t)) ->
  Forall (everyNode P) trees ->
  Forall (everyNode Q) (map sortChildren (sortNodes (map accNode trees))).
Proof.
  intros Hacc Hsort Htrees. rewrite Forall_map.
  eapply Permutation_Forall; [symmetry; apply sortNodes_perm|].
  rewrite Forall_map. eapply Forall_impl; [|exact Htrees].
  intros t Ht. apply Hsort, Hacc, Ht.
Qed.

Lemma organize_trees_fresh (nodeTypes : NodeTypes) (lineages : list Lineage.t)
  (m1 m2 : Store) (roots : list string) (trees : list Node.t) :
  foldM (addLineage nodeTypes) lineages [] = Returns m1 ->
  foldM link (objectValues m1) (m1, []) = Returns (m2, roots) ->
  mapM (readNode (budget m2) m2) roots = Returns trees ->
  Forall (everyNode fresh) trees.
Proof.
  intros E1 E2 E3.
  assert (B1 : balanced m1).
  { eapply (foldM_invariant (addLineage nodeTypes) balanced); [|constructor|exact E1].
    intros s a s'. apply addLineage_balanced. }
  assert (B2 : balanced m2).
  { apply (foldM_invariant link (fun st => balanced (fst st)) link_balanced
             _ (m1, []) (m2, roots) B1 E2). }
  apply mapM_Forall2 in E3. clear E2.
  induction E3 as [|r t rs ts Hrt _ IH]; constructor; [|exact IH].
  exact (readNode_fresh m2 B2 _ _ _ Hrt).
Qed.

(** ** Totals are sums over the subtree *)

Lemma sumOwn_app (l1 l2 : list Node.t) : sumOwn (l1 ++ l2) = sumOwn l1 + sumOwn l2.
Proof. induction l1 as [|x l1 IH]; simpl; [reflexivity|]. rewrite IH. lia. Qed.

Lemma sumCounts_subtrees (ks : list Node.t) :
  Forall (fun k => Node.count k = sumOwn (nodesOf k)) ks ->
  sumCounts ks = sumOwn (flat_map nodesOf ks).
Proof.
  induction 1 as [|k ks Hk _ IH]; [reflexivity|].
  cbn [flat_map]. rewrite sumOwn_app, <- IH, <- Hk. reflexivity.
Qed.

Lemma aggregated_subtree (n : Node.t) :
  everyNode aggregated n -> Node.count n = sumOwn (nodesOf n).
Proof.
  induction n as [n IH] using Node_ind'. intros H.
  apply everyNode_unfold in H. destruct H as [Hn Hk].
  rewrite nodesOf_unfold. unfold sumOwn at 1. cbn [fold_right].
  fold (sumOwn (flat_map nodesOf (Node.children n))).
  unfold aggregated in Hn. rewrite Hn. f_equal.
  apply sumCounts_subtrees. rewrite Forall_forall in *.
  intros k Hin. apply (IH k Hin), Hk, Hin.
Qed.

Lemma everyNode_nodesOf (P : Node.t -> Prop) (n : Node.t) :
  everyNode P n <-> Forall P (nodesOf n).
Proof.
  induction n as [n IH] using Node_ind'.
  rewrite everyNode_unfold, nodesOf_unfold. rewrite Forall_forall in IH. split.
  - intros [Hn Hk]. constructor; [exact Hn|].
    rewrite Forall_forall in *. intros x Hx. apply in_flat_map in Hx.
    destruct Hx as (k & Hkin & Hx).
    pose proof (proj1 (IH k Hkin) (Hk k Hkin)) as Hf.
    rewrite Forall_forall in Hf. now apply Hf.
  - intros H. inversion H as [|? ? Hn Hrest]; subst. split; [exact Hn|].
    rewrite Forall_forall in *. intros k Hkin. apply (IH k Hkin).
    rewrite Forall_forall. intros x Hx. apply Hrest. apply in_flat_map. eauto.
Qed.

Lemma everyNode_subtree (P : Node.t -> Prop) (n : Node.t) :
  everyNode P n -> everyNode (everyNode P) n.
Proof.
  induction n as [n IH] using Node_ind'. intros H.
  apply everyNode_unfold. split; [exact H|].
  apply everyNode_unfold in H. destruct H as [_ Hk].
  rewrite Forall_forall in *. intros k Hin. apply (IH k Hin). now apply Hk.
Qed.

Lemma organize_subtree_sums
  (lineages : list Lineage.t) (nodeTypes : NodeTypes) (forest : list Node.t) :
  organizeLineageHierarchy lineages nodeTypes = Returns forest ->
  Forall (everyNode (fun n => Node.count n = sumOwn (nodesOf n))) forest.
Proof.
  intros H. destruct (organize_pipeline _ _ _ H) as (m1 & m2 & roots & trees & E1 & E2 & E3 & ->).
  assert (Hagg : Forall (everyNode aggregated)
                   (map sortChildren (sortNodes (map accNode trees)))).
  { apply (forest_property fresh aggregated).
    - intros t Ht. exact (proj1 (accumulateChildCounts_ok t Ht)).
    - apply sortChildren_aggregated.
    - exact (organize_trees_fresh _ _ _ _ _ _ E1 E2 E3). }
  eapply Forall_impl; [|exact Hagg].
  intros t Ht. eapply everyNode_impl; [|exact (everyNode_subtree _ _ Ht)].
  apply aggregated_subtree.
Qed.

(** X7. In every forest returned for entries whose counts add up to
    at most 2^53 in magnitude, the total count of every node is the sum
    of the own counts of the nodes of its subtree, itself included. *)
Theorem total_is_sum_of_subtree
  (lineages : list Lineage.t) (nodeTypes : NodeTypes) (forest : list Node.t) :
  countsBounded lineages ->
  organizeLineageHierarchy lineages nodeTypes = Returns forest ->
  Forall (everyNode (fun n => Node.count n = sumOwn (nodesOf n))) forest.
Proof. intros _. apply organize_subtree_sums. Qed.

Lemma total_is_sum_of_subtree_witness :
  Forall (everyNode (fun n => Node.count n = sumOwn (nodesOf n)))
    [Node.mk "AY" 7 0 7 0 (240, 100, 60)%float
       [Node.mk "AY.4" 7 7 7 0 (1, 2, 3)%float [] false 1 (Some "AY") None]
       false 0 None (Some 7)].
Proof.
  apply (total_is_sum_of_subtree [Lineage.mk "AY.4" 7 (1, 2, 3)%float] None).
  - unfold countsBounded, exactBound. cbn. lia.
  - vm_compute. reflexivity.
Defined.

(** ** Relations between the counts *)

Section CellCounts.

Variable nodeTypes : NodeTypes.
Variable P : Z -> Z -> Z -> Z -> Prop.
Hypothesis P_observed : observedCounts nodeTypes P.

Lemma cellCounts_snoc (m : Store) (k : string) (c : Cell.t) :
  Forall (fun kv => cellCounts P (snd kv)) m -> cellCounts P c ->
  Forall (fun kv => cellCounts P (snd kv)) (m ++ [(k, c)])%list.
Proof.
  intros Hm Hc. apply Forall_app. split; [exact Hm|].
  constructor; [exact Hc|constructor].
Qed.

Lemma cellCounts_update (m : Store) (k : string) (f : Cell.t -> Cell.t) :
  (forall c, cellCounts P c -> cellCounts P (f c)) ->
  Forall (fun kv => cellCounts P (snd kv)) m ->
  Forall (fun kv => cellCounts P (snd kv)) (update m k f).
Proof.
  intros Hf Hm. unfold update. rewrite Forall_map.
  eapply Forall_impl; [|exact Hm]. intros [k' c] Hc. simpl in *.
  destruct (String.eqb k' k); simpl; auto.
Qed.

Lemma ensureParent_cellCounts (m : Store) (p : string) (m' : Store) :
  Forall (fun kv => cellCounts P (snd kv)) m -> ensureParent m p = Returns m' ->
  Forall (fun kv => cellCounts P (snd kv)) m'.
Proof.
  unfold ensureParent. intros Hm.
  destruct (getProperty m p); try (intros [= <-]; exact Hm).
  destruct (Color.generatePangoLineageColor p None); simpl; try discriminate.
  intros [= <-]. apply cellCounts_snoc; [exact Hm|exact (proj1 P_observed)].
Qed.

Lemma addLineage_cellCounts (m : Store) (e : Lineage.t) (m' : Store) :
  Forall (fun kv => cellCounts P (snd kv)) m -> addLineage nodeTypes m e = Returns m' ->
  Forall (fun kv => cellCounts P (snd kv)) m'.
Proof.
  unfold addLineage. intros Hm.
  destruct (negb (Js.truthy (Lineage.value e))); [intros [= <-]; exact Hm|].
  apply (foldM_invariant ensureParent _ ensureParent_cellCounts).
  destruct (getProperty m (Lineage.value e)); try exact Hm.
  apply cellCounts_snoc; [exact Hm|]. unfold cellCounts. cbn.
  exact (proj2 P_observed (Lineage.value e) (Lineage.count e)).
Qed.

Lemma link_cellCounts (st : Store * list string) (c : Cell.t) (st' : Store * list string) :
  Forall (fun kv => cellCounts P (snd kv)) (fst st) -> link st c = Returns st' ->
  Forall (fun kv => cellCounts P (snd kv)) (fst st').
Proof.
  destruct st as [m roots]. unfold link. simpl fst. intros Hm.
  destruct (parent (parseLineageName (Cell.name c))) as [p|];
    [|intros [= <-]; exact Hm].
  destruct (negb (Js.truthy p)); [intros [= <-]; exact Hm|].
  destruct (getProperty m p); try discriminate; intros [= <-]; simpl; try exact Hm.
  apply cellCounts_update; [intros c' Hc'; exact Hc'|].
  apply cellCounts_update; [intros c' Hc'; exact Hc'|exact Hm].
Qed.

Lemma readNode_nodeCounts (m : Store) :
  Forall (fun kv => cellCounts P (snd kv)) m ->
  forall fuel ref n, readNode fuel m ref = Returns n -> everyNode (nodeCounts P) n.
Proof.
  intros Hm. induction fuel as [|fuel IH]; simpl; intros ref n E; [discriminate|].
  destruct (ownProperty m ref) as [c|] eqn:Ho; [|discriminate].
  destruct (mapM (readNode fuel m) (Cell.children c)) as [kids| |] eqn:Ek;
    simpl in E; try discriminate.
  injection E as <-. apply everyNode_unfold. simpl. split.
  - destruct (ownProperty_In m ref c Ho) as (k' & Hin & _).
    rewrite Forall_forall in Hm. exact (Hm _ Hin).
  - apply mapM_Forall2 in Ek. clear Ho.
    induction Ek as [|x y xs ys Hxy _ IHk]; constructor; eauto.
Qed.

Lemma organize_trees_counts (lineages : list Lineage.t)
  (m1 m2 : Store) (roots : list string) (trees : list Node.t) :
  foldM (addLineage nodeTypes) lineages [] = Returns m1 ->
  foldM link (objectValues m1) (m1, []) = Returns (m2, roots) ->
  mapM (readNode (budget m2) m2) roots = Returns trees ->
  Forall (everyNode (nodeCounts P)) trees.
Proof.
  intros E1 E2 E3.
  assert (B1 : Forall (fun kv => cellCounts P (snd kv)) m1).
  { eapply (foldM_invariant (addLineage nodeTypes)); [|constructor|exact E1].
    intros s a s'. apply addLineage_cellCounts. }
  assert (B2 : Forall (fun kv => cellCounts P (snd kv)) m2).
  { apply (foldM_invariant link (fun st => Forall (fun kv => cellCounts P (snd kv)) (fst st))
             link_cellCounts _ (m1, []) (m2, roots) B1 E2). }
  apply mapM_Forall2 in E3. clear E2.
  induction E3 as [|r t rs ts Hrt _ IH]; constructor; [|exact IH].
  exact (readNode_nodeCounts m2 B2 _ _ _ Hrt).
Qed.

End CellCounts.

Lemma accSum_sumOf (sel : Counts -> Z) (f : Node.t -> Z) (kids : list Node.t) :
  Forall (fun k => sel (snd (accumulateChildCounts k)) = f (accNode k)) kids ->
  accSum sel kids = sumOf f (map accNode kids).
Proof.
  induction 1 as [|k ks Hk _ IH]; [reflexivity|].
  unfold accSum, sumOf in *. cbn [fold_right map]. now rewrite Hk, IH.
Qed.

(** What the bottom-up pass returns is what it leaves in the node, and
    the three totals are the node's own plus those of the children. *)
Lemma accumulate_totals (n : Node.t) :
  everyNode fresh n ->
  returnsFields n
  /\ Node.children (accNode n) = map accNode (Node.children n)
  /\ totalsFromChildren n (accNode n).
Proof.
  induction n as [n IH] using Node_ind'. intros Hfr.
  apply everyNode_unfold in Hfr. destruct Hfr as [[Hc _] Hkids].
  unfold returnsFields, totalsFromChildren, accNode.
  rewrite accumulateChildCounts_unfold.
  destruct (Node.children n) as [|k ks] eqn:Ek.
  - cbn [fst snd]. rewrite Ek, Hc. cbn. repeat split; try lia. 
  - rewrite accumulateChildren_closed. cbn [fst snd Node.children Node.count
      Node.sampleCount Node.internalCount].
    assert (Hall : Forall returnsFields (k :: ks)).
    { rewrite Forall_forall in *. intros x Hx. apply (IH x Hx). now apply Hkids. }
    rewrite (accSum_sumOf totalCount' Node.count),
            (accSum_sumOf sampleCount' Node.sampleCount),
            (accSum_sumOf internalCount' Node.internalCount).
    + repeat split; lia.
    + eapply Forall_impl; [|exact Hall]. intros x Hx. unfold returnsFields in Hx.
      now rewrite Hx.
    + eapply Forall_impl; [|exact Hall]. intros x Hx. unfold returnsFields in Hx.
      now rewrite Hx.
    + eapply Forall_impl; [|exact Hall]. intros x Hx. unfold returnsFields in Hx.
      now rewrite Hx.
Qed.

(** A relation between the three totals that holds of the own counts
    and is kept by sums holds on every node after the bottom-up pass. *)
Lemma accNode_totals (R : Z -> Z -> Z -> Prop) (n : Node.t) :
  R 0 0 0 ->
  (forall c s i c' s' i', R c s i -> R c' s' i' -> R (c + c') (s + s') (i + i')) ->
  everyNode fresh n ->
  everyNode (fun x => R (Node.originalCount x) (Node.sampleCount x) (Node.internalCount x)) n ->
  everyNode (fun x => R (Node.count x) (Node.sampleCount x) (Node.internalCount x))
    (accNode n).
Proof.
  intros R0 Radd. induction n as [n IH] using Node_ind'. intros Hfr Hn.
  destruct (accumulate_totals n Hfr) as (_ & Hch & Hc & Hs & Hi).
  apply everyNode_unfold in Hfr. destruct Hfr as [_ Hfk].
  apply everyNode_unfold in Hn. destruct Hn as [Hown Hnk].
  assert (Hkids : Forall (everyNode (fun x => R (Node.count x) (Node.sampleCount x)
                                               (Node.internalCount x)))
                    (Node.children (accNode n))).
  { rewrite Hch, Forall_map. rewrite Forall_forall in *.
    intros k Hk. apply (IH k Hk); auto. }
  apply everyNode_unfold. split; [|exact Hkids].
  rewrite Hc, Hs, Hi. apply Radd; [exact Hown|].
  clear - R0 Radd Hkids. induction Hkids as [|k ks Hk _ IHk]; [exact R0|].
  unfold sumOf in *. cbn [fold_right]. apply Radd; [|exact IHk].
  apply everyNode_unfold in Hk. exact (proj1 Hk).
Qed.

Lemma sortChildren_fields (Q : Node.t -> Prop) (n : Node.t) :
  (forall x, Q x -> Q (sortChildren x)) ->
  everyNode Q n -> everyNode Q (sortChildren n).
Proof.
  intros HQ. induction n as [n IH] using Node_ind'. intros H.
  apply everyNode_unfold in H. destruct H as [Hn Hkids].
  apply everyNode_unfold. split; [apply HQ, Hn|].
  rewrite sortChildren_children.
  eapply Permutation_Forall; [symmetry; apply sortNodes_perm|].
  rewrite Forall_map. rewrite Forall_forall in *.
  intros k Hk. apply (IH k Hk). apply (Hkids k Hk).
Qed.

Lemma organize_totals (R : Z -> Z -> Z -> Prop)
  (lineages : list Lineage.t) (nodeTypes : NodeTypes) (forest : list Node.t) :
  R 0 0 0 ->
  (forall c s i c' s' i', R c s i -> R c' s' i' -> R (c + c') (s + s') (i + i')) ->
  (forall value count,
     R count (if isLeafCount nodeTypes value then count else 0)
       (if isLeafCount nodeTypes value then 0 else count)) ->
  organizeLineageHierarchy lineages nodeTypes = Returns forest ->
  Forall (everyNode (fun x => R (Node.count x) (Node.sampleCount x) (Node.internalCount x)))
    forest.
Proof.
  intros R0 Radd Robs H.
  destruct (organize_pipeline _ _ _ H) as (m1 & m2 & roots & trees & E1 & E2 & E3 & ->).
  apply (forest_property
           (fun x => fresh x
                     /\ R (Node.originalCount x) (Node.sampleCount x) (Node.internalCount x))).
  - intros t Ht. apply accNode_totals; auto.
    + eapply everyNode_impl; [|exact Ht]. now intros x [Hx _].
    + eapply everyNode_impl; [|exact Ht]. now intros x [_ Hx].
  - intros t. apply sortChildren_fields. intros [? ? ? ? ? ? ? ? ? ? ?]. exact (fun h => h).
  - pose proof (organize_trees_fresh _ _ _ _ _ _ E1 E2 E3) as Hf.
    pose proof (organize_trees_counts nodeTypes (fun _ o s i => R o s i)
                  (conj R0 Robs) _ _ _ _ _ E1 E2 E3) as Hr.
    clear - Hf Hr. induction Hf as [|t ts Ht _ IH]; [constructor|].
    inversion Hr; subst. constructor; [|auto].
    apply everyNode_and; assumption.
Qed.

(** X8. In every forest returned for entries whose counts add up to
    at most 2^53 in magnitude, the sample count and the internal count
    of every node add up to its total count, and [totalTaxa], where it
    is assigned, is that total. *)
Theorem sample_plus_internal_is_count
  (lineages : list Lineage.t) (nodeTypes : NodeTypes) (forest : list Node.t) :
  countsBounded lineages ->
  organizeLineageHierarchy lineages nodeTypes = Returns forest ->
  Forall (everyNode splitOk) forest.
Proof.
  intros _ H.
  pose proof (organize_totals (fun c s i => s + i = c) lineages nodeTypes forest) as Hs.
  cbv beta in Hs. specialize (Hs eq_refl).
  assert (Hsplit : Forall (everyNode (fun x => Node.sampleCount x + Node.internalCount x
                                               = Node.count x)) forest).
  { apply Hs; [intros; lia| |exact H].
    intros value count. destruct (isLeafCount nodeTypes value); lia. }
  pose proof (organizeLineageHierarchy_totalTaxa _ _ _ H) as Ht.
  clear - Hsplit Ht. induction Hsplit as [|t ts Hx _ IH]; [constructor|].
  inversion Ht; subst. constructor; [|auto].
  eapply everyNode_impl; [|exact (everyNode_and _ _ _ Hx H1)].
  intros x [Hsum Htaxa]. split; [exact Hsum|].
  unfold taxaAsCoded in Htaxa. rewrite Htaxa.
  destruct (Node.children x); [discriminate|]. intros tt [= <-]. exact Hsum.
Qed.

Lemma sample_plus_internal_is_count_witness :
  Forall (everyNode splitOk)
    [Node.mk "AY" 7 0 0 7 (240, 100, 60)%float
       [Node.mk "AY.4" 7 7 0 7 (1, 2, 3)%float [] false 1 (Some "AY") None]
       false 0 None (Some 7)].
Proof.
  apply (sample_plus_internal_is_count [Lineage.mk "AY.4" 7 (1, 2, 3)%float]
           (Some (fun _ => Some "internal"))).
  - unfold countsBounded, exactBound. cbn. lia.
  - vm_compute. reflexivity.
Defined.

(** X9. Without [nodeTypes] everything is counted as samples: in every
    forest returned for entries whose counts add up to at most 2^53 in
    magnitude, the internal count of every node is zero and its sample
    count is its total count. *)
Theorem without_nodeTypes_all_samples
  (lineages : list Lineage.t) (forest : list Node.t) :
  countsBounded lineages ->
  organizeLineageHierarchy lineages None = Returns forest ->
  Forall (everyNode allSamples) forest.
Proof.
  intros _ H.
  apply (organize_totals (fun c s i => i = 0 /\ s = c) lineages None forest);
    [auto|intros; lia|intros value count; cbn; auto|exact H].
Qed.

Lemma without_nodeTypes_all_samples_witness :
  Forall (everyNode allSamples)
    [Node.mk "AY" 7 0 7 0 (240, 100, 60)%float
       [Node.mk "AY.4" 7 7 7 0 (1, 2, 3)%float [] false 1 (Some "AY") None]
       false 0 None (Some 7)].
Proof.
  apply (without_nodeTypes_all_samples [Lineage.mk "AY.4" 7 (1, 2, 3)%float]).
  - unfold countsBounded, exactBound. cbn. lia.
  - vm_compute. reflexivity.
Defined.

(** ** The order of siblings *)

Lemma insertNode_HdRel (y x : Node.t) (l : list Node.t) :
  byCountDesc y x -> HdRel byCountDesc y l -> HdRel byCountDesc y (insertNode x l).
Proof.
  intros Hyx Hl. destruct l as [|z l]; simpl; [now constructor|].
  destruct (sortByCount x z <=? 0); constructor; [exact Hyx|].
  now inversion Hl.
Qed.

Lemma insertNode_sorted (x : Node.t) (l : list Node.t) :
  Sorted byCountDesc l -> Sorted byCountDesc (insertNode x l).
Proof.
  induction 1 as [|y l Hl IH Hy]; simpl; [repeat constructor|].
  destruct (sortByCount x y <=? 0) eqn:E.
  - constructor; [now constructor|]. constructor.
    unfold byCountDesc. unfold sortByCount in E. lia.
  - constructor; [exact IH|]. apply insertNode_HdRel; [|exact Hy].
    unfold byCountDesc. unfold sortByCount in E. lia.
Qed.

Lemma sortNodes_sorted (l : list Node.t) : Sorted byCountDesc (sortNodes l).
Proof.
  induction l as [|x l IH]; simpl; [constructor|]. now apply insertNode_sorted.
Qed.

Lemma sorted_map_sortChildren (l : list Node.t) :
  Sorted byCountDesc l -> Sorted byCountDesc (map sortChildren l).
Proof.
  induction 1 as [|y l Hl IH Hy]; simpl; [constructor|].
  constructor; [exact IH|].
  destruct Hy as [|z l' Hyz]; simpl; constructor.
  unfold byCountDesc in *. now rewrite !sortChildren_count.
Qed.

Lemma sortChildren_sorted (n : Node.t) :
  everyNode (fun x => Sorted byCountDesc (Node.children x)) (sortChildren n).
Proof.
  induction n as [n IH] using Node_ind'.
  apply everyNode_unfold. rewrite sortChildren_children.
  split; [apply sortNodes_sorted|].
  eapply Permutation_Forall; [symmetry; apply sortNodes_perm|].
  rewrite Forall_map. exact IH.
Qed.

(** X10. Every returned forest is ordered: the roots, and the children
    of every node, come by descending total count. *)
Theorem forest_sorted_by_count
  (lineages : list Lineage.t) (nodeTypes : NodeTypes) (forest : list Node.t) :
  organizeLineageHierarchy lineages nodeTypes = Returns forest ->
  Sorted byCountDesc forest
  /\ Forall (everyNode (fun n => Sorted byCountDesc (Node.children n))) forest.
Proof.
  intros H.
  destruct (organize_pipeline _ _ _ H) as (m1 & m2 & roots & trees & _ & _ & _ & ->).
  split.
  - apply sorted_map_sortChildren, sortNodes_sorted.
  - rewrite Forall_map, Forall_forall. intros t _. apply sortChildren_sorted.
Qed.

Lemma forest_sorted_by_count_witness :
  Sorted byCountDesc
    [Node.mk "B" 9 9 9 0 (4, 5, 6)%float [] false 0 None None;
     Node.mk "A" 2 2 2 0 (1, 2, 3)%float [] false 0 None None]
  /\ Forall (everyNode (fun n => Sorted byCountDesc (Node.children n)))
       [Node.mk "B" 9 9 9 0 (4, 5, 6)%float [] false 0 None None;
        Node.mk "A" 2 2 2 0 (1, 2, 3)%float [] false 0 None None].
Proof.
  apply (forest_sorted_by_count
           [Lineage.mk "A" 2 (1, 2, 3)%float; Lineage.mk "B" 9 (4, 5, 6)%float] None).
  vm_compute. reflexivity.
Defined.

(** ** The store after the two passes *)

Lemma ancestor_trans (p x v : string) :
  In p (getAllParentLineages x) -> In x (getAllParentLineages v) ->
  In p (getAllParentLineages v).
Proof.
  rewrite !ancestor_iff_prefix. intros Hpx Hxv.
  apply startsWith_iff in Hpx. apply startsWith_iff in Hxv.
  apply startsWith_iff. destruct Hpx as [r1 ->]. destruct Hxv as [r2 ->].
  exists (r1 ++ "." ++ r2). now rewrite !append_assoc'.
Qed.

Lemma parent_is_ancestor (x p : string) :
  parent (parseLineageName x) = Some p -> In p (getAllParentLineages x).
Proof.
  intros Hp. pose proof (parents_chain x) as Hc. rewrite Hp in Hc.
  rewrite Hc. apply in_or_app. right. now left.
Qed.

Section FirstPassSound.

Variable nodeTypes : NodeTypes.

Lemma soundStore_mono (done done' : list Lineage.t) (m : Store) :
  (forall e, In e done -> In e done') ->
  soundStore nodeTypes done m -> soundStore nodeTypes done' m.
Proof.
  intros Hsub [Hs Hn]. split; [|exact Hn].
  intros k c Hin. destruct (Hs k c Hin) as [H1 H2].
  split; [exact H1|]. eapply cellOrigin_mono; eauto.
Qed.

Lemma addLineage_sound (done : list Lineage.t) (m : Store) (e : Lineage.t) (m' : Store) :
  soundStore nodeTypes done m ->
  addLineage nodeTypes m e = Returns m' ->
  soundStore nodeTypes (done ++ [e])%list m'.
Proof.
  intros Hs E.
  assert (Hsub : forall x, In x done -> In x (done ++ [e])%list)
    by (intros x Hx; apply in_or_app; now left).
  assert (Hlast : In e (done ++ [e])%list)
    by (apply in_or_app; right; now left).
  pose proof (soundStore_mono _ _ _ Hsub Hs) as Hs'.
  unfold addLineage in E.
  destruct (Js.truthy (Lineage.value e)) eqn:Ht; cbn [negb] in E;
    [|injection E as <-; exact Hs'].
  apply (ensureParents_sound nodeTypes (done ++ [e])%list e Hlast _ (fun p Hp => Hp) _ _)
    in E; [exact E|].
  destruct (getProperty m (Lineage.value e)) as [c| |] eqn:Eg; try exact Hs'.
  apply sound_snoc; [exact Hs'|exact Eg|].
  left. exists e. auto.
Qed.

Lemma firstPass_sound_from (todo : list Lineage.t) :
  forall done m m',
    soundStore nodeTypes done m ->
    foldM (addLineage nodeTypes) todo m = Returns m' ->
    soundStore nodeTypes (done ++ todo)%list m'.
Proof.
  induction todo as [|e todo IH]; simpl; intros done m m' Hs E.
  - injection E as <-. now rewrite app_nil_r.
  - destruct (addLineage nodeTypes m e) as [m1| |] eqn:E1; cbn [bind] in E;
      try discriminate.
    replace (done ++ e :: todo)%list with ((done ++ [e]) ++ todo)%list
      by (now rewrite <- app_assoc).
    apply (IH (done ++ [e])%list m1 m'); [|exact E].
    exact (addLineage_sound done m e m1 Hs E1).
Qed.

Lemma firstPass_sound (ls : list Lineage.t) (m : Store) :
  foldM (addLineage nodeTypes) ls [] = Returns m -> soundStore nodeTypes ls m.
Proof.
  intros E. apply (firstPass_sound_from ls [] [] m); [|exact E].
  split; [intros k c []|constructor].
Qed.

Lemma firstPass_observed (ls : list Lineage.t) (m : Store) (k : string) :
  foldM (addLineage nodeTypes) ls [] = Returns m ->
  hasKey m k <-> Color.isPrototypeKey k = false /\ observedOrAncestor ls k.
Proof.
  intros E. destruct (firstPass_sound ls m E) as [Hs _].
  destruct (firstPass_extends nodeTypes ls [] m E) as [_ Hp].
  split.
  - intros Hk. destruct (hasKey_own m k Hk) as (c & _ & Hin).
    destruct (Hs k c Hin) as [Hproto Ho]. split; [exact Hproto|].
    destruct Ho as [(e & He & Ht & -> & _)|(e & col & He & Hin' & _)].
    + exists e. auto.
    + exists e. repeat split; auto.
      destruct (Js.truthy (Lineage.value e)) eqn:Ht; [reflexivity|].
      rewrite (getAllParentLineages_falsy _ Ht) in Hin'. destruct Hin'.
  - intros [Hproto (e & He & Ht & [->|Hin])].
    + apply present_hasKey; [|exact Hproto]. exact (proj1 (Hp e He Ht)).
    + apply present_hasKey; [|exact Hproto]. exact (proj2 (Hp e He Ht) k Hin).
Qed.

(** The parent of a name filed in the map is in the map, or is a name
    inherited from [Object.prototype]. *)
Lemma firstPass_parent_present (ls : list Lineage.t) (m : Store) (x p : string) :
  foldM (addLineage nodeTypes) ls [] = Returns m ->
  hasKey m x -> parent (parseLineageName x) = Some p -> present m p.
Proof.
  intros E Hx Hp.
  destruct (proj1 (firstPass_observed ls m x E) Hx) as [_ (e & He & Ht & Hk)].
  destruct (firstPass_extends nodeTypes ls [] m E) as [_ Hpres].
  apply (proj2 (Hpres e He Ht)).
  apply parent_is_ancestor in Hp.
  destruct Hk as [->|Hin]; [exact Hp|].
  exact (ancestor_trans _ _ _ Hp Hin).
Qed.

End FirstPassSound.

Lemma linkTarget_Some (m : Store) (x p : string) :
  linkTarget m x = Some p ->
  parent (parseLineageName x) = Some p /\ p <> EmptyString /\ hasKey m p.
Proof.
  unfold linkTarget. destruct (parent (parseLineageName x)) as [q|]; [|discriminate].
  destruct (Js.truthy q) eqn:Ht; cbn [negb]; [|discriminate].
  destruct (getProperty m q) as [c| |] eqn:Eg; try discriminate.
  intros [= <-]. repeat split.
  - intros ->. discriminate Ht.
  - apply getProperty_Own in Eg. eapply In_hasKey; eauto.
Qed.

Lemma secondPass_no_inherited (cells : list Cell.t) :
  forall m roots st',
    foldM link cells (m, roots) = Returns st' ->
    forall c p, In c cells -> parent (parseLineageName (Cell.name c)) = Some p ->
      Js.truthy p = true -> getProperty m p <> Inherited.
Proof.
  induction cells as [|c0 cells IH]; intros m roots st' E c p Hin Hp Ht; [destruct Hin|].
  cbn [foldM] in E.
  destruct (link (m, roots) c0) as [[m' roots']| |] eqn:E0; cbn [bind] in E;
    try discriminate.
  destruct Hin as [->|Hin].
  - unfold link in E0. rewrite Hp, Ht in E0. cbn [negb] in E0.
    intros Hi. rewrite Hi in E0. discriminate.
  - pose proof (IH m' roots' st' E c p Hin Hp Ht) as Hn.
    destruct (link_step _ _ _ _ _ E0) as (_ & _ & Hk).
    pose proof (hasKey_getProperty m m' p (keys_hasKey m m' Hk)) as Hg.
    intros Hi. rewrite Hi in Hg. destruct (getProperty m' p); auto.
Qed.

Lemma names_perm (m : Store) :
  pristine m -> Permutation (map Cell.name (objectValues m)) (map fst m).
Proof.
  intros Hp. rewrite (objectValues_perm m), map_map.
  replace (map (fun x => Cell.name (snd x)) m) with (map fst m); [reflexivity|].
  apply map_ext_in. intros [k c] Hin. symmetry. exact (proj1 (Hp k c Hin)).
Qed.

Lemma Forall2_keys (m0 : Store) (order : list string) (m m' : Store) :
  Forall2 (linkedCell m0 order) m m' -> map fst m' = map fst m.
Proof.
  induction 1 as [|a b l l' Hab _ IH]; [reflexivity|].
  simpl. rewrite IH. f_equal. exact (proj1 Hab).
Qed.

Lemma existsb_eqb_In (k : string) (l : list string) :
  In k l -> existsb (String.eqb k) l = true.
Proof.
  intros H. apply existsb_exists. exists k. split; [exact H|apply String.eqb_refl].
Qed.

Lemma isTarget_true (m : Store) (k x : string) :
  isTarget m k x = true <-> linkTarget m x = Some k.
Proof.
  unfold isTarget. destruct (linkTarget m x) as [p|]; [|split; discriminate].
  destruct (String.eqb_spec p k) as [->|Hne]; split; auto; try discriminate.
  intros [= ?]. contradiction.
Qed.

Lemma isRoot_true (m : Store) (x : string) :
  isRoot m x = true <-> linkTarget m x = None.
Proof.
  unfold isRoot. destruct (linkTarget m x); split; auto; discriminate.
Qed.

Lemma secondPass_wellLinked (m1 m2 : Store) (roots : list string) :
  pristine m1 -> NoDup (map fst m1) ->
  foldM link (objectValues m1) (m1, []) = Returns (m2, roots) ->
  wellLinked m1 m2 roots.
Proof.
  intros Hp Hn E.
  set (names := map Cell.name (objectValues m1)).
  pose proof (names_perm m1 Hp) as Hnames. fold names in Hnames.
  assert (Hnd : NoDup names)
    by (apply (Permutation_NoDup (Permutation_sym Hnames)); exact Hn).
  assert (Hin : forall x, In x names <-> hasKey m1 x).
  { intros x. unfold hasKey. split; apply Permutation_in; [exact Hnames|now symmetry]. }
  destruct (secondPass_spec _ _ _ _ _ E) as [HF Hr]. fold names in HF, Hr.
  simpl in Hr. pose proof (Forall2_keys _ _ _ _ HF) as Hkeys.
  assert (Hk2 : forall x, hasKey m2 x <-> hasKey m1 x)
    by (intros x; unfold hasKey; now rewrite Hkeys).
  assert (Hcell : forall k c, In (k, c) m2 ->
            exists c1, In (k, c1) m1 /\ linkedCell m1 names (k, c1) (k, c)).
  { intros k c H2. destruct (Forall2_In_r _ _ _ _ HF H2) as ([k1 c1] & H1 & HL).
    pose proof (proj1 HL) as Hfst. cbn [fst] in Hfst. subst k1. eauto. }
  constructor.
  - exact Hkeys.
  - now rewrite Hkeys.
  - intros k c H2. destruct (Hcell k c H2) as (c1 & H1 & _ & HS & _). eauto.
  - intros k c H2. destruct (Hcell k c H2) as (c1 & H1 & _ & _ & _ & HP).
    cbn [fst snd] in HP. rewrite HP.
    rewrite existsb_eqb_In by (apply Hin; eapply In_hasKey; eauto).
    destruct (Hp k c1 H1) as (_ & _ & ->). now destruct (linkTarget m1 k).
  - intros k c H2. destruct (Hcell k c H2) as (c1 & H1 & _ & _ & HC & _).
    cbn [fst snd] in HC. destruct (Hp k c1 H1) as (_ & Hch & _).
    rewrite Hch in HC. simpl in HC. rewrite HC. split.
    + now apply NoDup_filter.
    + intros x. rewrite filter_In, isTarget_true, Hin, Hk2. tauto.
  - rewrite Hr. split.
    + now apply NoDup_filter.
    + intros x. rewrite filter_In, isRoot_true, Hin, Hk2. tauto.
Qed.

(** A name in the map that is not linked under a parent has no parent,
    or the empty one. *)
Lemma unlinked_is_root (nodeTypes : NodeTypes) (ls : list Lineage.t)
  (m1 m2 : Store) (roots : list string) (x : string) :
  foldM (addLineage nodeTypes) ls [] = Returns m1 ->
  foldM link (objectValues m1) (m1, []) = Returns (m2, roots) ->
  hasKey m1 x -> linkTarget m1 x = None ->
  parent (parseLineageName x) = None
  \/ parent (parseLineageName x) = Some EmptyString.
Proof.
  intros E1 E2 Hx Ht.
  destruct (parent (parseLineageName x)) as [p|] eqn:Ep; [|now left].
  right. f_equal. destruct p as [|a s]; [reflexivity|]. exfalso.
  pose proof (firstPass_parent_present nodeTypes ls m1 x _ E1 Hx Ep) as Hpres.
  unfold linkTarget in Ht. rewrite Ep in Ht. cbn [Js.truthy negb] in Ht.
  destruct (getProperty m1 (String a s)) as [c| |] eqn:Eg; [discriminate| |].
  - pose proof (names_perm m1 (firstPass_pristine _ _ _ E1)) as Hnames.
    assert (Hin : In x (map Cell.name (objectValues m1))).
    { apply (Permutation_in _ (Permutation_sym Hnames)). exact Hx. }
    apply in_map_iff in Hin. destruct Hin as (c & <- & Hc).
    exact (secondPass_no_inherited _ _ _ _ E2 c _ Hc Ep eq_refl Eg).
  - now apply Hpres.
Qed.

Lemma chain_last (x : string) :
  exists l, linkChain x = (l ++ [x])%list.
Proof.
  unfold linkChain. destruct (getAllParentLineages x) as [|a [|b l]].
  - exists []. simpl. now destruct x.
  - destruct a as [|c s]; simpl.
    + exists []. reflexivity.
    + exists [String c s]. reflexivity.
  - destruct a as [|c s]; simpl.
    + exists (b :: l). reflexivity.
    + exists (String c s :: b :: l). reflexivity.
Qed.

Lemma linkChain_child (m : Store) (x p : string) :
  linkTarget m x = Some p -> linkChain x = (linkChain p ++ [x])%list.
Proof.
  intros H. destruct (linkTarget_Some m x p H) as (Hp & Hne & _).
  pose proof (parents_chain x) as Hc. rewrite Hp in Hc.
  unfold linkChain. rewrite Hc.
  destruct (getAllParentLineages p) as [|a [|b l]]; simpl.
  - destruct p; [contradiction|reflexivity].
  - destruct a; reflexivity.
  - destruct a; reflexivity.
Qed.

Lemma linkChain_root (x : string) :
  parent (parseLineageName x) = None
  \/ parent (parseLineageName x) = Some EmptyString ->
  linkChain x = [x].
Proof.
  intros H. pose proof (parents_chain x) as Hc. unfold linkChain.
  destruct H as [H|H]; rewrite H in Hc; rewrite Hc; simpl; [now destruct x|reflexivity].
Qed.

(** ** The forest shows the linked store *)

Lemma accNode_keepsShape : keepsShape accNode.
Proof.
  intros n. unfold accNode. rewrite accumulateChildCounts_unfold.
  destruct (Node.children n) as [|k ks] eqn:Ek.
  - cbn [fst]. rewrite Ek. repeat split; reflexivity.
  - rewrite accumulateChildren_closed. cbn [fst]. repeat split; reflexivity.
Qed.

Lemma sortChildren_keepsShape : keepsShape sortChildren.
Proof.
  intros n. rewrite sortChildren_children.
  destruct n; cbn. repeat split; try reflexivity. apply sortNodes_perm.
Qed.

Lemma keepsShape_names (f : Node.t -> Node.t) (l : list Node.t) :
  keepsShape f -> map Node.name (map f l) = map Node.name l.
Proof.
  intros Hf. rewrite map_map. apply map_ext. intros n. exact (proj1 (Hf n)).
Qed.

Lemma keepsShape_reads (f : Node.t -> Node.t) (m : Store) (t : Node.t) :
  keepsShape f -> everyNode (readsStore m) t -> everyNode (readsStore m) (f t).
Proof.
  intros Hf. induction t as [n IH] using Node_ind'. intros H.
  apply everyNode_unfold in H. destruct H as [(c & Hin & Hr) Hkids].
  destruct (Hf n) as (F1 & F2 & F3 & F4 & F5 & F6 & F7).
  destruct Hr as (R1 & R2 & R3 & R4 & R5 & R6 & R7).
  apply everyNode_unfold. split.
  - exists c. rewrite F1. split; [exact Hin|].
    unfold readsCell. rewrite F1, F2, F3, F4, F5, F6. repeat split; auto.
    rewrite (Permutation_map Node.name F7), (keepsShape_names f _ Hf). exact R7.
  - eapply Permutation_Forall; [symmetry; exact F7|].
    rewrite Forall_map. rewrite Forall_forall in *.
    intros k Hk. apply (IH k Hk). apply (Hkids k Hk).
Qed.

Lemma readNode_reads (m : Store) :
  namesAreKeys m ->
  forall fuel k t, readNode fuel m k = Returns t ->
    Node.name t = k /\ everyNode (readsStore m) t.
Proof.
  intros Hnk. induction fuel as [|fuel IH]; intros k t E; [discriminate|].
  cbn [readNode] in E.
  destruct (ownProperty m k) as [c|] eqn:Ho; [|discriminate].
  destruct (mapM (readNode fuel m) (Cell.children c)) as [kids| |] eqn:Ek;
    cbn [bind] in E; try discriminate.
  injection E as <-. apply own_hasKey in Ho. pose proof (Hnk k c Ho) as Hname.
  apply mapM_Forall2 in Ek.
  split; [exact Hname|]. apply everyNode_unfold. cbn. split.
  - exists c. split; [rewrite Hname; exact Ho|].
    unfold readsCell. cbn. repeat split.
    clear - Ek IH. induction Ek as [|x y xs ys Hxy _ IHk]; [constructor|].
    simpl. rewrite (proj1 (IH _ _ Hxy)). now constructor.
  - clear - Ek IH. induction Ek as [|x y xs ys Hxy _ IHk]; constructor; [|exact IHk].
    exact (proj2 (IH _ _ Hxy)).
Qed.

(** The builder in one statement: a returned forest shows a linked
    store, root by root and node by node. *)
Lemma organize_reads (lineages : list Lineage.t) (nodeTypes : NodeTypes)
  (forest : list Node.t) :
  organizeLineageHierarchy lineages nodeTypes = Returns forest ->
  exists m1 m2 roots,
    foldM (addLineage nodeTypes) lineages [] = Returns m1
    /\ foldM link (objectValues m1) (m1, []) = Returns (m2, roots)
    /\ wellLinked m1 m2 roots
    /\ Permutation (map Node.name forest) roots
    /\ Forall (everyNode (readsStore m2)) forest.
Proof.
  intros H.
  destruct (organize_pipeline _ _ _ H) as (m1 & m2 & roots & trees & E1 & E2 & E3 & ->).
  exists m1, m2, roots. split; [exact E1|]. split; [exact E2|].
  pose proof (firstPass_pristine _ _ _ E1) as Hp.
  destruct (firstPass_sound nodeTypes lineages m1 E1) as [_ Hn].
  destruct (secondPass_linkedOk m1 m2 roots Hp E2) as (Hnk & _ & _). cbn [fst] in Hnk.
  split; [exact (secondPass_wellLinked m1 m2 roots Hp Hn E2)|].
  apply mapM_Forall2 in E3.
  assert (Hread : Forall2 (fun r t => Node.name t = r /\ everyNode (readsStore m2) t)
                    roots trees).
  { clear - E3 Hnk. induction E3 as [|r t rs ts Hrt _ IH]; constructor; [|exact IH].
    exact (readNode_reads m2 Hnk _ _ _ Hrt). }
  split.
  - rewrite (keepsShape_names _ _ sortChildren_keepsShape).
    rewrite (Permutation_map Node.name (sortNodes_perm _)).
    rewrite (keepsShape_names _ _ accNode_keepsShape).
    clear - Hread. induction Hread as [|r t rs ts [Hn _] _ IH]; [constructor|].
    simpl. rewrite Hn. now constructor.
  - apply (forest_property (readsStore m2) (readsStore m2)).
    + intros t. apply keepsShape_reads, accNode_keepsShape.
    + intros t. apply keepsShape_reads, sortChildren_keepsShape.
    + clear - Hread. induction Hread as [|r t rs ts [_ Ht] _ IH]; constructor; auto.
Qed.

Lemma wellLinked_unique (m1 m2 : Store) (roots : list string) (k : string) (c c' : Cell.t) :
  wellLinked m1 m2 roots -> In (k, c) m2 -> In (k, c') m2 -> c = c'.
Proof. intros W. apply NoDup_keys_unique, (wl_nodup _ _ _ W). Qed.

(** ** Parents and children agree with the parser *)

Lemma reads_childrenLinked (m1 m2 : Store) (roots : list string) (t : Node.t) :
  wellLinked m1 m2 roots ->
  everyNode (readsStore m2) t -> everyNode childrenLinked t.
Proof.
  intros W. induction t as [n IH] using Node_ind'. intros H.
  apply everyNode_unfold in H. destruct H as [(c & Hin & Hr) Hkids].
  apply everyNode_unfold. split.
  - unfold childrenLinked. rewrite Forall_forall in *. intros ch Hch.
    pose proof (Hkids ch Hch) as Hk. apply everyNode_unfold in Hk.
    destruct Hk as [(c' & Hin' & Hr') _].
    destruct Hr as (_ & _ & _ & _ & _ & _ & Hperm).
    assert (Hx : In (Node.name ch) (Cell.children c)).
    { apply (Permutation_in _ Hperm). now apply in_map. }
    apply (proj2 (wl_children _ _ _ W _ _ Hin)) in Hx. destruct Hx as [_ Ht].
    destruct Hr' as (_ & _ & _ & _ & _ & Hpar & _).
    split.
    + rewrite Hpar, (wl_parent _ _ _ W _ _ Hin'). exact Ht.
    + exact (proj1 (linkTarget_Some _ _ _ Ht)).
  - rewrite Forall_forall in *. intros ch Hch. apply (IH ch Hch). now apply Hkids.
Qed.

(** X11. The returned forest agrees with the parser.  Every child
    carries the name of the node it hangs under in its [parent]
    property, and that name is the parent the parser gives for the
    child's name; every root has no [parent] property, and the parser
    gives for its name no parent or the empty one. *)
Theorem forest_follows_parser
  (lineages : list Lineage.t) (nodeTypes : NodeTypes) (forest : list Node.t) :
  organizeLineageHierarchy lineages nodeTypes = Returns forest ->
  Forall rootLike forest /\ Forall (everyNode childrenLinked) forest.
Proof.
  intros H.
  destruct (organize_reads _ _ _ H) as (m1 & m2 & roots & E1 & E2 & W & Hroots & Hread).
  split.
  - rewrite Forall_forall in *. intros r Hr.
    pose proof (Hread r Hr) as Hrd. apply everyNode_unfold in Hrd.
    destruct Hrd as [(c & Hin & Hc) _].
    assert (Hx : In (Node.name r) roots).
    { apply (Permutation_in _ Hroots). now apply in_map. }
    apply (proj2 (wl_roots _ _ _ W)) in Hx. destruct Hx as [Hk Ht].
    destruct Hc as (_ & _ & _ & _ & _ & Hpar & _). split.
    + rewrite Hpar, (wl_parent _ _ _ W _ _ Hin). exact Ht.
    + apply (unlinked_is_root nodeTypes lineages m1 m2 roots); auto.
      unfold hasKey in *. now rewrite <- (wl_keys _ _ _ W).
  - eapply Forall_impl; [|exact Hread].
    intros t. apply (reads_childrenLinked m1 m2 roots t W).
Qed.

Lemma forest_follows_parser_witness :
  Forall rootLike
    [Node.mk "AY" 7 0 7 0 (240, 100, 60)%float
       [Node.mk "AY.4" 7 7 7 0 (1, 2, 3)%float [] false 1 (Some "AY") None]
       false 0 None (Some 7)]
  /\ Forall (everyNode childrenLinked)
       [Node.mk "AY" 7 0 7 0 (240, 100, 60)%float
          [Node.mk "AY.4" 7 7 7 0 (1, 2, 3)%float [] false 1 (Some "AY") None]
          false 0 None (Some 7)].
Proof.
  apply (forest_follows_parser [Lineage.mk "AY.4" 7 (1, 2, 3)%float] None).
  vm_compute. reflexivity.
Defined.

(** ** Which names the forest holds *)

Lemma nodesOf_self (t : Node.t) : In t (nodesOf t).
Proof. rewrite nodesOf_unfold. now left. Qed.

Lemma nodesOf_child (t n ch : Node.t) :
  In n (nodesOf t) -> In ch (Node.children n) -> In ch (nodesOf t).
Proof.
  induction t as [t IH] using Node_ind'. rewrite Forall_forall in IH.
  rewrite nodesOf_unfold. intros [<-|Hin] Hch.
  - right. apply in_flat_map. exists ch. split; [exact Hch|apply nodesOf_self].
  - right. apply in_flat_map in Hin. destruct Hin as (k & Hk & Hn).
    apply in_flat_map. exists k. split; [exact Hk|]. exact (IH k Hk Hn Hch).
Qed.

Lemma forest_child (f : list Node.t) (n ch : Node.t) :
  In n (flat_map nodesOf f) -> In ch (Node.children n) -> In ch (flat_map nodesOf f).
Proof.
  intros Hn Hch. apply in_flat_map in Hn. destruct Hn as (t & Ht & Hn).
  apply in_flat_map. exists t. split; [exact Ht|]. exact (nodesOf_child t n ch Hn Hch).
Qed.

Lemma forest_nodes_read (m : Store) (f : list Node.t) (n : Node.t) :
  Forall (everyNode (readsStore m)) f -> In n (flat_map nodesOf f) -> readsStore m n.
Proof.
  intros H Hn. apply in_flat_map in Hn. destruct Hn as (t & Ht & Hn).
  rewrite Forall_forall in H. pose proof (proj1 (everyNode_nodesOf _ _) (H t Ht)) as Hall.
  rewrite Forall_forall in Hall. now apply Hall.
Qed.

Lemma wellLinked_hasKey (m1 m2 : Store) (roots : list string) (x : string) :
  wellLinked m1 m2 roots -> hasKey m2 x <-> hasKey m1 x.
Proof. intros W. unfold hasKey. now rewrite (wl_keys _ _ _ W). Qed.

(** Every name filed in the map is the name of a node of the forest. *)
Lemma forest_covers (m1 m2 : Store) (roots : list string) (forest : list Node.t) :
  wellLinked m1 m2 roots ->
  Permutation (map Node.name forest) roots ->
  Forall (everyNode (readsStore m2)) forest ->
  forall bound x, (String.length x < bound)%nat -> hasKey m2 x ->
    In x (forestNames forest).
Proof.
  intros W Hroots Hread. induction bound as [|bound IH]; intros x Hlen Hx; [lia|].
  destruct (linkTarget m1 x) as [p|] eqn:Et.
  - destruct (linkTarget_Some _ _ _ Et) as (Hp & _ & Hkp).
    pose proof (parent_shorter x p Hp) as Hsh.
    assert (Hin : In p (forestNames forest)).
    { apply IH; [lia|]. now apply (wellLinked_hasKey m1 m2 roots). }
    unfold forestNames in Hin. apply in_map_iff in Hin. destruct Hin as (n & Hn & Hnin).
    destruct (forest_nodes_read m2 forest n Hread Hnin) as (c & Hc & Hr).
    destruct Hr as (_ & _ & _ & _ & _ & _ & Hperm).
    assert (Hxc : In x (Cell.children c)).
    { apply (proj2 (wl_children _ _ _ W _ _ Hc)). rewrite Hn. auto. }
    apply (Permutation_in _ (Permutation_sym Hperm)) in Hxc.
    apply in_map_iff in Hxc. destruct Hxc as (ch & Hch & Hchin).
    unfold forestNames. apply in_map_iff. exists ch. split; [exact Hch|].
    exact (forest_child forest n ch Hnin Hchin).
  - assert (Hr : In x roots) by (apply (proj2 (wl_roots _ _ _ W)); auto).
    apply (Permutation_in _ (Permutation_sym Hroots)) in Hr.
    apply in_map_iff in Hr. destruct Hr as (r & Hn & Hrin).
    unfold forestNames. apply in_map_iff. exists r. split; [exact Hn|].
    apply in_flat_map. exists r. split; [exact Hrin|apply nodesOf_self].
Qed.

Lemma forest_names_keys (lineages : list Lineage.t) (nodeTypes : NodeTypes)
  (forest : list Node.t) (m1 m2 : Store) (roots : list string) :
  wellLinked m1 m2 roots ->
  Permutation (map Node.name forest) roots ->
  Forall (everyNode (readsStore m2)) forest ->
  forall k, In k (forestNames forest) <-> hasKey m1 k.
Proof.
  intros W Hroots Hread k. rewrite <- (wellLinked_hasKey m1 m2 roots k W). split.
  - intros Hin. unfold forestNames in Hin. apply in_map_iff in Hin.
    destruct Hin as (n & <- & Hn).
    destruct (forest_nodes_read m2 forest n Hread Hn) as (c & Hc & _).
    eapply In_hasKey; eauto.
  - intros Hk. apply (forest_covers m1 m2 roots forest W Hroots Hread (S (String.length k)));
      [lia|exact Hk].
Qed.

Lemma organize_names_observed
  (lineages : list Lineage.t) (nodeTypes : NodeTypes) (forest : list Node.t) :
  organizeLineageHierarchy lineages nodeTypes = Returns forest ->
  forall k, In k (forestNames forest)
            <-> Color.isPrototypeKey k = false /\ observedOrAncestor lineages k.
Proof.
  intros H k.
  destruct (organize_reads _ _ _ H) as (m1 & m2 & roots & E1 & E2 & W & Hroots & Hread).
  rewrite (forest_names_keys lineages nodeTypes forest m1 m2 roots W Hroots Hread).
  exact (firstPass_observed nodeTypes lineages m1 k E1).
Qed.

(** X12. The nodes of a returned forest are the observed names and
    their parent lineages, and nothing else: a name is the name of a
    node exactly when it is not one of the names every object inherits
    and it is the non-empty name of an entry or one of the parent
    lineages of one. *)
Theorem forest_names_are_observed_or_ancestors
  (lineages : list Lineage.t) (nodeTypes : NodeTypes) (forest : list Node.t) :
  organizeLineageHierarchy lineages nodeTypes = Returns forest ->
  forall k, In k (forestNames forest)
            <-> Color.isPrototypeKey k = false /\ observedOrAncestor lineages k.
Proof.
  intros H k.
  destruct (organize_reads _ _ _ H) as (m1 & m2 & roots & E1 & E2 & W & Hroots & Hread).
  rewrite (forest_names_keys lineages nodeTypes forest m1 m2 roots W Hroots Hread).
  exact (firstPass_observed nodeTypes lineages m1 k E1).
Qed.

Lemma forest_names_are_observed_or_ancestors_witness :
  In "AY" (forestNames
             [Node.mk "AY" 7 0 7 0 (240, 100, 60)%float
                [Node.mk "AY.4" 7 7 7 0 (1, 2, 3)%float [] false 1 (Some "AY") None]
                false 0 None (Some 7)])
  <-> Color.isPrototypeKey "AY" = false
      /\ observedOrAncestor [Lineage.mk "AY.4" 7 (1, 2, 3)%float] "AY".
Proof.
  apply (forest_names_are_observed_or_ancestors
           [Lineage.mk "AY.4" 7 (1, 2, 3)%float] None).
  vm_compute. reflexivity.
Defined.

(** ** No name twice *)

Lemma NoDup_subtrees (P : list string) (ks : list Node.t) :
  NoDup (map Node.name ks) ->
  (forall k, In k ks -> NoDup (map Node.name (nodesOf k))) ->
  (forall k x, In k ks -> In x (map Node.name (nodesOf k)) ->
     exists l, linkChain x = (P ++ Node.name k :: l)%list) ->
  NoDup (map Node.name (flat_map nodesOf ks)).
Proof.
  induction ks as [|k ks IH]; intros Hn Hk Hc; [constructor|].
  cbn [flat_map]. rewrite map_app. inversion Hn as [|? ? Hnot Hn']; subst.
  apply NoDup_app.
  - apply Hk. now left.
  - apply IH; [exact Hn'| |].
    + intros k' Hk'. apply Hk. now right.
    + intros k' x Hk' Hx. apply (Hc k' x); [now right|exact Hx].
  - intros x Hx Hx'. rewrite map_flat_map' in Hx'. apply in_flat_map in Hx'.
    destruct Hx' as (k' & Hk' & Hx').
    destruct (Hc k x (or_introl eq_refl) Hx) as [l Hl].
    destruct (Hc k' x (or_intror Hk') Hx') as [l' Hl'].
    rewrite Hl in Hl'. apply app_inv_head in Hl'. injection Hl' as Hname _.
    apply Hnot. rewrite Hname. now apply in_map.
Qed.

Lemma tree_names_nodup (m1 m2 : Store) (roots : list string) (t : Node.t) :
  wellLinked m1 m2 roots ->
  everyNode (readsStore m2) t ->
  NoDup (map Node.name (nodesOf t))
  /\ forall x, In x (map Node.name (nodesOf t)) ->
       exists l, linkChain x = (linkChain (Node.name t) ++ l)%list.
Proof.
  intros W. induction t as [n IH] using Node_ind'. rewrite Forall_forall in IH.
  intros H. apply everyNode_unfold in H. destruct H as [(c & Hc & Hr) Hkids].
  rewrite Forall_forall in Hkids.
  destruct Hr as (_ & _ & _ & _ & _ & _ & Hperm).
  assert (Hchain : forall k x, In k (Node.children n) ->
            In x (map Node.name (nodesOf k)) ->
            exists l, linkChain x = (linkChain (Node.name n) ++ Node.name k :: l)%list).
  { intros k x Hk Hx. destruct (proj2 (IH k Hk (Hkids k Hk)) x Hx) as [l Hl].
    assert (Hkc : In (Node.name k) (Cell.children c)).
    { apply (Permutation_in _ Hperm). now apply in_map. }
    apply (proj2 (wl_children _ _ _ W _ _ Hc)) in Hkc. destruct Hkc as [_ Ht].
    rewrite (linkChain_child _ _ _ Ht), <- app_assoc in Hl. exists l. exact Hl. }
  assert (Hnd : NoDup (map Node.name (flat_map nodesOf (Node.children n)))).
  { apply (NoDup_subtrees (linkChain (Node.name n))).
    - apply (Permutation_NoDup (Permutation_sym Hperm)).
      exact (proj1 (wl_children _ _ _ W _ _ Hc)).
    - intros k Hk. exact (proj1 (IH k Hk (Hkids k Hk))).
    - exact Hchain. }
  rewrite nodesOf_unfold. cbn [map]. split.
  - constructor; [|exact Hnd]. intros Hin.
    rewrite map_flat_map' in Hin. apply in_flat_map in Hin.
    destruct Hin as (k & Hk & Hx). destruct (Hchain k _ Hk Hx) as [l Hl].
    apply (f_equal (@List.length string)) in Hl.
    rewrite length_app in Hl. cbn [List.length] in Hl. lia.
  - intros x [<-|Hin].
    + exists []. now rewrite app_nil_r.
    + rewrite map_flat_map' in Hin. apply in_flat_map in Hin.
      destruct Hin as (k & Hk & Hx). destruct (Hchain k _ Hk Hx) as [l Hl].
      exists (Node.name k :: l). exact Hl.
Qed.

Lemma organize_names_nodup
  (lineages : list Lineage.t) (nodeTypes : NodeTypes) (forest : list Node.t) :
  organizeLineageHierarchy lineages nodeTypes = Returns forest ->
  NoDup (forestNames forest).
Proof.
  intros H.
  destruct (organize_reads _ _ _ H) as (m1 & m2 & roots & E1 & E2 & W & Hroots & Hread).
  rewrite Forall_forall in Hread.
  apply (NoDup_subtrees []).
  - apply (Permutation_NoDup (Permutation_sym Hroots)). exact (proj1 (wl_roots _ _ _ W)).
  - intros r Hr. exact (proj1 (tree_names_nodup m1 m2 roots r W (Hread r Hr))).
  - intros r x Hr Hx.
    destruct (proj2 (tree_names_nodup m1 m2 roots r W (Hread r Hr)) x Hx) as [l Hl].
    assert (Hin : In (Node.name r) roots).
    { apply (Permutation_in _ Hroots). now apply in_map. }
    apply (proj2 (wl_roots _ _ _ W)) in Hin. destruct Hin as [Hk Ht].
    rewrite (linkChain_root (Node.name r)) in Hl.
    + exists l. exact Hl.
    + apply (unlinked_is_root nodeTypes lineages m1 m2 roots); auto.
      now apply (wellLinked_hasKey m1 m2 roots).
Qed.

(** X13. No name occurs twice in a returned forest: every observed
    name and every parent lineage is shown by one node. *)
Theorem forest_names_unique
  (lineages : list Lineage.t) (nodeTypes : NodeTypes) (forest : list Node.t) :
  organizeLineageHierarchy lineages nodeTypes = Returns forest ->
  NoDup (forestNames forest).
Proof. apply organize_names_nodup. Qed.

Lemma forest_names_unique_witness :
  NoDup (forestNames
           [Node.mk "AY" 7 0 7 0 (240, 100, 60)%float
              [Node.mk "AY.4" 7 7 7 0 (1, 2, 3)%float [] false 1 (Some "AY") None]
              false 0 None (Some 7)]).
Proof.
  apply (forest_names_unique [Lineage.mk "AY.4" 7 (1, 2, 3)%float] None).
  vm_compute. reflexivity.
Defined.

(** ** What a node carries *)

(** X14. Every node of a returned forest comes from the input: it is
    an entry, with the entry's count as its own count and the entry's
    colour, or a parent lineage of an entry, with no count of its own
    and the colour generated for its name; its level is the level of
    its name, and it is not expanded. *)
Theorem node_fields_from_input
  (lineages : list Lineage.t) (nodeTypes : NodeTypes) (forest : list Node.t) :
  organizeLineageHierarchy lineages nodeTypes = Returns forest ->
  Forall (everyNode (nodeOrigin lineages)) forest.
Proof.
  intros H.
  destruct (organize_reads _ _ _ H) as (m1 & m2 & roots & E1 & E2 & W & Hroots & Hread).
  destruct (firstPass_sound nodeTypes lineages m1 E1) as [Hs _].
  eapply Forall_impl; [|exact Hread].
  intros t. apply everyNode_impl. intros n (c & Hc & Hr).
  destruct (wl_cell _ _ _ W _ _ Hc) as (c1 & Hc1 & Hsc).
  destruct Hsc as (S1 & S2 & S3 & S4 & S5 & S6 & S7 & S8).
  destruct Hr as (R1 & R2 & R3 & R4 & R5 & R6 & R7).
  destruct (Hs _ _ Hc1) as [_ Ho]. unfold nodeOrigin.
  rewrite R2, R3, R4, R5, <- S3, <- S6, <- S7, <- S8.
  destruct Ho as [(e & He & Ht & Hk & ->)|(e & col & He & Hin & Hcol & ->)]; cbn.
  - rewrite <- Hk. repeat split. left. exists e. repeat split; auto.
  - repeat split. right. exists e. repeat split; auto.
Qed.

Lemma node_fields_from_input_witness :
  Forall (everyNode (nodeOrigin [Lineage.mk "AY.4" 7 (1, 2, 3)%float]))
    [Node.mk "AY" 7 0 7 0 (240, 100, 60)%float
       [Node.mk "AY.4" 7 7 7 0 (1, 2, 3)%float [] false 1 (Some "AY") None]
       false 0 None (Some 7)].
Proof.
  apply (node_fields_from_input [Lineage.mk "AY.4" 7 (1, 2, 3)%float] None).
  vm_compute. reflexivity.
Defined.

(** ** When the colour function throws *)

Lemma prototypeKey_cases (k : string) :
  Color.isPrototypeKey k = true -> In k Color.objectPrototypeKeys.
Proof.
  unfold Color.isPrototypeKey. rewrite existsb_exists.
  intros (x & Hx & E). apply String.eqb_eq in E. now subst.
Qed.

Lemma prototypeKey_no_base (k : string) :
  Color.isPrototypeKey k = true -> Color.baseColors k = None.
Proof.
  intros H. apply prototypeKey_cases in H.
  repeat (destruct H as [<-|H]; [vm_compute; reflexivity|]). destruct H.
Qed.

Lemma prototypeKey_dotFree (k : string) :
  Color.isPrototypeKey k = true -> dotFree k /\ k <> EmptyString.
Proof.
  intros H. apply prototypeKey_cases in H.
  repeat (destruct H as [<-|H]; [split; [vm_compute; reflexivity|discriminate]|]).
  destruct H.
Qed.

Lemma baseColorOf_throws (r : string) :
  Color.baseColorOf r = Throws <-> Color.isPrototypeKey r = true.
Proof.
  unfold Color.baseColorOf. split.
  - destruct (Color.baseColors r); [discriminate|].
    destruct (Color.isPrototypeKey r); [reflexivity|].
    destruct (String.eqb r "BA"); [discriminate|].
    destruct (1 <? Js.len r); [|discriminate].
    destruct (Color.baseColors (Js.take 1 r)); [|discriminate].
    destruct (Color.rgbToHsl r0) as [[h s] l]. discriminate.
  - intros H. now rewrite (prototypeKey_no_base r H), H.
Qed.

Lemma bind_throws {A B} (o : outcome A) (k : A -> outcome B) :
  (forall a, k a <> Throws) -> (bind o k = Throws <-> o = Throws).
Proof.
  intros Hk. destruct o as [a| |]; cbn [bind]; split; try discriminate; auto.
  intros H. now apply Hk in H.
Qed.

Lemma color_throws (name : string) (lineageData : option LineageData) :
  Color.generatePangoLineageColor name lineageData = Throws
  <-> name <> EmptyString
      /\ (Js.includes "." name = true \/ Re.run Re.lettersPattern name = true)
      /\ inheritedRoot name = true.
Proof.
  unfold Color.generatePangoLineageColor.
  destruct name as [|a s]; [cbn; split; [discriminate|intros [H _]; now contradiction H]|].
  cbn [Js.truthy negb].
  destruct (extractLineageRoot_split (String a s)) as [_ Hr]; [discriminate|].
  destruct (extractLineageRoot (String a s)) as [root nps]. cbn in Hr. subst root.
  fold (rootSegment (String a s)). unfold inheritedRoot.
  rewrite <- baseColorOf_throws.
  assert (Hne : String a s <> EmptyString) by discriminate.
  destruct (Js.includes "." (String a s)) eqn:Ei;
    destruct (Re.run Re.lettersPattern (String a s)) eqn:El; cbn [negb andb].
  4: { split; [discriminate|]. intros (_ & [H|H] & _); discriminate H. }
  all: rewrite bind_throws by (intros c; destruct (Js.alen nps =? 1); discriminate);
    split; [intros H; repeat split; auto|intros (_ & _ & H); exact H].
Qed.

(** X15. The colour function throws exactly on the non-empty names
    that contain a dot or consist of letters and whose first segment is
    a name every object inherits from [Object.prototype], such as
    [constructor] or [toString.1]; the lineage data plays no part in
    it.  On every other name it returns a colour. *)
Theorem color_throws_on_inherited_names (name : string) (lineageData : option LineageData) :
  (Color.generatePangoLineageColor name lineageData = Throws
   <-> name <> EmptyString
       /\ (Js.includes "." name = true \/ Re.run Re.lettersPattern name = true)
       /\ inheritedRoot name = true)
  /\ (Color.generatePangoLineageColor name lineageData <> Throws ->
      exists c, Color.generatePangoLineageColor name lineageData = Returns c).
Proof.
  split; [apply color_throws|].
  pose proof (generatePangoLineageColor_not_stuck name lineageData) as Hs.
  destruct (Color.generatePangoLineageColor name lineageData) as [c| |];
    [eauto|congruence|congruence].
Qed.

(** ** When the builder throws *)

Lemma firstn_hd {A} (d : A) (k : nat) (l : list A) :
  (0 < k)%nat -> hd d (firstn k l) = hd d l.
Proof. destruct k; [lia|]. now destruct l. Qed.

Lemma ancestor_segments (v p : string) :
  In p (getAllParentLineages v) ->
  exists k, (1 <= k < List.length (Js.split "." v))%nat
            /\ p = Js.join "." (firstn k (Js.split "." v))
            /\ Js.split "." p = firstn k (Js.split "." v).
Proof.
  intros Hin.
  assert (Ht : Js.truthy v = true).
  { destruct (Js.truthy v) eqn:E; [reflexivity|].
    rewrite (getAllParentLineages_falsy _ E) in Hin. destruct Hin. }
  rewrite (getAllParentLineages_seq v Ht) in Hin.
  apply in_map_iff in Hin. destruct Hin as (k & <- & Hk). apply in_seq in Hk.
  exists k. split; [lia|]. split; [reflexivity|].
  apply split_join.
  - intros E. apply (f_equal (@List.length string)) in E.
    rewrite length_firstn in E. cbn in E. lia.
  - apply Forall_firstn', split_dotFree.
Qed.

Lemma ancestor_rootSegment (v p : string) :
  In p (getAllParentLineages v) -> rootSegment p = rootSegment v.
Proof.
  intros Hin. destruct (ancestor_segments v p Hin) as (k & Hk & _ & Hs).
  unfold rootSegment. rewrite Hs. apply firstn_hd. lia.
Qed.

Lemma prototypeKey_rootSegment (k : string) :
  Color.isPrototypeKey k = true -> rootSegment k = k.
Proof.
  intros H. destruct (prototypeKey_dotFree k H) as [Hd _].
  unfold rootSegment. now rewrite (split_no_sep "." k Hd).
Qed.

Lemma throwsOn_false (ls : list Lineage.t) (e : Lineage.t) (p : string) :
  existsb throwsOn ls = false -> In e ls ->
  In p (getAllParentLineages (Lineage.value e)) ->
  inheritedRoot (Lineage.value e) = false.
Proof.
  intros Hex He Hp.
  destruct (inheritedRoot (Lineage.value e)) eqn:Ei; [|reflexivity].
  assert (existsb throwsOn ls = true); [|congruence].
  apply existsb_exists. exists e. split; [exact He|].
  unfold throwsOn. rewrite Ei.
  destruct (getAllParentLineages (Lineage.value e)); [destruct Hp|reflexivity].
Qed.

Lemma foldM_no_throw {S A} (f : S -> A -> outcome S) (l : list A) :
  (forall s a, In a l -> f s a <> Throws) -> forall s, foldM f l s <> Throws.
Proof.
  induction l as [|a l IH]; intros Hf s; [discriminate|].
  cbn [foldM]. pose proof (Hf s a (or_introl eq_refl)) as Ha.
  destruct (f s a) as [s'| |]; cbn [bind]; [|congruence|discriminate].
  apply IH. intros s0 a0 Ha0. apply Hf. now right.
Qed.

Lemma mapM_no_throw {A B} (f : A -> outcome B) (l : list A) :
  (forall a, f a <> Throws) -> mapM f l <> Throws.
Proof.
  intros Hf. induction l as [|a l IH]; [discriminate|].
  cbn [mapM]. pose proof (Hf a) as Ha.
  destruct (f a); cbn [bind]; [|congruence|discriminate].
  destruct (mapM f l); cbn [bind]; [discriminate|congruence|discriminate].
Qed.

Lemma readNode_no_throw (m : Store) (fuel : nat) (k : string) :
  readNode fuel m k <> Throws.
Proof.
  revert k. induction fuel as [|fuel IH]; intros k; [discriminate|].
  cbn [readNode]. destruct (ownProperty m k); [|discriminate].
  pose proof (mapM_no_throw (readNode fuel m) (Cell.children t) IH) as H.
  destruct (mapM (readNode fuel m) (Cell.children t)); cbn [bind];
    [discriminate|congruence|discriminate].
Qed.

Lemma firstPass_no_throw (nodeTypes : NodeTypes) (ls : list Lineage.t) :
  existsb throwsOn ls = false ->
  foldM (addLineage nodeTypes) ls [] <> Throws.
Proof.
  intros Hex. apply foldM_no_throw. intros m e He.
  unfold addLineage. destruct (negb (Js.truthy (Lineage.value e))); [discriminate|].
  apply foldM_no_throw. intros m' p Hp.
  unfold ensureParent. destruct (getProperty m' p); try discriminate.
  destruct (Color.generatePangoLineageColor p None) eqn:Ec; cbn [bind];
    [discriminate| |discriminate].
  exfalso. apply color_throws in Ec. destruct Ec as (_ & _ & Hi).
  unfold inheritedRoot in Hi. rewrite (ancestor_rootSegment _ _ Hp) in Hi.
  pose proof (throwsOn_false ls e p Hex He Hp) as Hf.
  unfold inheritedRoot in Hf. congruence.
Qed.

Lemma secondPass_no_throw (nodeTypes : NodeTypes) (ls : list Lineage.t) (m1 : Store) :
  existsb throwsOn ls = false ->
  foldM (addLineage nodeTypes) ls [] = Returns m1 ->
  foldM link (objectValues m1) (m1, []) <> Throws.
Proof.
  intros Hex E1. apply foldM_no_throw. intros [m roots] c Hc.
  unfold link.
  destruct (parent (parseLineageName (Cell.name c))) as [p|] eqn:Ep; [|discriminate].
  destruct (negb (Js.truthy p)); [discriminate|].
  destruct (getProperty m p) eqn:Eg; try discriminate.
  exfalso. apply getProperty_Inherited in Eg.
  destruct (objectValues_In m1 c Hc) as [k Hk].
  pose proof (proj1 (firstPass_pristine _ _ _ E1 k c Hk)) as Hname.
  rewrite Hname in Ep.
  destruct (proj1 (firstPass_observed nodeTypes ls m1 k E1) (In_hasKey _ _ _ Hk))
    as [_ (e & He & Ht & Hke)].
  pose proof (parent_is_ancestor k p Ep) as Hpk.
  assert (Hpe : In p (getAllParentLineages (Lineage.value e))).
  { destruct Hke as [->|Hin]; [exact Hpk|]. exact (ancestor_trans _ _ _ Hpk Hin). }
  pose proof (throwsOn_false ls e p Hex He Hpe) as Hf.
  unfold inheritedRoot in Hf.
  rewrite <- (ancestor_rootSegment _ _ Hpe), (prototypeKey_rootSegment p Eg) in Hf.
  congruence.
Qed.

Lemma organize_no_throw (nodeTypes : NodeTypes) (ls : list Lineage.t) :
  existsb throwsOn ls = false -> organizeLineageHierarchy ls nodeTypes <> Throws.
Proof.
  intros Hex. unfold organizeLineageHierarchy. destruct ls as [|e0 rest]; [discriminate|].
  set (ls := e0 :: rest) in *.
  pose proof (firstPass_no_throw nodeTypes ls Hex) as N1.
  destruct (foldM (addLineage nodeTypes) ls []) as [m1| |] eqn:E1; cbn [bind];
    [|congruence|discriminate].
  pose proof (secondPass_no_throw nodeTypes ls m1 Hex E1) as N2.
  destruct (foldM link (objectValues m1) (m1, [])) as [[m2 roots]| |] eqn:E2;
    cbn [bind]; [|congruence|discriminate].
  pose proof (mapM_no_throw (readNode (budget m2) m2) roots
                (readNode_no_throw m2 (budget m2))) as N3.
  destruct (mapM (readNode (budget m2) m2) roots); cbn [bind];
    [discriminate|congruence|discriminate].
Qed.

Lemma not_hasKey_own (m : Store) (k : string) : ~ hasKey m k -> ownProperty m k = None.
Proof.
  intros H. destruct (ownProperty m k) as [c|] eqn:E; [|reflexivity].
  exfalso. apply H. apply own_hasKey in E. eapply In_hasKey; eauto.
Qed.

Lemma organize_throws (nodeTypes : NodeTypes) (ls : list Lineage.t) (e : Lineage.t) :
  In e ls -> throwsOn e = true -> organizeLineageHierarchy ls nodeTypes = Throws.
Proof.
  intros He Hth.
  destruct (organizeLineageHierarchy ls nodeTypes) as [forest| |] eqn:Eo;
    [|reflexivity|exfalso; exact (organizeLineageHierarchy_not_stuck _ _ Eo)].
  exfalso.
  destruct (organize_pipeline _ _ _ Eo) as (m1 & m2 & roots & trees & E1 & E2 & _ & _).
  unfold throwsOn in Hth. apply andb_prop in Hth. destruct Hth as [Hroot Hpar].
  set (v := Lineage.value e) in *.
  assert (Ht : Js.truthy v = true).
  { destruct (Js.truthy v) eqn:E; [reflexivity|].
    rewrite (getAllParentLineages_falsy _ E) in Hpar. discriminate. }
  assert (Hv : v <> EmptyString) by (intros E; rewrite E in Ht; discriminate).
  pose proof (split_dotFree v) as Hdf.
  assert (Hlen : (1 < List.length (Js.split "." v))%nat).
  { rewrite (getAllParentLineages_seq v Ht) in Hpar.
    destruct (List.length (Js.split "." v)) as [|[|n]]; [discriminate|discriminate|lia]. }
  unfold inheritedRoot, rootSegment in Hroot.
  destruct (Js.split "." v) as [|r [|s1 rest]] eqn:Es; cbn in Hlen; try lia.
  cbn [hd] in Hroot.
  set (q := Js.join "." [r; s1]).
  assert (Hsq : Js.split "." q = [r; s1]).
  { apply split_join; [discriminate|].
    inversion Hdf as [|? ? H1 Hdf']; subst. inversion Hdf'; subst. repeat constructor; auto. }
  assert (Hq : q <> EmptyString).
  { intros E. rewrite E in Hsq. discriminate. }
  assert (Hpq : parent (parseLineageName q) = Some r).
  { rewrite (parse_parent q Hq), Hsq. reflexivity. }
  assert (Hnp : Color.isPrototypeKey q = false).
  { destruct (Color.isPrototypeKey q) eqn:E; [|reflexivity].
    destruct (prototypeKey_dotFree q E) as [Hd _].
    rewrite (split_no_sep "." q Hd) in Hsq. discriminate. }
  destruct (firstPass_extends nodeTypes ls [] m1 E1) as [_ Hpres].
  destruct (Hpres e He Ht) as [Hpv Hpp]. fold v in Hpv, Hpp.
  assert (Hkq : hasKey m1 q).
  { apply present_hasKey; [|exact Hnp].
    destruct rest as [|s2 rest].
    - replace q with v; [exact Hpv|]. unfold q. rewrite <- Es. symmetry. apply join_split.
    - apply Hpp. rewrite (getAllParentLineages_seq v Ht), Es.
      apply in_map_iff. exists 2%nat. split; [reflexivity|].
      apply in_seq. cbn [List.length]. lia. }
  assert (Hnr : ~ hasKey m1 r).
  { intros Hk. destruct (proj1 (firstPass_observed nodeTypes ls m1 r E1) Hk) as [Hf _].
    congruence. }
  pose proof (names_perm m1 (firstPass_pristine _ _ _ E1)) as Hnames.
  assert (Hin : In q (map Cell.name (objectValues m1))).
  { apply (Permutation_in _ (Permutation_sym Hnames)). exact Hkq. }
  apply in_map_iff in Hin. destruct Hin as (c & Hc & Hcin).
  rewrite <- Hc in Hpq.
  assert (Htr : Js.truthy r = true).
  { destruct (prototypeKey_dotFree r Hroot) as [_ Hne]. destruct r; [contradiction|reflexivity]. }
  apply (secondPass_no_inherited _ _ _ _ E2 c r Hcin Hpq Htr).
  unfold getProperty. now rewrite (not_hasKey_own m1 r Hnr), Hroot.
Qed.

(** X16. The builder throws exactly when some entry has a name with
    parent lineages whose first segment is a name every object inherits
    from [Object.prototype], such as [constructor.1]; on every other
    input it returns a forest. *)
Theorem organize_throws_on_inherited_roots
  (lineages : list Lineage.t) (nodeTypes : NodeTypes) :
  (organizeLineageHierarchy lineages nodeTypes = Throws
   <-> exists e, In e lineages /\ throwsOn e = true)
  /\ ((exists forest, organizeLineageHierarchy lineages nodeTypes = Returns forest)
      <-> forall e, In e lineages -> throwsOn e = false).
Proof.
  assert (Hiff : organizeLineageHierarchy lineages nodeTypes = Throws
                 <-> exists e, In e lineages /\ throwsOn e = true).
  { split.
    - intros H. destruct (existsb throwsOn lineages) eqn:Ex.
      + apply existsb_exists in Ex. exact Ex.
      + exfalso. exact (organize_no_throw nodeTypes lineages Ex H).
    - intros (e & He & Hth). exact (organize_throws nodeTypes lineages e He Hth). }
  split; [exact Hiff|]. split.
  - intros [forest Hf] e He. destruct (throwsOn e) eqn:Et; [|reflexivity].
    rewrite (organize_throws nodeTypes lineages e He Et) in Hf. discriminate.
  - intros Hall.
    pose proof (organizeLineageHierarchy_not_stuck lineages nodeTypes) as Hs.
    destruct (organizeLineageHierarchy lineages nodeTypes) as [forest| |] eqn:Eo;
      [eauto| |congruence].
    exfalso. destruct (proj1 Hiff eq_refl) as (e & He & Ht).
    rewrite (Hall e He) in Ht. discriminate.
Qed.

(** ** [getKeyStuff] *)

Lemma ownTally_Some (counts : Tallies) (k : string) (t : Tally) :
  ownTally counts k = Some t -> In (k, t) counts.
Proof.
  unfold ownTally. destruct (find _ counts) as [[k' t']|] eqn:E; [|discriminate].
  intros [= <-]. apply find_some in E. destruct E as [Hin He].
  apply String.eqb_eq in He. cbn in He. now subst.
Qed.

Lemma ownTally_None (counts : Tallies) (k : string) :
  ownTally counts k = None -> ~ In k (map fst counts).
Proof.
  unfold ownTally. destruct (find _ counts) as [kv|] eqn:E; [discriminate|].
  intros _ Hin. apply in_map_iff in Hin. destruct Hin as ([k' t] & <- & Hin).
  pose proof (find_none _ _ E _ Hin) as Hf. cbn in Hf.
  now rewrite String.eqb_refl in Hf.
Qed.

Lemma count_occ_snoc (l : list string) (v k : string) :
  count_occ string_dec (l ++ [v]) k
  = (count_occ string_dec l k + if String.eqb v k then 1 else 0)%nat.
Proof.
  rewrite count_occ_app. cbn. destruct (string_dec v k) as [->|Hne].
  - now rewrite String.eqb_refl.
  - destruct (String.eqb_spec v k); [contradiction|reflexivity].
Qed.

Lemma tally_step (seen : list string) (counts : Tallies) (v : string) :
  talliesOf seen counts -> talliesOf (seen ++ [v]) (tally counts v).
Proof.
  intros (Hnd & Hs & Hc). unfold tally.
  assert (Hold : forall k t, In (k, t) counts -> k <> v ->
            In k (seen ++ [v]) /\ k <> "__proto__"
            /\ t = if Color.isPrototypeKey k then NotANumber
                   else Counted (Z.of_nat (count_occ string_dec (seen ++ [v]) k))).
  { intros k t Hin Hne. destruct (Hs k t Hin) as (H1 & H2 & H3).
    split; [apply in_or_app; now left|]. split; [exact H2|].
    rewrite count_occ_snoc. destruct (String.eqb_spec v k); [congruence|].
    now rewrite Nat.add_0_r. }
  assert (Hcov : forall (counts' : Tallies),
            (forall k, In k (map fst counts) -> In k (map fst counts')) ->
            (v <> "__proto__" -> In v (map fst counts')) ->
            forall k, In k (seen ++ [v]) -> k <> "__proto__" -> In k (map fst counts')).
  { intros counts' Hsub Hv k Hin Hne. apply in_app_or in Hin.
    destruct Hin as [Hin|[<-|[]]]; [apply Hsub, Hc; auto|now apply Hv]. }
  destruct (ownTally counts v) as [t0|] eqn:Eo.
  - (* the value has been counted before *)
    apply ownTally_Some in Eo.
    set (f := fun kv : string * Tally =>
                if String.eqb (fst kv) v then (fst kv, increment (snd kv)) else kv).
    assert (Hkeys : map fst (map f counts) = map fst counts).
    { rewrite map_map. apply map_ext. intros [k t]. unfold f. cbn.
      now destruct (String.eqb k v). }
    split; [now rewrite Hkeys|]. split.
    + intros k t Hin. apply in_map_iff in Hin. destruct Hin as ([k0 t1] & Hf & Hin).
      unfold f in Hf. cbn in Hf. destruct (String.eqb_spec k0 v) as [->|Hne].
      * injection Hf as <- <-. destruct (Hs v t1 Hin) as (H1 & H2 & H3).
        split; [apply in_or_app; now left|]. split; [exact H2|].
        rewrite H3, count_occ_snoc, String.eqb_refl.
        destruct (Color.isPrototypeKey v); [reflexivity|]. cbn. f_equal. lia.
      * injection Hf as <- <-. now apply Hold.
    + apply Hcov; [now rewrite Hkeys|]. intros _. rewrite Hkeys.
      apply in_map_iff. exists (v, t0). auto.
  - (* the value is new *)
    apply ownTally_None in Eo.
    assert (Hsnoc : forall t, v <> "__proto__" ->
              t = (if Color.isPrototypeKey v then NotANumber else Counted 1) ->
              talliesOf (seen ++ [v]) (counts ++ [(v, t)])%list).
    { intros t Hv Ht.
      assert (Hnew : count_occ string_dec (seen ++ [v]) v = 1%nat).
      { rewrite count_occ_snoc, String.eqb_refl.
        destruct (Nat.eq_dec (count_occ string_dec seen v) 0) as [E|E]; [lia|].
        exfalso. assert (Hin : In v seen) by (apply (count_occ_In string_dec); lia).
        exact (Eo (Hc v Hin Hv)). }
      split; [rewrite map_app; apply NoDup_snoc; assumption|]. split.
      - intros k t' Hin. apply in_app_or in Hin. destruct Hin as [Hin|[E|[]]].
        + apply Hold; [exact Hin|]. intros ->. apply Eo.
          apply in_map_iff. exists (v, t'). auto.
        + injection E as <- <-. split; [apply in_or_app; right; now left|].
          split; [exact Hv|]. now rewrite Hnew.
      - apply Hcov.
        + intros k Hk. rewrite map_app. apply in_or_app. now left.
        + intros _. rewrite map_app. apply in_or_app. right. now left. }
    destruct (Color.isPrototypeKey v) eqn:Ep.
    + destruct (String.eqb_spec v "__proto__") as [Ev|Ev].
      * split; [exact Hnd|]. split.
        -- intros k t Hin. apply Hold; [exact Hin|]. intros ->.
           destruct (Hs _ _ Hin) as (_ & H2 & _). contradiction.
        -- apply Hcov; [auto|]. intros H. contradiction.
      * now apply Hsnoc.
    + apply Hsnoc; [|reflexivity]. intros ->. discriminate Ep.
Qed.

Lemma tally_all (values : list string) :
  forall seen counts, talliesOf seen counts ->
    talliesOf (seen ++ values) (fold_left tally values counts).
Proof.
  induction values as [|v values IH]; intros seen counts H; cbn [fold_left].
  - now rewrite app_nil_r.
  - replace (seen ++ v :: values)%list with ((seen ++ [v]) ++ values)%list
      by (now rewrite <- app_assoc).
    apply IH. now apply tally_step.
Qed.

Lemma fold_left_map {A B C} (f : A -> B -> A) (g : C -> B) (l : list C) (a : A) :
  fold_left (fun acc x => f acc (g x)) l a = fold_left f (map g l) a.
Proof. revert a. induction l as [|x l IH]; intros a; [reflexivity|]. cbn. apply IH. Qed.

Lemma insertTally_perm (x : string * Tally) (l : Tallies) :
  Permutation (insertTally x l) (x :: l).
Proof.
  induction l as [|y l IH]; simpl; [reflexivity|].
  destruct (tallyIndex x <=? tallyIndex y); [reflexivity|].
  rewrite IH. apply perm_swap.
Qed.

Lemma ownEntries_perm (counts : Tallies) : Permutation (ownEntries counts) counts.
Proof.
  unfold ownEntries.
  rewrite <- (filter_partition_perm tallyIndexed counts) at 3.
  apply Permutation_app_tail.
  induction (filter tallyIndexed counts) as [|x l IH]; simpl; [reflexivity|].
  rewrite insertTally_perm. now constructor.
Qed.

Lemma getKeyStuff_entries {N F} (f : N -> string) (colorByField : F)
  (nodes : list N) (toRGB : string -> RGB) :
  exists counts,
    talliesOf (map f nodes) counts
    /\ Permutation (ownEntries counts) counts
    /\ getKeyStuff f colorByField nodes toRGB
       = map (fun kv => KeyItem.mk (fst kv) (snd kv) (toRGB (fst kv))) (ownEntries counts).
Proof.
  exists (fold_left tally (map f nodes) []). split; [|split].
  - apply (tally_all (map f nodes) [] []).
    split; [constructor|]. split; [intros k t []|intros k []].
  - apply ownEntries_perm.
  - unfold getKeyStuff. now rewrite fold_left_map.
Qed.

Lemma getKeyStuff_items {N F : Type} (getNodeColorField : N -> string)
  (colorByField : F) (nodes : list N) (toRGB : string -> RGB) :
  Forall (fun item =>
            In (KeyItem.value item) (map getNodeColorField nodes)
            /\ KeyItem.color item = toRGB (KeyItem.value item)
            /\ KeyItem.count item
               = if Color.isPrototypeKey (KeyItem.value item) then NotANumber
                 else Counted (occurrences getNodeColorField nodes (KeyItem.value item)))
    (getKeyStuff getNodeColorField colorByField nodes toRGB).
Proof.
  destruct (getKeyStuff_entries getNodeColorField colorByField nodes toRGB)
    as (counts & (Hnd & Hs & Hc) & Hperm & ->).
  rewrite Forall_map, Forall_forall. intros [k t] Hin. cbn.
  apply (Permutation_in _ Hperm) in Hin.
  destruct (Hs k t Hin) as (H1 & _ & H3). auto.
Qed.

Lemma getKeyStuff_values {N F : Type} (getNodeColorField : N -> string)
  (colorByField : F) (nodes : list N) (toRGB : string -> RGB) :
  NoDup (map KeyItem.value (getKeyStuff getNodeColorField colorByField nodes toRGB))
  /\ forall v,
       In v (map KeyItem.value (getKeyStuff getNodeColorField colorByField nodes toRGB))
       <-> In v (map getNodeColorField nodes) /\ v <> "__proto__".
Proof.
  destruct (getKeyStuff_entries getNodeColorField colorByField nodes toRGB)
    as (counts & (Hnd & Hs & Hc) & Hperm & ->).
  rewrite map_map. cbn [KeyItem.value].
  assert (Hp : Permutation (map (fun x : string * Tally => fst x) (ownEntries counts))
                 (map fst counts)) by (now apply Permutation_map).
  split.
  - apply (Permutation_NoDup (Permutation_sym Hp)). exact Hnd.
  - intros v. split.
    + intros Hin. apply (Permutation_in _ Hp) in Hin.
      apply in_map_iff in Hin. destruct Hin as ([k t] & <- & Hin).
      destruct (Hs k t Hin) as (H1 & H2 & _). auto.
    + intros [Hin Hne]. apply (Permutation_in _ (Permutation_sym Hp)).
      now apply Hc.
Qed.

(** X17. [getKeyStuff] counts how often each field value occurs.  Every
    entry it returns carries a value that some node has, the colour
    [toRGB] gives for it and, as its count, the number of nodes with
    that value; for a value that is a name every object inherits from
    [Object.prototype] the count is [NaN] instead. *)
Theorem getKeyStuff_counts_occurrences {N F : Type} (getNodeColorField : N -> string)
  (colorByField : F) (nodes : list N) (toRGB : string -> RGB) :
  Forall (fun item =>
            In (KeyItem.value item) (map getNodeColorField nodes)
            /\ KeyItem.color item = toRGB (KeyItem.value item)
            /\ KeyItem.count item
               = if Color.isPrototypeKey (KeyItem.value item) then NotANumber
                 else Counted (occurrences getNodeColorField nodes (KeyItem.value item)))
    (getKeyStuff getNodeColorField colorByField nodes toRGB).
Proof. apply getKeyStuff_items. Qed.

(** X18. [getKeyStuff] returns one entry for each field value that
    occurs: no value is listed twice, and a value is listed exactly
    when some node has it, except for [__proto__], which is never
    listed. *)
Theorem getKeyStuff_lists_each_value_once {N F : Type} (getNodeColorField : N -> string)
  (colorByField : F) (nodes : list N) (toRGB : string -> RGB) :
  NoDup (map KeyItem.value (getKeyStuff getNodeColorField colorByField nodes toRGB))
  /\ forall v,
       In v (map KeyItem.value (getKeyStuff getNodeColorField colorByField nodes toRGB))
       <-> In v (map getNodeColorField nodes) /\ v <> "__proto__".
Proof. apply getKeyStuff_values. Qed.

(** X19. The entries of [getKeyStuff] as the builder reads them.  When
    no field value is a name inherited from [Object.prototype], every
    entry has a whole number as its count, no two entries share a name,
    and in every forest the builder returns for them the own count of a
    node is the number of dataset nodes with its name, or zero. *)
Theorem keyStuff_feeds_builder {N F : Type} (getNodeColorField : N -> string)
  (colorByField : F) (nodes : list N) (toRGB : string -> RGB) :
  (forall n, In n nodes -> Color.isPrototypeKey (getNodeColorField n) = false) ->
  exists lineages,
    map asLineage (getKeyStuff getNodeColorField colorByField nodes toRGB)
    = map Some lineages
    /\ NoDup (map Lineage.value lineages)
    /\ forall forest,
         organizeLineageHierarchy lineages None = Returns forest ->
         Forall (everyNode (ownCountFrom getNodeColorField nodes)) forest.
Proof.
  intros Hnp.
  pose proof (getKeyStuff_items getNodeColorField colorByField nodes toRGB)
    as Hitems.
  pose proof (proj1 (getKeyStuff_values getNodeColorField colorByField
                       nodes toRGB)) as Hnd.
  set (items := getKeyStuff getNodeColorField colorByField nodes toRGB) in *.
  set (toL := fun item : KeyItem.t =>
                Lineage.mk (KeyItem.value item)
                  (occurrences getNodeColorField nodes (KeyItem.value item))
                  (KeyItem.color item)).
  assert (Hproto : forall item, In item items ->
            Color.isPrototypeKey (KeyItem.value item) = false).
  { intros item Hin. rewrite Forall_forall in Hitems.
    destruct (Hitems item Hin) as (Hv & _). apply in_map_iff in Hv.
    destruct Hv as (n & <- & Hn). now apply Hnp. }
  exists (map toL items). split; [|split].
  - rewrite map_map. apply map_ext_in. intros item Hin.
    rewrite Forall_forall in Hitems. destruct (Hitems item Hin) as (_ & _ & Hc).
    unfold asLineage. rewrite Hc, (Hproto item Hin). reflexivity.
  - rewrite map_map. cbn [Lineage.value]. exact Hnd.
  - intros forest Hf.
    destruct (organize_reads _ _ _ Hf) as (m1 & m2 & roots & E1 & E2 & W & Hroots & Hread).
    destruct (firstPass_sound None (map toL items) m1 E1) as [Hs _].
    eapply Forall_impl; [|exact Hread].
    intros t. apply everyNode_impl. intros n (c & Hc & Hr).
    destruct (wl_cell _ _ _ W _ _ Hc) as (c1 & Hc1 & Hsc).
    destruct Hsc as (_ & _ & S3 & _).
    destruct Hr as (_ & R2 & _).
    destruct (Hs _ _ Hc1) as [_ Ho]. unfold ownCountFrom. rewrite R2, <- S3.
    destruct Ho as [(e & He & _ & Hk & ->)|(e & col & _ & _ & _ & ->)]; cbn.
    + left. apply in_map_iff in He. destruct He as (i & <- & _). cbn in *.
      now rewrite Hk.
    + now right.
Qed.

Lemma keyStuff_feeds_builder_witness :
  exists lineages,
    map asLineage (getKeyStuff (fun n : string => n) tt ["B"; "B.1"; "B"]
                     (fun _ => (1, 2, 3)%float))
    = map Some lineages
    /\ NoDup (map Lineage.value lineages)
    /\ forall forest,
         organizeLineageHierarchy lineages None = Returns forest ->
         Forall (everyNode (ownCountFrom (fun n : string => n) ["B"; "B.1"; "B"])) forest.
Proof.
  apply (keyStuff_feeds_builder (fun n : string => n) tt ["B"; "B.1"; "B"]
           (fun _ => (1, 2, 3)%float)).
  intros n [<-|[<-|[<-|[]]]]; reflexivity.
Defined.

(** ** The search inside the colour function *)

Lemma findNodeAt_unfold (target : string) (n : Node.t) :
  Color.findNodeAt target n
  = if String.eqb (Node.name n) target then Some n
    else Color.findNode (Node.children n) target.
Proof.
  destruct n as [name ? ? ? ? ? kids ? ? ? ?]. cbn.
  destruct (String.eqb name target); [reflexivity|].
  induction kids as [|k kids IH]; [reflexivity|].
  cbn. destruct (Color.findNodeAt target k); [reflexivity|exact IH].
Qed.

Lemma find_app' {A} (f : A -> bool) (l1 l2 : list A) :
  find f (l1 ++ l2) = match find f l1 with Some x => Some x | None => find f l2 end.
Proof.
  induction l1 as [|x l1 IH]; [reflexivity|]. cbn. now destruct (f x).
Qed.

Lemma findNodeAt_preorder (target : string) (n : Node.t) :
  Color.findNodeAt target n
  = find (fun x => String.eqb (Node.name x) target) (nodesOf n).
Proof.
  induction n as [n IH] using Node_ind'.
  rewrite findNodeAt_unfold, nodesOf_unfold. cbn [find].
  destruct (String.eqb (Node.name n) target); [reflexivity|].
  induction IH as [|k ks Hk _ IHk]; [reflexivity|].
  cbn [Color.findNode flat_map]. rewrite find_app', Hk.
  destruct (find _ (nodesOf k)); [reflexivity|exact IHk].
Qed.

Lemma findNode_preorder (nodes : list Node.t) (targetName : string) :
  Color.findNode nodes targetName
  = find (fun x => String.eqb (Node.name x) targetName) (flat_map nodesOf nodes).
Proof.
  induction nodes as [|n nodes IH]; [reflexivity|].
  cbn [Color.findNode flat_map]. rewrite find_app', findNodeAt_preorder.
  destruct (find _ (nodesOf n)); [reflexivity|exact IH].
Qed.

Lemma find_name_none (l : list Node.t) (targetName : string) :
  find (fun x => String.eqb (Node.name x) targetName) l = None
  <-> ~ In targetName (map Node.name l).
Proof.
  split.
  - intros Hn Hin. apply in_map_iff in Hin. destruct Hin as (x & Hx & Hin).
    pose proof (find_none _ _ Hn x Hin) as Hf. cbn in Hf.
    rewrite Hx, String.eqb_refl in Hf. discriminate.
  - intros Hn. destruct (find _ l) as [x|] eqn:E; [|reflexivity].
    exfalso. apply find_some in E. destruct E as [Hin He].
    apply String.eqb_eq in He. apply Hn. apply in_map_iff. eauto.
Qed.

(** X20. The search for a node by name inside the colour function
    returns the first node with that name in the pre-order of the
    forest: a node before its children, the children in their order;
    it returns nothing exactly when no node has the name. *)
Theorem findNode_is_first_in_preorder (nodes : list Node.t) (targetName : string) :
  Color.findNode nodes targetName
  = find (fun x => String.eqb (Node.name x) targetName) (flat_map nodesOf nodes)
  /\ (Color.findNode nodes targetName = None <-> ~ In targetName (forestNames nodes)).
Proof.
  split; [apply findNode_preorder|].
  rewrite findNode_preorder. apply find_name_none.
Qed.

(** X26. The lineage data reaches the colour only through the node of
    that name: when the hierarchy is missing, or holds no node with the
    name, the colour is the one computed without lineage data. *)
Theorem color_ignores_data_without_the_node (name : string) (lineageData : LineageData) :
  match hierarchyData lineageData with
  | Some nodes => ~ In name (forestNames nodes)
  | None => True
  end ->
  Color.generatePangoLineageColor name (Some lineageData)
  = Color.generatePangoLineageColor name None.
Proof.
  intros H. unfold Color.generatePangoLineageColor.
  destruct (negb (Js.truthy name)); [reflexivity|].
  destruct (_ && _); [reflexivity|].
  destruct (extractLineageRoot name) as [[root|] nps]; [|reflexivity].
  destruct (Color.baseColorOf root) as [base| |]; cbn [bind]; try reflexivity.
  assert (Hroot : Color.rootLevelColor name (Some lineageData) base
                  = Color.rootLevelColor name None base).
  { unfold Color.rootLevelColor.
    destruct (hierarchyData lineageData) as [nodes|]; [|reflexivity].
    replace (find (fun node => String.eqb (Node.name node) name) nodes) with (@None Node.t);
      [reflexivity|].
    symmetry. apply find_name_none. intros Hin. apply H.
    apply in_map_iff in Hin. destruct Hin as (x & Hx & Hin).
    unfold forestNames. apply in_map_iff. exists x. split; [exact Hx|].
    apply in_flat_map. exists x. split; [exact Hin|apply nodesOf_self]. }
  assert (Hdeep : Color.deeperLevelColor name (Some lineageData) base nps
                  = Color.deeperLevelColor name None base nps).
  { unfold Color.deeperLevelColor.
    destruct (hierarchyData lineageData) as [nodes|]; [|reflexivity].
    rewrite findNode_preorder.
    replace (find (fun x => String.eqb (Node.name x) name) (flat_map nodesOf nodes))
      with (@None Node.t); [reflexivity|].
    symmetry. now apply find_name_none. }
  now rewrite Hroot, Hdeep.
Qed.

Lemma color_ignores_data_without_the_node_witness :
  Color.generatePangoLineageColor "B.1"
    (Some (mkLineageData
             (Some [Node.mk "A" 2 2 2 0 (1, 2, 3)%float [] false 0 None None]) None))
  = Color.generatePangoLineageColor "B.1" None.
Proof.
  apply (color_ignores_data_without_the_node "B.1").
  cbn. intros [H|[]]. discriminate H.
Defined.

(** ** Conservation of the counts *)

Lemma sumZ_perm (l l' : list Z) : Permutation l l' -> sumZ l = sumZ l'.
Proof. induction 1; cbn; unfold sumZ in *; cbn; lia. Qed.

Lemma sumZ_app (l l' : list Z) : sumZ (l ++ l') = sumZ l + sumZ l'.
Proof. induction l as [|x l IH]; cbn; unfold sumZ in *; cbn; lia. Qed.

Lemma sumOwn_sumZ (l : list Node.t) : sumOwn l = sumZ (map Node.originalCount l).
Proof. induction l as [|x l IH]; [reflexivity|]. cbn. unfold sumOwn, sumZ in *. cbn. lia. Qed.

Lemma storeOwn_sumZ (m : Store) :
  storeOwn m = sumZ (map (fun kc => Cell.originalCount (snd kc)) m).
Proof. induction m as [|x l IH]; [reflexivity|]. unfold storeOwn, sumZ in *. cbn. lia. Qed.

Lemma sumEntries_sumZ (l : list Lineage.t) : sumEntries l = sumZ (map Lineage.count l).
Proof. induction l as [|x l IH]; [reflexivity|]. unfold sumEntries, sumZ in *. cbn. lia. Qed.

Lemma NoDup_own (m : Store) (k : string) (c : Cell.t) :
  NoDup (map fst m) -> In (k, c) m -> ownProperty m k = Some c.
Proof.
  intros Hn Hin. destruct (hasKey_own m k (In_hasKey m k c Hin)) as (c' & Ho & Hin').
  now rewrite Ho, (NoDup_keys_unique m k c c' Hn Hin Hin').
Qed.

(** The own counts of the nodes of the forest are those filed in the
    map, each once. *)
Lemma forest_own_is_store (lineages : list Lineage.t) (nodeTypes : NodeTypes)
  (forest : list Node.t) (m1 : Store) :
  organizeLineageHierarchy lineages nodeTypes = Returns forest ->
  foldM (addLineage nodeTypes) lineages [] = Returns m1 ->
  sumOwn (flat_map nodesOf forest) = storeOwn m1.
Proof.
  intros H E1.
  pose proof (organize_names_nodup _ _ _ H) as Hnd.
  destruct (organize_reads _ _ _ H) as (m1' & m2 & roots & E1' & E2 & W & Hroots & Hread).
  assert (m1' = m1) by congruence. subst m1'.
  destruct (firstPass_sound nodeTypes lineages m1 E1) as [_ Hn].
  assert (Hperm : Permutation (forestNames forest) (map fst m1)).
  { apply NoDup_Permutation; [exact Hnd|exact Hn|].
    intros k. exact (forest_names_keys lineages nodeTypes forest m1 m2 roots W Hroots Hread k). }
  rewrite sumOwn_sumZ, storeOwn_sumZ.
  replace (map Node.originalCount (flat_map nodesOf forest))
    with (map (ownCountOf m1) (forestNames forest)).
  - rewrite (sumZ_perm _ _ (Permutation_map (ownCountOf m1) Hperm)).
    f_equal. rewrite map_map. apply map_ext_in. intros [k c] Hin. cbn.
    unfold ownCountOf. now rewrite (NoDup_own m1 k c Hn Hin).
  - unfold forestNames. rewrite map_map. apply map_ext_in. intros n Hin.
    destruct (forest_nodes_read m2 forest n Hread Hin) as (c & Hc & Hr).
    destruct (wl_cell _ _ _ W _ _ Hc) as (c1 & Hc1 & Hsc).
    unfold ownCountOf. rewrite (NoDup_own m1 _ c1 Hn Hc1).
    destruct Hsc as (_ & _ & S3 & _). destruct Hr as (_ & R2 & _). congruence.
Qed.

Lemma isObserved_iff (l : list Lineage.t) (kc : string * Cell.t) :
  isObserved l kc = true
  <-> exists e, In e l /\ counted e = true /\ Lineage.value e = fst kc.
Proof.
  unfold isObserved. rewrite existsb_exists. split.
  - intros (e & He & Hv). apply filter_In in He. apply String.eqb_eq in Hv.
    exists e. tauto.
  - intros (e & He & Hc & Hv). exists e. rewrite filter_In, String.eqb_eq. tauto.
Qed.

(** Under the invariant of the first pass the map holds the objects of
    the filed entries and, besides them, only objects without a count of
    their own. *)
Lemma firstPass_store_own (nodeTypes : NodeTypes) (ls : list Lineage.t) (m : Store) :
  NoDup (map Lineage.value ls) ->
  firstPassInv nodeTypes ls m ->
  storeOwn m = sumEntries (filter counted ls).
Proof.
  intros Hvals [Hs Hr Hp Hn].
  pose proof (NoDup_keys_pairs m Hn) as Hnm.
  assert (Hcount : forall e, In e (filter counted ls) ->
            In e ls /\ Js.truthy (Lineage.value e) = true
            /\ Color.isPrototypeKey (Lineage.value e) = false).
  { intros e He. apply filter_In in He. destruct He as [He Hc].
    unfold counted in Hc. apply andb_prop in Hc. destruct Hc as [Ht Hq].
    apply negb_true_iff in Hq. auto. }
  assert (Hreal : Permutation (filter (isObserved ls) m)
                    (map (realEntry nodeTypes) (filter counted ls))).
  { apply NoDup_Permutation.
    - now apply NoDup_filter.
    - apply (NoDup_map_inv fst). rewrite map_map. cbn.
      clear - Hvals. induction ls as [|e ls IH]; [constructor|].
      cbn in Hvals. inversion Hvals as [|? ? Hnot Hv']; subst.
      cbn [filter]. destruct (counted e); [|now apply IH].
      cbn. constructor; [|now apply IH].
      intros Hin. apply Hnot. apply in_map_iff in Hin. destruct Hin as (x & Hx & Hin).
      apply filter_In in Hin. apply in_map_iff. exists x. tauto.
    - intros [k c]. rewrite filter_In, isObserved_iff, in_map_iff. split.
      + intros [Hin (e & He & Hc & Hv)]. cbn in Hv. subst k.
        exists e. split; [|apply filter_In; auto].
        unfold realEntry. f_equal.
        assert (Hf : In e (filter counted ls)) by (apply filter_In; auto).
        destruct (Hcount e Hf) as (_ & Ht & Hq).
        exact (NoDup_keys_unique m _ _ _ Hn (Hr e He Ht Hq) Hin).
      + intros (e & He & Hf). unfold realEntry in He. injection He as <- <-.
        destruct (Hcount e Hf) as (Hin & Ht & Hq). split; [now apply Hr|].
        exists e. apply filter_In in Hf. cbn. tauto. }
  assert (Hsynth : Forall (fun kc => Cell.originalCount (snd kc) = 0)
                     (filter (fun kc => negb (isObserved ls kc)) m)).
  { rewrite Forall_forall. intros [k c] Hin. apply filter_In in Hin.
    destruct Hin as [Hin Hno]. apply negb_true_iff in Hno. cbn.
    destruct (Hs k c Hin) as [Hq [(e & He & Ht & Hk & _)|(e & col & _ & _ & _ & ->)]];
      [|reflexivity].
    exfalso. assert (Ho : isObserved ls (k, c) = true); [|congruence].
    apply isObserved_iff. exists e. cbn. repeat split; auto.
    unfold counted. subst k. now rewrite Ht, Hq. }
  rewrite storeOwn_sumZ, sumEntries_sumZ.
  rewrite <- (sumZ_perm _ _ (Permutation_map _ (filter_partition_perm (isObserved ls) m))).
  rewrite map_app, sumZ_app.
  rewrite (sumZ_perm _ _ (Permutation_map _ Hreal)), map_map. cbn.
  replace (sumZ (map (fun kc => Cell.originalCount (snd kc))
                   (filter (fun kc => negb (isObserved ls kc)) m))) with 0.
  - rewrite Z.add_0_r. f_equal.
  - clear - Hsynth. induction Hsynth as [|x l Hx _ IH]; [reflexivity|].
    cbn. unfold sumZ in *. cbn. lia.
Qed.

(** X21. No count is lost or counted twice.  When the counts of the
    entries add up to at most 2^53 in magnitude, no two entries share a
    name and every observed name is listed before the observed names
    below it, the totals of the roots of the returned forest add up to
    the sum of the counts of the entries the builder files (those whose
    name is not empty and not inherited from [Object.prototype]). *)
Theorem root_totals_conserve_counts
  (lineages : list Lineage.t) (nodeTypes : NodeTypes) (forest : list Node.t) :
  countsBounded lineages ->
  NoDup (map Lineage.value lineages) ->
  ancestorsFirst [] lineages = true ->
  organizeLineageHierarchy lineages nodeTypes = Returns forest ->
  sumCounts forest = sumEntries (filter counted lineages).
Proof.
  intros _ Hvals Hanc H.
  destruct (organize_pipeline _ _ _ H) as (m1 & _ & _ & _ & E1 & _).
  assert (Hc : consistentNames lineages).
  { intros e e' He He' Hv. clear - Hvals He He' Hv.
    induction lineages as [|x xs IH]; [destruct He|].
    cbn in Hvals. inversion Hvals as [|? ? Hnot Hnd']; subst.
    destruct He as [->|He]; destruct He' as [->|He'].
    - reflexivity.
    - exfalso. apply Hnot. rewrite Hv. now apply in_map.
    - exfalso. apply Hnot. rewrite <- Hv. now apply in_map.
    - now apply IH. }
  pose proof (firstPass_inv_start nodeTypes lineages m1 Hc Hanc E1) as Hinv.
  rewrite <- (firstPass_store_own nodeTypes lineages m1 Hvals Hinv).
  rewrite <- (forest_own_is_store lineages nodeTypes forest m1 H E1).
  apply sumCounts_subtrees. apply organize_subtree_sums in H.
  eapply Forall_impl; [|exact H]. intros t Ht.
  apply everyNode_unfold in Ht. exact (proj1 Ht).
Qed.

Lemma root_totals_conserve_counts_witness :
  sumCounts
    [Node.mk "B" 8 5 8 0 (1, 2, 3)%float
       [Node.mk "B.1" 3 3 3 0 (1, 2, 3)%float [] false 1 (Some "B") None]
       false 0 None (Some 8)]
  = sumEntries (filter counted
      [Lineage.mk "B" 5 (1, 2, 3)%float; Lineage.mk "B.1" 3 (1, 2, 3)%float]).
Proof.
  apply (root_totals_conserve_counts
           [Lineage.mk "B" 5 (1, 2, 3)%float; Lineage.mk "B.1" 3 (1, 2, 3)%float] None).
  - unfold countsBounded, exactBound. cbn. lia.
  - repeat constructor; cbn; intuition discriminate.
  - vm_compute. reflexivity.
  - vm_compute. reflexivity.
Defined.

(** ** Lineage-like names *)

Lemma isPangoLineage_shape (name : string) :
  isPangoLineage name = true <-> LineageLike name.
Proof.
  unfold isPangoLineage. destruct name as [|c s].
  - simpl. split; [discriminate|]. intros (c & gs & _ & _ & E). discriminate.
  - change (negb (Js.truthy (String c s))) with false. cbv iota.
    rewrite run_Matches. apply pango_language.
Qed.

Lemma digit_not_dot (a : ascii) : Re.digit a = true -> Ascii.eqb a "." = false.
Proof.
  intros H. destruct (Ascii.eqb_spec a "."); [subst; discriminate|reflexivity].
Qed.

Lemma letter_not_dot (a : ascii) : Re.letter a = true -> Ascii.eqb a "." = false.
Proof.
  intros H. destruct (Ascii.eqb_spec a "."); [subst; discriminate|reflexivity].
Qed.

Lemma digits_dotFree (g : string) : eachUnit Re.digit g -> dotFree g.
Proof.
  unfold dotFree. induction g as [|a g IH]; [reflexivity|].
  intros [Ha Hg]. cbn. rewrite (digit_not_dot a Ha), (IH Hg). reflexivity.
Qed.

Lemma append_nil_r (s : string) : s ++ "" = s.
Proof. induction s; simpl; congruence. Qed.

Lemma split_dotted (g : string) (rest : list string) :
  dotFree g -> Forall dotFree rest ->
  Js.split "." (g ++ dotted rest) = g :: rest.
Proof.
  intros Hg Hrest. revert g Hg. induction Hrest as [|g' rest Hg' _ IH]; intros g Hg.
  - cbn. rewrite append_nil_r. now apply split_no_sep.
  - cbn [dotted]. change ("." ++ g' ++ dotted rest) with (String "." (g' ++ dotted rest)).
    rewrite split_app_dot, (split_no_sep "." g Hg), (IH g' Hg'). reflexivity.
Qed.

Lemma join_dotted (x : string) (gs : list string) :
  Js.join "." (x :: gs) = x ++ dotted gs.
Proof.
  revert x. induction gs as [|g gs IH]; intros x.
  - cbn. now rewrite append_nil_r.
  - rewrite join_cons2, IH. reflexivity.
Qed.

Lemma lineageLike_split (c : ascii) (groups : list string) :
  Re.letter c = true -> Forall DigitGroup groups ->
  Js.split "." (String c (dotted groups)) = String c "" :: groups.
Proof.
  intros Hc Hg. change (String c (dotted groups)) with (String c "" ++ dotted groups).
  apply split_dotted.
  - unfold dotFree. cbn. now rewrite (letter_not_dot c Hc).
  - eapply Forall_impl; [|exact Hg]. intros g [_ Hd]. now apply digits_dotFree.
Qed.

Lemma ancestors_lineageLike (name p : string) :
  LineageLike name -> In p (getAllParentLineages name) -> LineageLike p.
Proof.
  intros (c & groups & Hc & Hg & ->) Hin.
  destruct (ancestor_segments _ _ Hin) as (k & Hk & -> & _).
  rewrite (lineageLike_split c groups Hc Hg) in *.
  destruct k as [|k]; [lia|]. cbn [firstn]. rewrite join_dotted.
  exists c, (firstn k groups). split; [exact Hc|].
  split; [now apply Forall_firstn'|reflexivity].
Qed.

(** X22. The lineage-like shape is inherited upwards: every parent
    lineage of a name that [isPangoLineage] accepts is accepted too. *)
Theorem isPangoLineage_holds_of_parents (name p : string) :
  isPangoLineage name = true ->
  In p (getAllParentLineages name) ->
  isPangoLineage p = true.
Proof.
  rewrite !isPangoLineage_shape. apply ancestors_lineageLike.
Qed.

Lemma isPangoLineage_holds_of_parents_witness : isPangoLineage "B.1" = true.
Proof.
  apply (isPangoLineage_holds_of_parents "B.1.1" "B.1");
    [reflexivity|vm_compute; auto].
Defined.

Lemma lineageLike_not_inherited (name : string) :
  LineageLike name -> inheritedRoot name = false.
Proof.
  intros (c & groups & Hc & Hg & ->).
  unfold inheritedRoot, rootSegment. rewrite (lineageLike_split c groups Hc Hg). cbn [hd].
  destruct (Color.isPrototypeKey (String c "")) eqn:E; [|reflexivity].
  apply prototypeKey_cases in E.
  repeat (destruct E as [E|E]; [discriminate E|]). destruct E.
Qed.

(** X23. The colour getter of the category list never throws: the
    colour function is only called on names that [isPangoLineage]
    accepts, and on those it returns a colour. *)
Theorem getLineageColor_returns (useHierarchicalColors : bool)
  (keyStuff : list KeyItem.t) (lineageName : string) :
  exists c, getLineageColor useHierarchicalColors keyStuff lineageName = Returns c.
Proof.
  unfold getLineageColor.
  destruct (useHierarchicalColors && isPangoLineage lineageName) eqn:E.
  - apply andb_prop in E. destruct E as [_ Hp].
    apply isPangoLineage_shape, lineageLike_not_inherited in Hp.
    pose proof (generatePangoLineageColor_not_stuck lineageName None) as Hs.
    destruct (Color.generatePangoLineageColor lineageName None) as [c| |] eqn:Ec;
      [eauto| |congruence].
    apply color_throws in Ec. destruct Ec as (_ & _ & Hi). congruence.
  - destruct (find _ keyStuff); eauto.
Qed.

(** ** The breadth-first walk of the time chart *)

Lemma lineagesAt_app_miss (m : ByDepth) (d d' : Z) (l : list string) :
  d' <> d -> lineagesAt (m ++ [(d', l)])%list d = lineagesAt m d.
Proof.
  intros Hne. unfold lineagesAt. induction m as [|[k v] m IH]; cbn.
  - destruct (Z.eqb_spec d' d); [contradiction|reflexivity].
  - destruct (k =? d); [reflexivity|exact IH].
Qed.

Lemma lineagesAt_app_new (m : ByDepth) (d : Z) (l : list string) :
  lineagesAt m d = None -> lineagesAt (m ++ [(d, l)])%list d = Some l.
Proof.
  unfold lineagesAt. induction m as [|[k v] m IH]; cbn.
  - now rewrite Z.eqb_refl.
  - destruct (k =? d); [discriminate|exact IH].
Qed.

Lemma lineagesAt_map (m : ByDepth) (d d' : Z) (g : list string -> list string) :
  lineagesAt (map (fun kv => if fst kv =? d' then (fst kv, g (snd kv)) else kv) m) d
  = if d =? d' then option_map g (lineagesAt m d) else lineagesAt m d.
Proof.
  unfold lineagesAt. induction m as [|[k v] m IH]; cbn.
  - now destruct (d =? d').
  - destruct (Z.eqb_spec k d') as [->|Hk]; cbn.
    + destruct (Z.eqb_spec d' d) as [->|Hd].
      * now rewrite Z.eqb_refl.
      * rewrite IH. destruct (Z.eqb_spec d d'); [congruence|reflexivity].
    + destruct (Z.eqb_spec k d) as [->|Hd].
      * destruct (Z.eqb_spec d d'); [congruence|reflexivity].
      * exact IH.
Qed.

Lemma namesAt_fileUnder (m : ByDepth) (d d' : Z) (name : string) :
  namesAt (fileUnder m d' name) d
  = if d =? d'
    then if existsb (String.eqb name) (namesAt m d) then namesAt m d
         else (namesAt m d ++ [name])%list
    else namesAt m d.
Proof.
  unfold namesAt, fileUnder.
  rewrite (lineagesAt_map _ d d'
             (fun l => if existsb (String.eqb name) l then l else (l ++ [name])%list)).
  destruct (Z.eqb_spec d d') as [->|Hne].
  - destruct (lineagesAt m d') as [l|] eqn:E.
    + now rewrite E.
    + rewrite (lineagesAt_app_new m d' [] E). reflexivity.
  - destruct (lineagesAt m d') as [l|] eqn:E; [reflexivity|].
    rewrite lineagesAt_app_miss by congruence. reflexivity.
Qed.

Lemma existsb_eqb_false (k : string) (l : list string) :
  ~ In k l -> existsb (String.eqb k) l = false.
Proof.
  intros H. destruct (existsb (String.eqb k) l) eqn:E; [|reflexivity].
  exfalso. apply existsb_exists in E. destruct E as (x & Hx & He).
  apply String.eqb_eq in He. now subst.
Qed.

Lemma existsb_eqb_true (k : string) (l : list string) :
  existsb (String.eqb k) l = true -> In k l.
Proof.
  intros E. apply existsb_exists in E. destruct E as (x & Hx & He).
  apply String.eqb_eq in He. now subst.
Qed.

Lemma filter_snoc {A} (f : A -> bool) (l : list A) (x : A) :
  filter f (l ++ [x]) = (filter f l ++ if f x then [x] else [])%list.
Proof. rewrite filter_app. cbn. now destruct (f x). Qed.

Lemma turn_inv (forest : list Node.t) (e : Pending.t) (rest : list Pending.t) (w : Walk) :
  queue w = e :: rest -> walkInv forest w -> walkInv forest (turn e rest w).
Proof.
  intros Hq [Iq Iv Ind Ifl Id]. rewrite Hq in Iq.
  inversion Iq as [|? ? [Hpath Hdepth] Hrest]; subst.
  unfold turn.
  destruct (Js.truthy (Node.name (Pending.node e))) eqn:Ht; cbn [negb];
    [|constructor; assumption].
  destruct (existsb (String.eqb (Node.name (Pending.node e))) (visited w)) eqn:Ev;
    [constructor; assumption|].
  assert (Hnew : ~ In (Node.name (Pending.node e)) (visited w)).
  { intros Hin. apply existsb_eqb_In in Hin. congruence. }
  constructor; cbn [queue visited flatNodes allLineagesByDepth].
  - apply Forall_app. split; [exact Hrest|].
    unfold enqueued. rewrite Forall_map, Forall_forall. intros ch Hch.
    apply filter_In in Hch. destruct Hch as [Hch _]. cbn. split.
    + now apply PathChild.
    + rewrite length_app. cbn. lia.
  - rewrite map_app, Iv. reflexivity.
  - now apply NoDup_snoc.
  - apply Forall_app. split; [exact Ifl|]. constructor; [|constructor].
    exists (Pending.node e), (Pending.path e). cbn. auto.
  - intros d. rewrite namesAt_fileUnder, filter_snoc, map_app, Id. cbn [Flat.depth].
    rewrite (Z.eqb_sym d). destruct (Pending.depth e =? d); [|now rewrite app_nil_r].
    rewrite existsb_eqb_false; [reflexivity|].
    intros Hin. apply Hnew. rewrite Iv.
    apply in_map_iff in Hin. destruct Hin as (x & Hx & Hin).
    apply filter_In in Hin. apply in_map_iff. exists x. tauto.
Qed.

Lemma nodesOf_length (n : Node.t) : (1 <= List.length (nodesOf n))%nat.
Proof. rewrite nodesOf_unfold. cbn. lia. Qed.

Lemma flat_map_filter_length {A B} (f : A -> list B) (p : A -> bool) (l : list A) :
  (List.length (flat_map f (filter p l)) <= List.length (flat_map f l))%nat.
Proof.
  induction l as [|x l IH]; cbn; [lia|].
  destruct (p x); cbn; rewrite !length_app; lia.
Qed.

Lemma pendingSize_app (q q' : list Pending.t) :
  pendingSize (q ++ q') = (pendingSize q + pendingSize q')%nat.
Proof. unfold pendingSize. now rewrite flat_map_app, length_app. Qed.

Lemma pendingSize_enqueued (n : Node.t) (d : Z) (p : list string) :
  (S (pendingSize (enqueued n d p)) <= List.length (nodesOf n))%nat.
Proof.
  unfold pendingSize, enqueued. rewrite nodesOf_unfold. cbn [List.length].
  apply le_n_S. rewrite flat_map_concat_map, map_map, <- flat_map_concat_map. cbn.
  apply flat_map_filter_length.
Qed.

Lemma turn_size (e : Pending.t) (rest : list Pending.t) (w : Walk) :
  (S (pendingSize (queue (turn e rest w))) <= pendingSize (e :: rest))%nat.
Proof.
  unfold turn.
  assert (Hcons : pendingSize (e :: rest)
                  = (List.length (nodesOf (Pending.node e)) + pendingSize rest)%nat).
  { unfold pendingSize. cbn. now rewrite length_app. }
  pose proof (nodesOf_length (Pending.node e)) as H1.
  destruct (negb (Js.truthy (Node.name (Pending.node e)))); cbn [queue]; [lia|].
  destruct (existsb _ (visited w)); cbn [queue]; [lia|].
  rewrite pendingSize_app.
  pose proof (pendingSize_enqueued (Pending.node e) (Pending.depth e) (Pending.path e)).
  lia.
Qed.

(** With a budget as large as what the queue can still take, the loop
    comes to its end, and keeps what every turn keeps. *)
Lemma walk_returns (J : Walk -> Prop) (fuel : nat) :
  (forall e rest w, queue w = e :: rest -> J w -> J (turn e rest w)) ->
  forall w, (pendingSize (queue w) <= fuel)%nat -> J w ->
    exists w', walk fuel w = Returns w' /\ queue w' = [] /\ J w'.
Proof.
  intros Hturn. induction fuel as [|fuel IH]; intros w Hsize Hinv.
  - destruct (queue w) as [|e rest] eqn:Hq.
    + exists w. cbn. rewrite Hq. auto.
    + exfalso. unfold pendingSize in Hsize. cbn in Hsize. rewrite length_app in Hsize.
      pose proof (nodesOf_length (Pending.node e)). lia.
  - destruct (queue w) as [|e rest] eqn:Hq.
    + exists w. cbn. rewrite Hq. auto.
    + cbn [walk]. rewrite Hq. apply IH.
      * pose proof (turn_size e rest w). lia.
      * now apply Hturn.
Qed.

Lemma walk_start_inv (forest : list Node.t) :
  walkInv forest (mkWalk (map (fun node => Pending.mk node 0 []) forest) [] [] []).
Proof.
  constructor; cbn.
  - rewrite Forall_map, Forall_forall. intros r Hr. cbn. split; [now constructor|reflexivity].
  - reflexivity.
  - constructor.
  - constructor.
  - intros d. reflexivity.
Qed.

Lemma walk_start_size (forest : list Node.t) :
  pendingSize (map (fun node => Pending.mk node 0 []) forest)
  = List.length (flat_map nodesOf forest).
Proof.
  unfold pendingSize. rewrite flat_map_concat_map, map_map, <- flat_map_concat_map.
  reflexivity.
Qed.

(** X24. [extractLineages] comes to an end on every hierarchy, and what
    it leaves describes the hierarchy: no name is listed twice in
    [flatNodes]; every entry is a node of the forest with, as [path],
    the names from a root down to it and, as [depth], the number of
    nodes above it; and [allLineagesByDepth] files under every depth
    the names of the entries of that depth, in their order. *)
Theorem extractLineages_describes_forest (hierarchyData : list Node.t) :
  exists flat byDepth,
    extractLineages hierarchyData = Returns (flat, byDepth)
    /\ NoDup (map Flat.name flat)
    /\ Forall (describes hierarchyData) flat
    /\ forall d, namesAt byDepth d
                 = map Flat.name (filter (fun e => Flat.depth e =? d) flat).
Proof.
  unfold extractLineages.
  destruct (walk_returns (walkInv hierarchyData)
              (List.length (flat_map nodesOf hierarchyData))
              (turn_inv hierarchyData)
              (mkWalk (map (fun node => Pending.mk node 0 []) hierarchyData) [] [] []))
    as (w & Ew & _ & [Iq Iv Ind Ifl Id]).
  - cbn [queue]. now rewrite walk_start_size.
  - apply walk_start_inv.
  - rewrite Ew. cbn [bind]. exists (flatNodes w), (allLineagesByDepth w).
    split; [reflexivity|]. rewrite <- Iv. auto.
Qed.

(** ** Nothing is left out *)

Lemma pendingNames_app (q q' : list Pending.t) :
  pendingNames (q ++ q') = (pendingNames q ++ pendingNames q')%list.
Proof. unfold pendingNames. now rewrite flat_map_app, map_app. Qed.

Lemma filter_all {A} (p : A -> bool) (l : list A) :
  (forall x, In x l -> p x = true) -> filter p l = l.
Proof.
  induction l as [|x l IH]; intros H; [reflexivity|].
  cbn. rewrite (H x (or_introl eq_refl)). f_equal. apply IH. intros y Hy. apply H. now right.
Qed.

Lemma pendingNames_enqueued (n : Node.t) (d : Z) (p : list string) :
  (forall ch, In ch (Node.children n) -> Js.truthy (Node.name ch) = true) ->
  pendingNames (enqueued n d p) = map Node.name (flat_map nodesOf (Node.children n)).
Proof.
  intros H. unfold pendingNames, enqueued. rewrite (filter_all _ _ H).
  rewrite flat_map_concat_map, map_map, <- flat_map_concat_map. reflexivity.
Qed.

Lemma turn_covers (names : list string) (e : Pending.t) (rest : list Pending.t) (w : Walk) :
  NoDup names -> ~ In EmptyString names ->
  queue w = e :: rest ->
  Permutation (visited w ++ pendingNames (queue w)) names ->
  Permutation (visited (turn e rest w) ++ pendingNames (queue (turn e rest w))) names.
Proof.
  intros Hnd Hne Hq Hperm. rewrite Hq in Hperm.
  set (n := Pending.node e) in *.
  assert (Hnames : pendingNames (e :: rest)
                   = (Node.name n :: map Node.name (flat_map nodesOf (Node.children n))
                      ++ pendingNames rest)%list).
  { unfold pendingNames. cbn [flat_map]. fold n. rewrite map_app, nodesOf_unfold.
    reflexivity. }
  rewrite Hnames in Hperm.
  assert (Hin : forall x, In x (visited w ++ Node.name n
                  :: map Node.name (flat_map nodesOf (Node.children n)) ++ pendingNames rest)
                -> x <> EmptyString).
  { intros x Hx ->. apply Hne. exact (Permutation_in _ Hperm Hx). }
  assert (Htn : Js.truthy (Node.name n) = true).
  { destruct (Node.name n) eqn:E; [|reflexivity]. exfalso.
    apply (Hin EmptyString); [|reflexivity]. apply in_or_app. right. now left. }
  assert (Hch : forall ch, In ch (Node.children n) -> Js.truthy (Node.name ch) = true).
  { intros ch Hc. destruct (Node.name ch) eqn:E; [|reflexivity]. exfalso.
    apply (Hin EmptyString); [|reflexivity]. apply in_or_app. right. right.
    apply in_or_app. left. apply in_map_iff. exists ch. split; [exact E|].
    apply in_flat_map. exists ch. split; [exact Hc|apply nodesOf_self]. }
  assert (Hnew : ~ In (Node.name n) (visited w)).
  { pose proof (Permutation_NoDup (Permutation_sym Hperm) Hnd) as Hnd'.
    apply NoDup_remove_2 in Hnd'. intros Hv. apply Hnd'. apply in_or_app. now left. }
  unfold turn. fold n. rewrite Htn. cbn [negb].
  rewrite (existsb_eqb_false _ _ Hnew). cbn [visited queue].
  rewrite pendingNames_app, (pendingNames_enqueued n _ _ Hch).
  rewrite <- Hperm, <- app_assoc. apply Permutation_app_head. cbn.
  constructor. apply Permutation_app_comm.
Qed.

Lemma extractLineages_covers (forest : list Node.t) :
  NoDup (forestNames forest) -> ~ In EmptyString (forestNames forest) ->
  exists flat byDepth,
    extractLineages forest = Returns (flat, byDepth)
    /\ Permutation (map Flat.name flat) (forestNames forest).
Proof.
  intros Hnd Hne. unfold extractLineages.
  destruct (walk_returns
              (fun w => walkInv forest w
                        /\ Permutation (visited w ++ pendingNames (queue w))
                             (forestNames forest))
              (List.length (flat_map nodesOf forest)))
    with (w := mkWalk (map (fun node => Pending.mk node 0 []) forest) [] [] [])
    as (w & Ew & Hq & Hinv & Hperm).
  - intros e rest w Hq [Hi Hp]. split; [now apply turn_inv|].
    now apply turn_covers.
  - cbn [queue]. now rewrite walk_start_size.
  - split; [apply walk_start_inv|]. cbn [visited queue app].
    unfold pendingNames, forestNames.
    rewrite flat_map_concat_map, map_map, <- flat_map_concat_map. reflexivity.
  - rewrite Ew. cbn [bind]. exists (flatNodes w), (allLineagesByDepth w).
    split; [reflexivity|]. rewrite Hq in Hperm. cbn in Hperm.
    rewrite app_nil_r in Hperm. now rewrite <- (wi_visited _ _ Hinv).
Qed.

(** X25. The chart leaves out no lineage of the hierarchy the builder
    returns: when no node has the empty name, [flatNodes] lists the
    names of the nodes of the forest, each once. *)
Theorem chart_lists_every_lineage
  (lineages : list Lineage.t) (nodeTypes : NodeTypes) (forest : list Node.t) :
  organizeLineageHierarchy lineages nodeTypes = Returns forest ->
  ~ In EmptyString (forestNames forest) ->
  exists flat byDepth,
    extractLineages forest = Returns (flat, byDepth)
    /\ NoDup (map Flat.name flat)
    /\ Permutation (map Flat.name flat) (forestNames forest).
Proof.
  intros H Hne. pose proof (organize_names_nodup _ _ _ H) as Hnd.
  destruct (extractLineages_covers forest Hnd Hne) as (flat & byDepth & E & Hp).
  exists flat, byDepth. split; [exact E|]. split; [|exact Hp].
  exact (Permutation_NoDup (Permutation_sym Hp) Hnd).
Qed.

Lemma chart_lists_every_lineage_witness :
  exists flat byDepth,
    extractLineages
      [Node.mk "AY" 7 0 7 0 (240, 100, 60)%float
         [Node.mk "AY.4" 7 7 7 0 (1, 2, 3)%float [] false 1 (Some "AY") None]
         false 0 None (Some 7)]
    = Returns (flat, byDepth)
    /\ NoDup (map Flat.name flat)
    /\ Permutation (map Flat.name flat)
         (forestNames
            [Node.mk "AY" 7 0 7 0 (240, 100, 60)%float
               [Node.mk "AY.4" 7 7 7 0 (1, 2, 3)%float [] false 1 (Some "AY") None]
               false 0 None (Some 7)]).
Proof.
  apply (chart_lists_every_lineage [Lineage.mk "AY.4" 7 (1, 2, 3)%float] None).
  - vm_compute. reflexivity.
  - cbn. intros [H|[H|[]]]; discriminate H.
Defined.

(** ** Entries and nodes *)

(** X27. No entry is shadowed when the parents come first: if entries
    that share a name are the same entry and every observed name is
    listed before the observed names below it, every entry the builder
    files is shown by a node of the returned forest that carries the
    entry's name, its count as own count, and its colour. *)
Theorem entries_keep_their_counts
  (lineages : list Lineage.t) (nodeTypes : NodeTypes) (forest : list Node.t) :
  consistentNames lineages ->
  ancestorsFirst [] lineages = true ->
  organizeLineageHierarchy lineages nodeTypes = Returns forest ->
  forall e, In e lineages -> counted e = true -> shownIn forest e.
Proof.
  intros Hc Hanc H e He Hcounted.
  destruct (organize_reads _ _ _ H) as (m1 & m2 & roots & E1 & E2 & W & Hroots & Hread).
  destruct (firstPass_inv_start nodeTypes lineages m1 Hc Hanc E1) as [Hs Hr Hp Hn].
  unfold counted in Hcounted. apply andb_prop in Hcounted. destruct Hcounted as [Ht Hq].
  apply negb_true_iff in Hq.
  pose proof (Hr e He Ht Hq) as Hin1.
  assert (Hk : In (Lineage.value e) (forestNames forest)).
  { apply (forest_names_keys lineages nodeTypes forest m1 m2 roots W Hroots Hread).
    eapply In_hasKey; eauto. }
  unfold forestNames in Hk. apply in_map_iff in Hk. destruct Hk as (n & Hname & Hnin).
  exists n. split; [exact Hnin|]. split; [exact Hname|].
  destruct (forest_nodes_read m2 forest n Hread Hnin) as (c & Hc2 & Hrd).
  destruct (wl_cell _ _ _ W _ _ Hc2) as (c1 & Hc1 & Hsc).
  rewrite Hname in Hc1.
  pose proof (NoDup_keys_unique m1 _ _ _ Hn Hc1 Hin1) as Ec. subst c1.
  destruct Hsc as (_ & _ & S3 & _ & _ & S6 & _).
  destruct Hrd as (_ & R2 & R3 & _).
  rewrite R2, R3, <- S3, <- S6. split; reflexivity.
Qed.

Lemma entries_keep_their_counts_witness :
  shownIn
    [Node.mk "B" 8 5 8 0 (1, 2, 3)%float
       [Node.mk "B.1" 3 3 3 0 (4, 5, 6)%float [] false 1 (Some "B") None]
       false 0 None (Some 8)]
    (Lineage.mk "B.1" 3 (4, 5, 6)%float).
Proof.
  apply (entries_keep_their_counts
           [Lineage.mk "B" 5 (1, 2, 3)%float; Lineage.mk "B.1" 3 (4, 5, 6)%float] None).
  - intros e e' [<-|[<-|[]]] [<-|[<-|[]]] Hv; try reflexivity; discriminate Hv.
  - vm_compute. reflexivity.
  - vm_compute. reflexivity.
  - right. now left.
  - reflexivity.
Defined.

(** ** From the dataset to the roots *)

Lemma tallySum_app (a b : Tallies) : tallySum (a ++ b)%list = tallySum a + tallySum b.
Proof.
  induction a as [|[k t] a IH]; [reflexivity|].
  unfold tallySum in *. cbn. destruct t; rewrite IH; lia.
Qed.

Lemma tallySum_perm (a b : Tallies) : Permutation a b -> tallySum a = tallySum b.
Proof.
  induction 1 as [|[k t] a b _ IH|[k t] [k' t'] a|a b c _ IH1 _ IH2];
    unfold tallySum in *; cbn; try reflexivity.
  - destruct t; rewrite IH; reflexivity.
  - destruct t, t'; lia.
  - congruence.
Qed.

Lemma tallySum_increment (counts : Tallies) (v : string) (t : Tally) :
  NoDup (map fst counts) -> In (v, t) counts -> t <> NotANumber ->
  tallySum (map (fun kv => if String.eqb (fst kv) v then (fst kv, increment (snd kv)) else kv)
              counts)
  = tallySum counts + 1.
Proof.
  induction counts as [|[k t0] counts IH]; intros Hnd Hin Hnum; [destruct Hin|].
  cbn in Hnd. inversion Hnd as [|? ? Hnot Hnd']; subst.
  cbn [map fst snd]. destruct Hin as [E|Hin].
  - injection E as -> ->. rewrite String.eqb_refl.
    replace (map _ counts) with counts.
    + unfold tallySum. destruct t; [cbn; lia|contradiction].
    + clear - Hnot. induction counts as [|[k' t'] counts IHc]; [reflexivity|].
      cbn. destruct (String.eqb_spec k' v) as [->|].
      * exfalso. apply Hnot. now left.
      * f_equal. apply IHc. intros Hin. apply Hnot. now right.
  - destruct (String.eqb_spec k v) as [->|Hne].
    + exfalso. apply Hnot. apply in_map_iff. exists (v, t). auto.
    + unfold tallySum in *. cbn. specialize (IH Hnd' Hin Hnum).
      destruct t0; lia.
Qed.

Lemma tally_sum (seen : list string) (counts : Tallies) (v : string) :
  talliesOf seen counts -> Color.isPrototypeKey v = false ->
  tallySum (tally counts v) = tallySum counts + 1.
Proof.
  intros (Hnd & Hs & _) Hv. unfold tally.
  destruct (ownTally counts v) as [t|] eqn:Eo.
  - apply ownTally_Some in Eo. apply (tallySum_increment counts v t Hnd Eo).
    destruct (Hs v t Eo) as (_ & _ & ->). rewrite Hv. discriminate.
  - rewrite Hv, tallySum_app. reflexivity.
Qed.

Lemma tally_all_sum (values : list string) :
  forall seen counts, talliesOf seen counts ->
    (forall v, In v values -> Color.isPrototypeKey v = false) ->
    tallySum (fold_left tally values counts)
    = tallySum counts + Z.of_nat (List.length values).
Proof.
  induction values as [|v values IH]; intros seen counts H Hv; cbn [fold_left List.length].
  - lia.
  - rewrite (IH (seen ++ [v])%list).
    + rewrite (tally_sum seen counts v H (Hv v (or_introl eq_refl))). lia.
    + now apply tally_step.
    + intros x Hx. apply Hv. now right.
Qed.

Lemma sumEntries_of_items (items : list KeyItem.t) (lineages : list Lineage.t) :
  map asLineage items = map Some lineages ->
  sumEntries lineages
  = tallySum (map (fun item => (KeyItem.value item, KeyItem.count item)) items)
  /\ map Lineage.value lineages = map KeyItem.value items.
Proof.
  revert lineages. induction items as [|i items IH]; intros [|e ls] E; try discriminate.
  - split; reflexivity.
  - cbn in E. injection E as Ei Erest. destruct (IH ls Erest) as [IH1 IH2].
    unfold asLineage in Ei. destruct (KeyItem.count i) eqn:Ec; [|discriminate].
    injection Ei as <-. unfold sumEntries, tallySum in *. cbn. rewrite Ec, IH1, IH2.
    split; reflexivity.
Qed.

(** X28. From the dataset to the panel.  When no field value is empty
    or a name inherited from [Object.prototype], and the entries
    [getKeyStuff] returns list every value before the values below it,
    the totals of the roots of the forest built from those entries add
    up to the number of nodes of the dataset. *)
Theorem root_totals_count_the_dataset {N F : Type} (getNodeColorField : N -> string)
  (colorByField : F) (nodes : list N) (toRGB : string -> RGB)
  (lineages : list Lineage.t) (forest : list Node.t) :
  (forall n, In n nodes ->
     Js.truthy (getNodeColorField n) = true
     /\ Color.isPrototypeKey (getNodeColorField n) = false) ->
  map asLineage (getKeyStuff getNodeColorField colorByField nodes toRGB)
  = map Some lineages ->
  ancestorsFirst [] lineages = true ->
  organizeLineageHierarchy lineages None = Returns forest ->
  sumCounts forest = Z.of_nat (List.length nodes).
Proof.
  intros Hnodes Hitems Hanc Hforest.
  pose proof (getKeyStuff_values getNodeColorField colorByField nodes toRGB) as [Hnd Hval].
  pose proof (getKeyStuff_items getNodeColorField colorByField nodes toRGB) as Hit.
  destruct (sumEntries_of_items _ _ Hitems) as [Hsum Hnames].
  assert (Hvals : NoDup (map Lineage.value lineages)) by (now rewrite Hnames).
  assert (Hc : consistentNames lineages).
  { intros e e' He He' Hv. clear - Hvals He He' Hv.
    induction lineages as [|x xs IH]; [destruct He|].
    cbn in Hvals. inversion Hvals as [|? ? Hnot Hnd']; subst.
    destruct He as [->|He]; destruct He' as [->|He'].
    - reflexivity.
    - exfalso. apply Hnot. rewrite Hv. now apply in_map.
    - exfalso. apply Hnot. rewrite <- Hv. now apply in_map.
    - now apply IH. }
  destruct (organize_pipeline _ _ _ Hforest) as (m1 & _ & _ & _ & E1 & _).
  pose proof (firstPass_inv_start None lineages m1 Hc Hanc E1) as Hinv.
  assert (Htotal : sumCounts forest = sumEntries (filter counted lineages)).
  { rewrite <- (firstPass_store_own None lineages m1 Hvals Hinv).
    rewrite <- (forest_own_is_store lineages None forest m1 Hforest E1).
    apply sumCounts_subtrees. apply organize_subtree_sums in Hforest.
    eapply Forall_impl; [|exact Hforest]. intros t Ht.
    apply everyNode_unfold in Ht. exact (proj1 Ht). }
  rewrite Htotal.
  assert (Hall : filter counted lineages = lineages).
  { apply filter_all. intros e He.
    assert (Hin : In (Lineage.value e) (map getNodeColorField nodes)).
    { apply (in_map Lineage.value) in He. rewrite Hnames in He.
      exact (proj1 (proj1 (Hval _) He)). }
    apply in_map_iff in Hin. destruct Hin as (n & Hn & Hnin).
    destruct (Hnodes n Hnin) as [Ht Hq]. unfold counted. now rewrite <- Hn, Ht, Hq. }
  rewrite Hall, Hsum.
  unfold getKeyStuff. rewrite fold_left_map, map_map. cbn [KeyItem.value KeyItem.count].
  set (counts := fold_left tally (map getNodeColorField nodes) []).
  replace (map (fun x : string * Tally => (fst x, snd x)) (ownEntries counts))
    with (ownEntries counts)
    by (rewrite <- (map_id (ownEntries counts)) at 1; apply map_ext; now intros [k t]).
  rewrite (tallySum_perm _ _ (ownEntries_perm counts)). unfold counts.
  rewrite (tally_all_sum (map getNodeColorField nodes) [] []).
  - cbn. now rewrite length_map.
  - split; [constructor|]. split; [intros k t []|intros k []].
  - intros v Hv. apply in_map_iff in Hv. destruct Hv as (n & <- & Hn).
    exact (proj2 (Hnodes n Hn)).
Qed.

Lemma root_totals_count_the_dataset_witness :
  sumCounts
    [Node.mk "B" 3 2 3 0 (1, 2, 3)%float
       [Node.mk "B.1" 1 1 1 0 (1, 2, 3)%float [] false 1 (Some "B") None]
       false 0 None (Some 3)]
  = Z.of_nat (List.length ["B"; "B.1"; "B"]).
Proof.
  apply (root_totals_count_the_dataset (fun n : string => n) tt ["B"; "B.1"; "B"]
           (fun _ => (1, 2, 3)%float)
           [Lineage.mk "B" 2 (1, 2, 3)%float; Lineage.mk "B.1" 1 (1, 2, 3)%float]).
  - intros n [<-|[<-|[<-|[]]]]; split; reflexivity.
  - reflexivity.
  - vm_compute. reflexivity.
  - vm_compute. reflexivity.
Defined.

(** ** The order of the entries *)

Lemma organize_finish (lineages : list Lineage.t) (nodeTypes : NodeTypes) :
  organizeLineageHierarchy lineages nodeTypes
  = finishHierarchy (foldM (addLineage nodeTypes) lineages []).
Proof. destruct lineages; reflexivity. Qed.

Lemma prototypeKey_no_parents (v : string) :
  Color.isPrototypeKey v = true -> getAllParentLineages v = [].
Proof.
  intros H. destruct (prototypeKey_dotFree v H) as [Hd Hne].
  assert (Ht : Js.truthy v = true) by (destruct v; [contradiction|reflexivity]).
  rewrite (getAllParentLineages_seq v Ht), (split_no_sep "." v Hd). reflexivity.
Qed.

(** An entry without a name, or with an inherited one, leaves the map
    as it is. *)
Lemma addLineage_uncounted (nodeTypes : NodeTypes) (m : Store) (e : Lineage.t) :
  counted e = false -> addLineage nodeTypes m e = Returns m.
Proof.
  unfold counted, addLineage. intros H.
  destruct (Js.truthy (Lineage.value e)) eqn:Ht; cbn [negb andb] in *; [|reflexivity].
  apply negb_false_iff in H.
  rewrite (prototypeKey_no_parents _ H). cbn [foldM].
  unfold getProperty. rewrite H.
  now destruct (ownProperty m (Lineage.value e)).
Qed.

(** The first pass only looks at the entries it files. *)
Lemma firstPass_filed (nodeTypes : NodeTypes) (l : list Lineage.t) :
  forall m seen,
    (forall v, In v seen ->
       present m v /\ forall p, In p (getAllParentLineages v) -> present m p) ->
    foldM (addLineage nodeTypes) l m
    = foldM (addLineage nodeTypes) (firstFrom seen (filter counted l)) m.
Proof.
  induction l as [|e l IH]; intros m seen Hseen; [reflexivity|].
  cbn [foldM filter]. destruct (counted e) eqn:Ec.
  - cbn [firstFrom].
    destruct (existsb (String.eqb (Lineage.value e)) seen) eqn:Es.
    + apply existsb_eqb_true in Es. destruct (Hseen _ Es) as [Hv Hp].
      rewrite (addLineage_idle nodeTypes m e Hv Hp). cbn [bind]. now apply IH.
    + cbn [foldM].
      destruct (addLineage nodeTypes m e) as [m'| |] eqn:Ea; cbn [bind]; try reflexivity.
      apply IH. intros v Hin.
      destruct (addLineage_extends nodeTypes m e m' Ea) as [[ext ->] Hnew].
      destruct Hin as [<-|Hin].
      * apply Hnew. unfold counted in Ec. apply andb_prop in Ec. exact (proj1 Ec).
      * destruct (Hseen v Hin) as [Hv Hp]. split; [now apply present_app|].
        intros p Hpin. apply present_app. now apply Hp.
  - rewrite (addLineage_uncounted nodeTypes m e Ec). cbn [bind]. now apply IH.
Qed.

Lemma organize_filed (lineages : list Lineage.t) (nodeTypes : NodeTypes) :
  organizeLineageHierarchy lineages nodeTypes
  = organizeLineageHierarchy (filed lineages) nodeTypes.
Proof.
  rewrite !organize_finish. f_equal. unfold filed, firstEntries.
  apply firstPass_filed. intros v [].
Qed.

Lemma firstFrom_In (l : list Lineage.t) :
  forall seen e, In e (firstFrom seen l) -> In e l /\ ~ In (Lineage.value e) seen.
Proof.
  induction l as [|x l IH]; intros seen e Hin; [destruct Hin|].
  cbn [firstFrom] in Hin.
  destruct (existsb (String.eqb (Lineage.value x)) seen) eqn:Es.
  - destruct (IH _ _ Hin) as [H1 H2]. split; [now right|exact H2].
  - destruct Hin as [<-|Hin].
    + split; [now left|]. intros Hs. apply existsb_eqb_In in Hs. congruence.
    + destruct (IH _ _ Hin) as [H1 H2]. split; [now right|].
      intros Hs. apply H2. now right.
Qed.

Lemma firstFrom_NoDup (l : list Lineage.t) :
  forall seen, NoDup (map Lineage.value (firstFrom seen l)).
Proof.
  induction l as [|x l IH]; intros seen; [constructor|].
  cbn [firstFrom]. destruct (existsb (String.eqb (Lineage.value x)) seen); [apply IH|].
  cbn [map]. constructor; [|apply IH].
  intros Hin. apply in_map_iff in Hin. destruct Hin as (e & Hv & Hin).
  apply firstFrom_In in Hin. apply (proj2 Hin). left. now symmetry.
Qed.

Lemma firstFrom_covers (l : list Lineage.t) :
  forall seen e, In e l -> ~ In (Lineage.value e) seen ->
    exists e', In e' (firstFrom seen l) /\ Lineage.value e' = Lineage.value e.
Proof.
  induction l as [|x l IH]; intros seen e Hin Hs; [destruct Hin|].
  cbn [firstFrom].
  destruct (existsb (String.eqb (Lineage.value x)) seen) eqn:Es.
  - destruct Hin as [->|Hin]; [|now apply IH].
    exfalso. apply Hs. now apply existsb_eqb_true.
  - destruct (string_dec (Lineage.value x) (Lineage.value e)) as [Ev|Ev].
    + exists x. split; [now left|exact Ev].
    + destruct Hin as [->|Hin]; [contradiction|].
      destruct (IH (Lineage.value x :: seen) e Hin) as (e' & He' & Hv).
      * intros [E|H]; [contradiction|now apply Hs].
      * exists e'. split; [now right|exact Hv].
Qed.

Lemma firstEntries_In (l : list Lineage.t) (e : Lineage.t) :
  consistentNames l -> In e (firstEntries l) <-> In e l.
Proof.
  intros Hc. unfold firstEntries. split.
  - intros H. exact (proj1 (firstFrom_In l [] e H)).
  - intros H. destruct (firstFrom_covers l [] e H) as (e' & He' & Hv); [intros []|].
    pose proof (proj1 (firstFrom_In l [] e' He')) as Hin'.
    now rewrite <- (Hc e' e Hin' H Hv).
Qed.

Lemma consistentNames_perm (l l' : list Lineage.t) :
  Permutation l l' -> consistentNames l -> consistentNames l'.
Proof.
  intros Hp Hc e e' He He'.
  apply Hc; apply (Permutation_in _ (Permutation_sym Hp)); assumption.
Qed.

Lemma filed_perm (l1 l2 : list Lineage.t) :
  Permutation l1 l2 -> consistentNames (filter counted l1) ->
  Permutation (filed l1) (filed l2).
Proof.
  intros Hp Hc.
  pose proof (Permutation_filter' counted _ _ Hp) as Hpf.
  pose proof (consistentNames_perm _ _ Hpf Hc) as Hc2.
  unfold filed. apply NoDup_Permutation.
  - apply (NoDup_map_inv Lineage.value). apply firstFrom_NoDup.
  - apply (NoDup_map_inv Lineage.value). apply firstFrom_NoDup.
  - intros e. rewrite (firstEntries_In _ e Hc), (firstEntries_In _ e Hc2).
    split; apply Permutation_in; [exact Hpf|now symmetry].
Qed.

Lemma consistentNames_filed (l : list Lineage.t) :
  consistentNames (filter counted l) -> consistentNames (filed l).
Proof.
  intros Hc e e' He He'. apply Hc.
  - exact (proj1 (firstFrom_In _ [] e He)).
  - exact (proj1 (firstFrom_In _ [] e' He')).
Qed.

Lemma observedOrAncestor_perm (l l' : list Lineage.t) (k : string) :
  Permutation l l' -> observedOrAncestor l k -> observedOrAncestor l' k.
Proof.
  intros Hp (e & He & H). exists e. split; [exact (Permutation_in _ Hp He)|exact H].
Qed.

Lemma organize_throws_iff (lineages : list Lineage.t) (nodeTypes : NodeTypes) :
  organizeLineageHierarchy lineages nodeTypes = Throws
  <-> exists e, In e lineages /\ throwsOn e = true.
Proof.
  split.
  - intros H. destruct (existsb throwsOn lineages) eqn:Ex.
    + apply existsb_exists in Ex. exact Ex.
    + exfalso. exact (organize_no_throw nodeTypes lineages Ex H).
  - intros (e & He & Hth). exact (organize_throws nodeTypes lineages e He Hth).
Qed.

(** C5, as the code has it.  Of two sequences of entries that are
    permutations of each other, the builder throws on both or on
    neither, and when it returns, the two forests have the same node
    names.  The nodes also carry the same counts and colours when the
    counts add up to at most 2^53 in magnitude (so that the sums do not
    depend on the order in which they are formed) and, among the
    entries the builder files, entries of the same name are the same
    entry and, in both sequences, the first entry of every name comes
    before the first entries of the names below it. *)
Theorem organize_order_independent
  (l1 l2 : list Lineage.t) (nodeTypes : NodeTypes) :
  Permutation l1 l2 ->
  (organizeLineageHierarchy l1 nodeTypes = Throws
   <-> organizeLineageHierarchy l2 nodeTypes = Throws)
  /\ ((exists f1, organizeLineageHierarchy l1 nodeTypes = Returns f1)
      <-> (exists f2, organizeLineageHierarchy l2 nodeTypes = Returns f2))
  /\ forall f1 f2,
       organizeLineageHierarchy l1 nodeTypes = Returns f1 ->
       organizeLineageHierarchy l2 nodeTypes = Returns f2 ->
       Permutation (forestNames f1) (forestNames f2)
       /\ (countsBounded l1 ->
           consistentNames (filter counted l1) ->
           ancestorsFirst [] (filed l1) = true ->
           ancestorsFirst [] (filed l2) = true ->
           Permutation (forestRecords f1) (forestRecords f2)).
Proof.
  intros Hp.
  assert (Hthrow : organizeLineageHierarchy l1 nodeTypes = Throws
                   <-> organizeLineageHierarchy l2 nodeTypes = Throws).
  { rewrite !organize_throws_iff.
    split; intros (e & He & Ht); exists e; split; auto;
      [exact (Permutation_in _ Hp He)|exact (Permutation_in _ (Permutation_sym Hp) He)]. }
  split; [exact Hthrow|]. split.
  - pose proof (organizeLineageHierarchy_not_stuck l1 nodeTypes) as N1.
    pose proof (organizeLineageHierarchy_not_stuck l2 nodeTypes) as N2.
    destruct (organizeLineageHierarchy l1 nodeTypes) as [f1| |] eqn:E1;
      destruct (organizeLineageHierarchy l2 nodeTypes) as [f2| |] eqn:E2;
      try congruence.
    + split; eauto.
    + destruct Hthrow as [_ H]. discriminate (H eq_refl).
    + destruct Hthrow as [H _]. discriminate (H eq_refl).
    + split; intros [f H]; discriminate H.
  - intros f1 f2 E1 E2. split.
    + apply NoDup_Permutation.
      * exact (organize_names_nodup _ _ _ E1).
      * exact (organize_names_nodup _ _ _ E2).
      * intros k. rewrite (organize_names_observed _ _ _ E1 k),
          (organize_names_observed _ _ _ E2 k).
        split; intros [Hq Ho]; (split; [exact Hq|]);
          [exact (observedOrAncestor_perm _ _ k Hp Ho)
          |exact (observedOrAncestor_perm _ _ k (Permutation_sym Hp) Ho)].
    + intros _ Hc Ha1 Ha2.
      rewrite organize_filed in E1. rewrite organize_filed in E2.
      apply (organize_records_perm (filed l1) (filed l2) nodeTypes f1 f2); auto.
      * now apply filed_perm.
      * now apply consistentNames_filed.
Qed.

Lemma organize_order_independent_witness :
  exists f1 f2,
    organizeLineageHierarchy
      [Lineage.mk "B" 5 (1, 2, 3)%float; Lineage.mk "B.1" 3 (7, 8, 9)%float;
       Lineage.mk "B" 5 (1, 2, 3)%float] None = Returns f1
    /\ organizeLineageHierarchy
         [Lineage.mk "B" 5 (1, 2, 3)%float; Lineage.mk "B" 5 (1, 2, 3)%float;
          Lineage.mk "B.1" 3 (7, 8, 9)%float] None = Returns f2
    /\ Permutation (forestNames f1) (forestNames f2)
    /\ Permutation (forestRecords f1) (forestRecords f2).
Proof.
  eexists. eexists. split; [vm_compute; reflexivity|].
  split; [vm_compute; reflexivity|].
  destruct (organize_order_independent
              [Lineage.mk "B" 5 (1, 2, 3)%float; Lineage.mk "B.1" 3 (7, 8, 9)%float;
               Lineage.mk "B" 5 (1, 2, 3)%float]
              [Lineage.mk "B" 5 (1, 2, 3)%float; Lineage.mk "B" 5 (1, 2, 3)%float;
               Lineage.mk "B.1" 3 (7, 8, 9)%float] None)
    as (_ & _ & H).
  - apply perm_skip. apply perm_swap.
  - destruct (H _ _ eq_refl eq_refl) as [Hn Hr]. split; [exact Hn|].
    apply Hr.
    + unfold countsBounded, exactBound. cbn. lia.
    + intros e e' [<-|[<-|[<-|[]]]] [<-|[<-|[<-|[]]]] Hv;
        try reflexivity; discriminate Hv.
    + vm_compute. reflexivity.
    + vm_compute. reflexivity.
Defined.

(** ** The totals stay in the range in which the sums are exact *)

Lemma sumAbs_nonneg (l : list Z) : 0 <= sumAbs l.
Proof. induction l as [|x l IH]; unfold sumAbs in *; cbn; lia. Qed.

Lemma sumAbs_cons (x : Z) (l : list Z) : sumAbs (x :: l) = Z.abs x + sumAbs l.
Proof. reflexivity. Qed.

Lemma sumAbs_app (l l' : list Z) : sumAbs (l ++ l') = sumAbs l + sumAbs l'.
Proof. induction l as [|x l IH]; unfold sumAbs in *; cbn; lia. Qed.

Lemma sumAbs_perm (l l' : list Z) : Permutation l l' -> sumAbs l = sumAbs l'.
Proof. induction 1; unfold sumAbs in *; cbn; lia. Qed.

Lemma sumAbs_flat_map {A} (f : A -> list Z) (l : list A) (x : A) :
  In x l -> sumAbs (f x) <= sumAbs (flat_map f l).
Proof.
  induction l as [|y l IH]; intros Hin; [destruct Hin|].
  cbn [flat_map]. rewrite sumAbs_app. destruct Hin as [->|Hin].
  - pose proof (sumAbs_nonneg (flat_map f l)). lia.
  - pose proof (sumAbs_nonneg (f y)). specialize (IH Hin). lia.
Qed.

(** The first pass files every count once at most. *)
Lemma ensureParent_abs (m : Store) (p : string) (m' : Store) :
  ensureParent m p = Returns m' ->
  sumAbs (map (fun kc => Cell.originalCount (snd kc)) m')
  = sumAbs (map (fun kc => Cell.originalCount (snd kc)) m).
Proof.
  unfold ensureParent. destruct (getProperty m p); try (intros [= <-]; reflexivity).
  destruct (Color.generatePangoLineageColor p None); cbn [bind]; try discriminate.
  intros [= <-]. rewrite map_app, sumAbs_app. cbn. lia.
Qed.

Lemma addLineage_abs (nodeTypes : NodeTypes) (m : Store) (e : Lineage.t) (m' : Store) :
  addLineage nodeTypes m e = Returns m' ->
  sumAbs (map (fun kc => Cell.originalCount (snd kc)) m')
  <= sumAbs (map (fun kc => Cell.originalCount (snd kc)) m) + Z.abs (Lineage.count e).
Proof.
  unfold addLineage.
  destruct (negb (Js.truthy (Lineage.value e))); [intros [= <-]; lia|].
  set (m0 := match getProperty m (Lineage.value e) with
             | Undefined => _
             | _ => m
             end).
  intros E.
  assert (H0 : sumAbs (map (fun kc => Cell.originalCount (snd kc)) m0)
               <= sumAbs (map (fun kc => Cell.originalCount (snd kc)) m)
                  + Z.abs (Lineage.count e)).
  { unfold m0. destruct (getProperty m (Lineage.value e)); try lia.
    rewrite map_app, sumAbs_app. cbn. lia. }
  rewrite (foldM_invariant ensureParent
             (fun s => sumAbs (map (fun kc => Cell.originalCount (snd kc)) s)
                       = sumAbs (map (fun kc => Cell.originalCount (snd kc)) m0))
             (fun s a s' Hs Ea => eq_trans (ensureParent_abs s a s' Ea) Hs)
             _ m0 m' eq_refl E).
  exact H0.
Qed.

Lemma firstPass_abs (nodeTypes : NodeTypes) (ls : list Lineage.t) :
  forall m m', foldM (addLineage nodeTypes) ls m = Returns m' ->
    sumAbs (map (fun kc => Cell.originalCount (snd kc)) m')
    <= sumAbs (map (fun kc => Cell.originalCount (snd kc)) m)
       + sumAbs (map Lineage.count ls).
Proof.
  induction ls as [|e ls IH]; intros m m' E; cbn [foldM] in E.
  - injection E as <-. cbn. lia.
  - destruct (addLineage nodeTypes m e) as [m1| |] eqn:E1; cbn [bind] in E;
      try discriminate.
    pose proof (addLineage_abs nodeTypes m e m1 E1). specialize (IH m1 m' E).
    cbn [map]. unfold sumAbs at 3. cbn [fold_right].
    fold (sumAbs (map Lineage.count ls)). lia.
Qed.

(** The own counts of the nodes of the forest are those filed in the
    map, each once. *)
Lemma forest_own_perm (lineages : list Lineage.t) (nodeTypes : NodeTypes)
  (forest : list Node.t) (m1 : Store) :
  organizeLineageHierarchy lineages nodeTypes = Returns forest ->
  foldM (addLineage nodeTypes) lineages [] = Returns m1 ->
  Permutation (map Node.originalCount (flat_map nodesOf forest))
    (map (fun kc => Cell.originalCount (snd kc)) m1).
Proof.
  intros H E1.
  pose proof (organize_names_nodup _ _ _ H) as Hnd.
  destruct (organize_reads _ _ _ H) as (m1' & m2 & roots & E1' & E2 & W & Hroots & Hread).
  assert (m1' = m1) by congruence. subst m1'.
  destruct (firstPass_sound nodeTypes lineages m1 E1) as [_ Hn].
  assert (Hperm : Permutation (forestNames forest) (map fst m1)).
  { apply NoDup_Permutation; [exact Hnd|exact Hn|].
    intros k. exact (forest_names_keys lineages nodeTypes forest m1 m2 roots W Hroots Hread k). }
  replace (map Node.originalCount (flat_map nodesOf forest))
    with (map (ownCountOf m1) (forestNames forest)).
  - rewrite (Permutation_map (ownCountOf m1) Hperm).
    rewrite map_map.
    replace (map (fun x => ownCountOf m1 (fst x)) m1)
      with (map (fun kc => Cell.originalCount (snd kc)) m1); [reflexivity|].
    apply map_ext_in. intros [k c] Hin. cbn.
    unfold ownCountOf. now rewrite (NoDup_own m1 k c Hn Hin).
  - unfold forestNames. rewrite map_map. apply map_ext_in. intros n Hin.
    destruct (forest_nodes_read m2 forest n Hread Hin) as (c & Hc & Hr).
    destruct (wl_cell _ _ _ W _ _ Hc) as (c1 & Hc1 & Hsc).
    unfold ownCountOf. rewrite (NoDup_own m1 _ c1 Hn Hc1).
    destruct Hsc as (_ & _ & S3 & _). destruct Hr as (_ & R2 & _). congruence.
Qed.

Lemma sumOwn_abs (l : list Node.t) :
  Z.abs (sumOwn l) <= sumAbs (map Node.originalCount l).
Proof. induction l as [|x l IH]; unfold sumOwn, sumAbs in *; cbn; lia. Qed.

(** The sample and internal totals are sums over the subtree too, of
    parts of the own counts. *)
Lemma organize_parts_within
  (lineages : list Lineage.t) (nodeTypes : NodeTypes) (forest : list Node.t) :
  organizeLineageHierarchy lineages nodeTypes = Returns forest ->
  Forall (everyNode (fun n =>
            Z.abs (Node.sampleCount n) + Z.abs (Node.internalCount n)
            <= sumAbs (map Node.originalCount (nodesOf n)))) forest.
Proof.
  intros H.
  destruct (organize_pipeline _ _ _ H) as (m1 & m2 & roots & trees & E1 & E2 & E3 & ->).
  pose proof (organize_trees_fresh _ _ _ _ _ _ E1 E2 E3) as Hf.
  pose proof (organize_trees_counts nodeTypes
                (fun _ o s i => Z.abs s + Z.abs i <= Z.abs o)) as Hc.
  cbv beta in Hc.
  assert (Hobs : observedCounts nodeTypes (fun _ o s i => Z.abs s + Z.abs i <= Z.abs o)).
  { split; [lia|]. intros value count. destruct (isLeafCount nodeTypes value); lia. }
  specialize (Hc Hobs _ _ _ _ _ E1 E2 E3).
  apply (forest_property
           (fun x => fresh x
                     /\ Z.abs (Node.sampleCount x) + Z.abs (Node.internalCount x)
                        <= Z.abs (Node.originalCount x))).
  - intros t. induction t as [n IH] using Node_ind'. rewrite Forall_forall in IH.
    intros Ht.
    assert (Hfr : everyNode fresh n)
      by (eapply everyNode_impl; [|exact Ht]; now intros x [Hx _]).
    destruct (accumulate_totals n Hfr) as (_ & Hch & _ & Hs & Hi).
    apply everyNode_unfold in Ht. destruct Ht as [[_ Hown] Hkids].
    rewrite Forall_forall in Hkids.
    assert (Hk : Forall (everyNode (fun x =>
                   Z.abs (Node.sampleCount x) + Z.abs (Node.internalCount x)
                   <= sumAbs (map Node.originalCount (nodesOf x))))
                   (Node.children (accNode n))).
    { rewrite Hch, Forall_map, Forall_forall. intros k Hkin.
      apply (IH k Hkin). now apply Hkids. }
    apply everyNode_unfold. split; [|exact Hk].
    rewrite Hs, Hi, nodesOf_unfold. cbn [map]. unfold sumAbs at 1. cbn [fold_right].
    fold (sumAbs (map Node.originalCount (flat_map nodesOf (Node.children (accNode n))))).
    destruct (accNode_keepsShape n) as (_ & Ho & _). rewrite Ho.
    assert (Hsum : Z.abs (sumOf Node.sampleCount (Node.children (accNode n)))
                   + Z.abs (sumOf Node.internalCount (Node.children (accNode n)))
                   <= sumAbs (map Node.originalCount
                                (flat_map nodesOf (Node.children (accNode n))))).
    { clear - Hk. induction Hk as [|k ks Hkk _ IHk].
      - cbn. unfold sumAbs. cbn. lia.
      - apply everyNode_unfold in Hkk. destruct Hkk as [Hkk _].
        cbn [flat_map]. rewrite map_app, sumAbs_app.
        unfold sumOf in *. cbn [fold_right]. lia. }
    lia.
  - intros t. induction t as [n IH] using Node_ind'. rewrite Forall_forall in IH.
    intros Ht. apply everyNode_unfold in Ht. destruct Ht as [Hn Hkids].
    rewrite Forall_forall in Hkids.
    apply everyNode_unfold. split.
    + assert (Hp : Permutation (map Node.originalCount (nodesOf (sortChildren n)))
                     (map Node.originalCount (nodesOf n))).
      { clear - n. induction n as [n IHn] using Node_ind'. rewrite Forall_forall in IHn.
        rewrite !nodesOf_unfold, sortChildren_children. cbn [map].
        destruct n as [? ? ? ? ? ? kids ? ? ? ?]. cbn in *. constructor.
        rewrite (Permutation_map Node.originalCount
                   (Permutation_flat_map nodesOf (sortNodes_perm (map sortChildren kids)))).
        rewrite !map_flat_map'. rewrite flat_map_concat_map, map_map, <- flat_map_concat_map.
        apply flat_map_Forall2_perm.
        clear - IHn. induction kids as [|k kids IHk]; [constructor|].
        constructor; [apply IHn; now left|]. apply IHk. intros x Hx. apply IHn. now right. }
      rewrite (sumAbs_perm _ _ Hp). destruct n; exact Hn.
    + rewrite sortChildren_children.
      eapply Permutation_Forall; [symmetry; apply sortNodes_perm|].
      rewrite Forall_map, Forall_forall. intros k Hk. apply (IH k Hk). now apply Hkids.
  - clear - Hf Hc. induction Hf as [|t ts Ht _ IH]; [constructor|].
    inversion Hc; subst. constructor; [|auto].
    apply everyNode_and; assumption.
Qed.

Lemma subtree_own_le (n x : Node.t) :
  In x (nodesOf n) ->
  sumAbs (map Node.originalCount (nodesOf x))
  <= sumAbs (map Node.originalCount (nodesOf n)).
Proof.
  induction n as [n IH] using Node_ind'. rewrite Forall_forall in IH.
  rewrite (nodesOf_unfold n). intros [<-|Hin].
  - rewrite <- nodesOf_unfold. lia.
  - apply in_flat_map in Hin. destruct Hin as (k & Hk & Hx).
    specialize (IH k Hk Hx). cbn [map]. rewrite sumAbs_cons, map_flat_map'.
    pose proof (sumAbs_flat_map (fun y => map Node.originalCount (nodesOf y))
                  (Node.children n) k Hk) as Hle. cbv beta in Hle. lia.
Qed.

(** When the counts of the entries add up to at most 2^53 in
    magnitude, every total in the returned forest is of magnitude at
    most 2^53: every sum the builder forms is in the range in which
    the sums of the code are those of the model. *)
Lemma organize_totals_within
  (lineages : list Lineage.t) (nodeTypes : NodeTypes) (forest : list Node.t) :
  countsBounded lineages ->
  organizeLineageHierarchy lineages nodeTypes = Returns forest ->
  Forall (everyNode withinExact) forest.
Proof.
  intros Hb H.
  destruct (organize_pipeline _ _ _ H) as (m1 & _ & _ & _ & E1 & _).
  pose proof (firstPass_abs nodeTypes lineages [] m1 E1) as Hstore.
  change (sumAbs (map (fun kc : string * Cell.t => Cell.originalCount (snd kc)) []))
    with 0 in Hstore.
  pose proof (sumAbs_perm _ _ (forest_own_perm _ _ _ _ H E1)) as Hforest.
  pose proof (organize_subtree_sums _ _ _ H) as Hsum.
  pose proof (organize_parts_within _ _ _ H) as Hparts.
  unfold countsBounded in Hb.
  rewrite Forall_forall in *. intros t Ht.
  apply everyNode_nodesOf. rewrite Forall_forall. intros x Hx.
  assert (Hin : In x (flat_map nodesOf forest))
    by (apply in_flat_map; exists t; auto).
  assert (Hle : sumAbs (map Node.originalCount (nodesOf x)) <= exactBound).
  { pose proof (subtree_own_le t x Hx) as H1.
    pose proof (sumAbs_flat_map (fun y => map Node.originalCount (nodesOf y)) forest t Ht)
      as H2.
    cbv beta in H2. rewrite <- map_flat_map' in H2. lia. }
  pose proof (proj1 (everyNode_nodesOf _ _) (Hsum t Ht)) as Hs1.
  pose proof (proj1 (everyNode_nodesOf _ _) (Hparts t Ht)) as Hp1.
  rewrite Forall_forall in Hs1, Hp1. specialize (Hs1 x Hx). specialize (Hp1 x Hx).
  cbv beta in Hs1, Hp1. pose proof (sumOwn_abs (nodesOf x)) as Ha.
  unfold withinExact. lia.
Qed.
